(** * WobbleScript front end (src/compiler.py): tokenizer and parser

    A shallow embedding of [lexer] and [parse] of [src/compiler.py].

    - Source text is a [string]; its characters stand for code points
      below 256.  Positions are indices into the text, as in Python.
    - The patterns of [TOKEN_TYPES] are regular expressions run by
      Python's backtracking matcher [re].  [Re.rmatch] lists, for a
      pattern and a start position, every end position the matcher can
      reach, in the order in which it tries them; [Re.re_match] keeps the
      first one, which is what [regex.match(input_text, position)] finds.
    - A Python exception is a value of [exn]; a function that can raise
      returns an [outcome].  Loops and recursion take fuel, and [OutOfFuel]
      stands for a run that never returns; it is proved unreachable.
    - Python's limit on the depth of calls (RecursionError) is not part of
      the embedding: what is proved of a run holds of the source where
      this limit is not met. *)

From Stdlib Require Import String Ascii List Arith Bool Lia.
Import ListNotations.
Open Scope string_scope.
Open Scope list_scope.
Open Scope nat_scope.
Set Warnings "-register-all".

(* ================================================================= *)
(** ** Characters *)

Module Chars.

Definition code (c : ascii) : nat := nat_of_ascii c.

Definition between (lo hi n : nat) : bool := (lo <=? n) && (n <=? hi).

(** [\s] on a [str] pattern: [str.isspace] of the code point. *)
Definition is_space (c : ascii) : bool :=
  let n := code c in
  between 9 13 n || between 28 32 n || (n =? 133) || (n =? 160).

(** [[a-zA-Z_]] *)
Definition is_ident_start (c : ascii) : bool :=
  let n := code c in
  between 97 122 n || between 65 90 n || (n =? 95).

(** [\w] on a [str] pattern: alphanumeric code point, or the underscore. *)
Definition is_word (c : ascii) : bool :=
  let n := code c in
  between 48 57 n || between 65 90 n || between 97 122 n || (n =? 95)
  || (n =? 170) || (n =? 178) || (n =? 179) || (n =? 181) || (n =? 185)
  || (n =? 186) || between 188 190 n || between 192 214 n
  || between 216 246 n || between 248 255 n.

(** [.] without DOTALL: anything but a line feed. *)
Definition is_dot (c : ascii) : bool := negb (code c =? 10).

(** The double quote, the backslash, the dot and the equals sign. *)
Definition dquote : ascii := ascii_of_nat 34.
Definition backslash : ascii := ascii_of_nat 92.
Definition dot : ascii := ascii_of_nat 46.
Definition equals : ascii := ascii_of_nat 61.

(** The class of every character but the double quote. *)
Definition not_quote (c : ascii) : bool := negb (code c =? 34).

(** The class of every character but the double quote and the
    backslash. *)
Definition not_quote_backslash (c : ascii) : bool :=
  negb (code c =? 34) && negb (code c =? 92).

(** [[\w.]] *)
Definition is_word_or_dot (c : ascii) : bool := is_word c || (code c =? 46).

(** [[\s\S]] *)
Definition any_char (c : ascii) : bool := is_space c || negb (is_space c).

(** [str.upper], on the letters a-z (it is applied to members of
    [KEYWORDS] only). *)
Definition upper_char (c : ascii) : ascii :=
  if between 97 122 (code c) then ascii_of_nat (code c - 32) else c.

Fixpoint upper (s : string) : string :=
  match s with
  | EmptyString => EmptyString
  | String c s' => String (upper_char c) (upper s')
  end.

End Chars.

(* ================================================================= *)
(** ** Regular expressions, as Python's [re] runs them *)

Module Re.
Import Chars.

Inductive regex : Type :=
| Eps                        (* the empty pattern *)
| Lit (c : ascii)            (* one literal character *)
| Cls (p : ascii -> bool)    (* a character class *)
| WordB                      (* \b *)
| Seq (a b : regex)          (* ab *)
| Alt (a b : regex)          (* a|b *)
| Opt (a : regex)            (* a?  (greedy) *)
| Star (a : regex)           (* a*  (greedy) *)
| Plus (a : regex)           (* a+  (greedy) *)
| LazyStar (a : regex).      (* a*? *)

(** A literal word. *)
Fixpoint lit (s : string) : regex :=
  match s with
  | EmptyString => Eps
  | String c s' => Seq (Lit c) (lit s')
  end.

(** Concatenation of several pieces. *)
Fixpoint cat (rs : list regex) : regex :=
  match rs with
  | [] => Eps
  | r :: rs' => Seq r (cat rs')
  end.

Definition word_at (text : string) (i : nat) : bool :=
  match String.get i text with
  | Some c => is_word c
  | None => false
  end.

(** [\b] holds at [pos] when exactly one of the characters before and
    at [pos] is a word character (none counts as a non-word one). *)
Definition at_boundary (text : string) (pos : nat) : bool :=
  xorb (match pos with 0 => false | S p => word_at text p end)
       (word_at text pos).

(** Greedy repetition: one more round of the body where it advances,
    the longest continuations first, then stopping here. *)
Fixpoint star_iter (step : nat -> list nat) (fuel pos : nat) : list nat :=
  match fuel with
  | 0 => [pos]
  | S f =>
      flat_map (fun e => if pos <? e then star_iter step f e else [])
               (step pos) ++ [pos]
  end.

(** Lazy repetition: stopping here first, then one more round. *)
Fixpoint lazy_iter (step : nat -> list nat) (fuel pos : nat) : list nat :=
  match fuel with
  | 0 => [pos]
  | S f =>
      pos :: flat_map (fun e => if pos <? e then lazy_iter step f e else [])
                      (step pos)
  end.

(** The end positions of the matches of [r] that start at [pos], in the
    matcher's order of preference.  Every repeated body of
    [TOKEN_TYPES] consumes a character, so a round that does not advance
    is not taken, and [length text] rounds are enough. *)
Fixpoint rmatch (text : string) (r : regex) {struct r} : nat -> list nat :=
  match r with
  | Eps => fun pos => [pos]
  | Lit c => fun pos =>
      match String.get pos text with
      | Some d => if Ascii.eqb d c then [S pos] else []
      | None => []
      end
  | Cls p => fun pos =>
      match String.get pos text with
      | Some d => if p d then [S pos] else []
      | None => []
      end
  | WordB => fun pos => if at_boundary text pos then [pos] else []
  | Seq a b => fun pos => flat_map (rmatch text b) (rmatch text a pos)
  | Alt a b => fun pos => rmatch text a pos ++ rmatch text b pos
  | Opt a => fun pos => rmatch text a pos ++ [pos]
  | Star a => fun pos => star_iter (rmatch text a) (String.length text) pos
  | Plus a => fun pos =>
      flat_map (star_iter (rmatch text a) (String.length text))
               (rmatch text a pos)
  | LazyStar a => fun pos =>
      lazy_iter (rmatch text a) (String.length text) pos
  end.

(** [regex.match(text, pos)]: the end of the match, [None] for no match. *)
Definition re_match (r : regex) (text : string) (pos : nat) : option nat :=
  hd_error (rmatch text r pos).

End Re.

(* ================================================================= *)
(** ** Tokens, exceptions, outcomes *)

(** A token is the pair [(token_type, value)]. *)
Definition token : Type := (string * string)%type.

(** The exceptions the front end raises.  Each [Exception] constructor
    stands for the message built at its [raise]; the two [TypeError]s are
    the ones the Python runtime raises. *)
Inductive exn : Type :=
| LexerError (position : nat)
    (* 'Lexer error: Unrecognized token at position ' + str(position) *)
| ParserExpected (token_type : string) (found : option token)
    (* f'Parser error: Expected {token_type}, found {token}' *)
| ParserUnexpectedToken (found : token)
    (* f'Parser error: Unexpected token {token}' *)
| ParserUnexpectedValue
    (* 'Parser error: Unexpected value' *)
| TypeErrorNoneSubscript
    (* TypeError: 'NoneType' object is not subscriptable *)
| TypeErrorPeekArgs (given : nat).
    (* TypeError: peek() takes 0 positional arguments but n were given *)

Inductive outcome (A : Type) : Type :=
| Return (a : A)
| Raise (e : exn)
| OutOfFuel.
Arguments Return {A} a.
Arguments Raise {A} e.
Arguments OutOfFuel {A}.

(* ================================================================= *)
(** ** The tokenizer *)

Module Lexer.
Import Chars Re.

Definition sp : regex := Cls is_space.
Definition w : regex := Cls is_word.

(** [\b[a-zA-Z_]\w*\b] *)
Definition identifier_re : regex :=
  cat [WordB; Cls is_ident_start; Star w; WordB].

(** The rules of [TOKEN_TYPES], in the order of the source.  Rule by
    rule: FOLDER is the word folder, [\s+], [\w+] and any number of
    groups made of a dot and [\w+]; CLASS and FUNCTION are their word,
    [\s+] and [\w+]; VARIABLE is the word variable, [\s+], [\w+], an
    optional arrow with [\w+], an equals sign between two [\s*], and
    one of: a quoted run of non-quotes, the word true or the word false
    between two [\b], an identifier; ELSE is one of the two phrases;
    IMPORT is the word import, [\s+] and one or more of [\w] or a dot;
    STRING is a quote, any number of either a character that is neither
    a quote nor a backslash or a backslash with any character but a
    line feed, and a quote; COMMENT is two slashes and the rest of the
    line, or a slash and a star, the shortest run of any characters,
    and a star and a slash. *)
Definition TOKEN_TYPES : list (string * regex) :=
  [ ("FOLDER",
      cat [lit "folder"; Plus sp; Plus w; Star (cat [Lit dot; Plus w])]);
    ("CLASS", cat [lit "class"; Plus sp; Plus w]);
    ("VARIABLE",
      cat [lit "variable"; Plus sp; Plus w;
           Opt (cat [lit "->"; Plus w]);
           Star sp; Lit equals; Star sp;
           Alt (cat [Lit dquote; Star (Cls not_quote); Lit dquote])
          (Alt (cat [WordB; lit "true"; WordB])
          (Alt (cat [WordB; lit "false"; WordB])
               identifier_re))]);
    ("FUNCTION", cat [lit "function"; Plus sp; Plus w]);
    ("IF", lit "if");
    ("NOT", lit "not");
    ("ELSE", Alt (lit "but if") (lit "otherwise"));
    ("IMPORT", cat [lit "import"; Plus sp; Plus (Cls is_word_or_dot)]);
    ("IDENTIFIER", identifier_re);
    ("STRING",
      cat [Lit dquote;
           Star (Alt (Cls not_quote_backslash)
                     (cat [Lit backslash; Cls is_dot]));
           Lit dquote]);
    ("COMMENT",
      Alt (cat [lit "//"; Star (Cls is_dot)])
          (cat [lit "/*"; LazyStar (Cls any_char); lit "*/"]));
    ("LPAREN", lit "(");
    ("RPAREN", lit ")");
    ("LBRACE", lit "{");
    ("RBRACE", lit "}");
    ("SEMICOLON", lit ";");
    ("DOT", Lit dot);
    ("YEET", lit "yeet");
    ("ARROW", lit "->");
    ("BOOLEAN", Alt (lit "true") (lit "false")) ].

Definition KEYWORDS : list string :=
  ["if"; "not"; "but"; "otherwise"; "yeet"; "import"].

(** The [for token_type, pattern in TOKEN_TYPES] loop: the first rule
    that matches at [position], with the end of its match. *)
Fixpoint first_match (rules : list (string * regex)) (input_text : string)
    (position : nat) : option (string * nat) :=
  match rules with
  | [] => None
  | (token_type, pattern) :: rules' =>
      match re_match pattern input_text position with
      | Some e => Some (token_type, e)
      | None => first_match rules' input_text position
      end
  end.

(** What the body of the [for] loop does with a match that ends at [e]:
    the token it appends, if any. *)
Definition emit (input_text : string) (position e : nat)
    (token_type : string) (tokens : list token) : list token :=
  let value := substring position (e - position) input_text in
  let token_type :=
    if String.eqb token_type "IDENTIFIER" && existsb (String.eqb value) KEYWORDS
    then upper value else token_type in
  if negb (String.eqb token_type "COMMENT")
  then tokens ++ [(token_type, value)]
  else tokens.

(** The [while position < len(input_text)] loop. *)
Fixpoint lexer_loop (fuel : nat) (input_text : string) (position : nat)
    (tokens : list token) : outcome (list token) :=
  match fuel with
  | 0 => OutOfFuel
  | S fuel' =>
      if position <? String.length input_text then
        match first_match TOKEN_TYPES input_text position with
        | None => Raise (LexerError position)
        | Some (token_type, e) =>
            lexer_loop fuel' input_text e
              (emit input_text position e token_type tokens)
        end
      else Return tokens
  end.

Definition lexer (input_text : string) : outcome (list token) :=
  lexer_loop (S (String.length input_text)) input_text 0 [].

End Lexer.

(* ================================================================= *)
(** ** Syntax trees *)

(** The right-hand side [parse_value] returns: a [str] or a [bool]. *)
Inductive pyval : Type :=
| VStr (s : string)
| VBool (b : bool).

(** The [value] attribute of a [Node]: [None], a [str], or the tuple
    [(name, arrow, value)] of a variable declaration. *)
Inductive payload : Type :=
| NoValue
| StrValue (s : string)
| VarValue (name : string) (arrow : option string) (value : pyval).

(** [class Node], with its [type], [children] and [value] attributes. *)
Inductive Node : Type :=
| mkNode (type : string) (children : list Node) (value : payload).

Definition node_type (n : Node) : string :=
  match n with mkNode t _ _ => t end.
Definition node_children (n : Node) : list Node :=
  match n with mkNode _ c _ => c end.
Definition node_value (n : Node) : payload :=
  match n with mkNode _ _ v => v end.

(** [Node.__init__]: [children if children else []]. *)
Definition new_Node (type : string) (children : option (list Node))
    (value : payload) : Node :=
  mkNode type
    (match children with
     | Some (c :: cs) => c :: cs
     | Some [] => []
     | None => []
     end)
    value.

(* ================================================================= *)
(** ** The parser *)

Module Parser.

(** A parsing function reads the cursor [index] and returns its result
    with the new cursor, or raises. *)
Definition M (A : Type) : Type := nat -> outcome (A * nat).

Definition ret {A} (a : A) : M A := fun index => Return (a, index).
Definition raise {A} (e : exn) : M A := fun _ => Raise e.
Definition out_of_fuel {A} : M A := fun _ => OutOfFuel.
Definition bind {A B} (m : M A) (k : A -> M B) : M B :=
  fun index =>
    match m index with
    | Return (a, index') => k a index'
    | Raise e => Raise e
    | OutOfFuel => OutOfFuel
    end.

Notation "x <- m ;; k" := (bind m (fun x => k))
  (at level 61, m at next level, right associativity).
Notation "m >> k" := (bind m (fun _ => k))
  (at level 61, right associativity).

Section WithTokens.
Variable tokens : list token.

(** [def peek()]: the token under the cursor, [None] past the end. *)
Definition peek : M (option token) :=
  fun index => Return (nth_error tokens index, index).

(** A call of [peek] with [args] positional arguments: [peek] is
    defined without parameters, so any argument is a [TypeError]. *)
Definition call_peek (args : list nat) : M (option token) :=
  match args with
  | [] => peek
  | _ :: _ => raise (TypeErrorPeekArgs (length args))
  end.

(** [t[0]] for [t] a token or [None]. *)
Definition item0 (t : option token) : M string :=
  match t with
  | Some tok => ret (fst tok)
  | None => raise TypeErrorNoneSubscript
  end.

Definition consume (token_type : string) : M token :=
  token <- peek ;;
  match token with
  | Some tok =>
      if String.eqb (fst tok) token_type
      then fun index => Return (tok, S index)
      else raise (ParserExpected token_type token)
  | None => raise (ParserExpected token_type token)
  end.

(** The [while peek() and peek()[0] == 'DOT'] loop of [parse_import]. *)
Fixpoint parse_import_loop (fuel : nat) (module_name : string)
    : M string :=
  match fuel with
  | 0 => out_of_fuel
  | S fuel' =>
      token <- peek ;;
      match token with
      | Some tok =>
          if String.eqb (fst tok) "DOT" then
            consume "DOT" >>
            part <- consume "IDENTIFIER" ;;
            parse_import_loop fuel' (module_name ++ "." ++ snd part)
          else ret module_name
      | None => ret module_name
      end
  end.

Definition parse_import (fuel : nat) : M Node :=
  consume "IMPORT" >>
  first <- consume "IDENTIFIER" ;;
  module_name <- parse_import_loop fuel (snd first) ;;
  consume "SEMICOLON" >>
  ret (new_Node "IMPORT" None (StrValue module_name)).

(** [parse_folder] returns [None]. *)
Definition parse_folder : M unit :=
  consume "FOLDER" >> ret tt.

Definition parse_class : M Node :=
  consume "CLASS" >>
  name <- consume "IDENTIFIER" ;;
  ret (new_Node "CLASS" None (StrValue (snd name))).

Definition parse_value : M pyval :=
  token <- peek ;;
  kind <- item0 token ;;
  if String.eqb kind "STRING" then
    t <- consume "STRING" ;; ret (VStr (snd t))
  else if String.eqb kind "BOOLEAN" then
    match token with
    | Some tok => ret (VBool (String.eqb (snd tok) "true"))
    | None => raise TypeErrorNoneSubscript
    end
  else if String.eqb kind "IDENTIFIER" then
    t <- consume "IDENTIFIER" ;; ret (VStr (snd t))
  else raise ParserUnexpectedValue.

Definition parse_variable : M Node :=
  consume "VARIABLE" >>
  name <- consume "IDENTIFIER" ;;
  token <- peek ;;
  kind <- item0 token ;;
  arrow <- (if String.eqb kind "ARROW" then
              consume "ARROW" >>
              t <- consume "IDENTIFIER" ;; ret (Some (snd t))
            else ret None) ;;
  consume "EQUALS" >>
  value <- parse_value ;;
  ret (new_Node "VARIABLE" None (VarValue (snd name) arrow value)).

Definition parse_function : M Node :=
  consume "FUNCTION" >>
  name <- consume "IDENTIFIER" ;;
  ret (new_Node "FUNCTION" None (StrValue (snd name))).

Definition parse_identifier : M Node :=
  token <- consume "IDENTIFIER" ;;
  ret (new_Node "IDENTIFIER" None (StrValue (snd token))).

Definition parse_string : M Node :=
  token <- consume "STRING" ;;
  ret (new_Node "STRING" None (StrValue (snd token))).

Definition parse_expression : M Node :=
  token <- peek ;;
  kind <- item0 token ;;
  if String.eqb kind "IDENTIFIER" then parse_identifier
  else if String.eqb kind "STRING" then parse_string
  else match token with
       | Some tok => raise (ParserUnexpectedToken tok)
       | None => raise TypeErrorNoneSubscript
       end.

(** The [while peek()[0] == 'SEMICOLON'] loop of
    [parse_function_call]. *)
Fixpoint parse_arguments_loop (fuel : nat) (arguments : list Node)
    : M (list Node) :=
  match fuel with
  | 0 => out_of_fuel
  | S fuel' =>
      token <- peek ;;
      kind <- item0 token ;;
      if String.eqb kind "SEMICOLON" then
        consume "SEMICOLON" >>
        arg <- parse_expression ;;
        parse_arguments_loop fuel' (arguments ++ [arg])
      else ret arguments
  end.

Definition parse_function_call (fuel : nat) : M Node :=
  identifier <- consume "IDENTIFIER" ;;
  consume "LPAREN" >>
  token <- peek ;;
  kind <- item0 token ;;
  arguments <- (if negb (String.eqb kind "RPAREN") then
                  arg <- parse_expression ;;
                  parse_arguments_loop fuel ([] ++ [arg])
                else ret []) ;;
  consume "RPAREN" >>
  ret (new_Node "FUNCTION_CALL"
         (Some ([new_Node "IDENTIFIER" None (StrValue (snd identifier))]
                ++ arguments))
         NoValue).

Definition parse_assignment : M Node :=
  variable <- parse_variable ;;
  consume "SEMICOLON" >>
  ret (new_Node "ASSIGNMENT" (Some [variable]) NoValue).

Definition parse_yeet : M Node :=
  consume "YEET" >>
  error <- consume "STRING" ;;
  consume "SEMICOLON" >>
  ret (new_Node "YEET" None (StrValue (snd error))).

(** [parse_statement], [parse_if], [parse_body] and the [while] loop
    of [parse_body] call one another. *)
Fixpoint parse_statement (fuel : nat) : M Node :=
  match fuel with
  | 0 => out_of_fuel
  | S fuel' =>
      token <- peek ;;
      kind <- item0 token ;;
      if String.eqb kind "IF" then parse_if fuel'
      else if String.eqb kind "IDENTIFIER" then
        next <- call_peek [1] ;;
        if match next with
           | Some tok => String.eqb (fst tok) "LPAREN"
           | None => false
           end
        then parse_function_call fuel'
        else parse_assignment
      else if String.eqb kind "YEET" then parse_yeet
      else if String.eqb kind "IMPORT" then parse_import fuel'
      else match token with
           | Some tok => raise (ParserUnexpectedToken tok)
           | None => raise TypeErrorNoneSubscript
           end
  end
with parse_if (fuel : nat) : M Node :=
  match fuel with
  | 0 => out_of_fuel
  | S fuel' =>
      consume "IF" >>
      condition <- parse_expression ;;
      body <- parse_body fuel' ;;
      ret (new_Node "IF" (Some [condition; body]) NoValue)
  end
with parse_body (fuel : nat) : M Node :=
  match fuel with
  | 0 => out_of_fuel
  | S fuel' =>
      consume "LBRACE" >>
      statements <- parse_body_loop fuel' [] ;;
      consume "RBRACE" >>
      ret (new_Node "BODY" (Some statements) NoValue)
  end
with parse_body_loop (fuel : nat) (statements : list Node)
    : M (list Node) :=
  match fuel with
  | 0 => out_of_fuel
  | S fuel' =>
      token <- peek ;;
      match token with
      | Some tok =>
          if negb (String.eqb (fst tok) "RBRACE") then
            statement <- parse_statement fuel' ;;
            parse_body_loop fuel' (statements ++ [statement])
          else ret statements
      | None => ret statements
      end
  end.

(** The [while peek()] loop at the end of [parse]. *)
Fixpoint parse_loop (fuel : nat) (ast : list Node) : M (list Node) :=
  match fuel with
  | 0 => out_of_fuel
  | S fuel' =>
      token <- peek ;;
      match token with
      | None => ret ast
      | Some tok =>
          let kind := fst tok in
          if String.eqb kind "FOLDER" then
            parse_folder >> parse_loop fuel' ast
          else if String.eqb kind "CLASS" then
            n <- parse_class ;; parse_loop fuel' (ast ++ [n])
          else if String.eqb kind "VARIABLE" then
            n <- parse_variable ;; parse_loop fuel' (ast ++ [n])
          else if String.eqb kind "FUNCTION" then
            n <- parse_function ;; parse_loop fuel' (ast ++ [n])
          else if String.eqb kind "IF" then
            n <- parse_if fuel' ;; parse_loop fuel' (ast ++ [n])
          else if String.eqb kind "COMMENT" then
            (fun index => Return (tt, index + 1)) >> parse_loop fuel' ast
          else if String.eqb kind "IMPORT" then
            n <- parse_import fuel' ;; parse_loop fuel' (ast ++ [n])
          else raise (ParserUnexpectedToken tok)
      end
  end.

End WithTokens.

(** Fuel that no run on [tokens] uses up. *)
Definition enough (tokens : list token) : nat := 2 * length tokens + 4.

(** [parse], its top-level loop run on [fuel]. *)
Definition parse_fuel (fuel : nat) (tokens : list token)
    : outcome (list Node) :=
  match parse_loop tokens fuel [] 0 with
  | Return (ast, _) => Return ast
  | Raise e => Raise e
  | OutOfFuel => OutOfFuel
  end.

Definition parse (tokens : list token) : outcome (list Node) :=
  parse_fuel (enough tokens) tokens.

(** The first two lines of the pipeline of [compile_file]:
    [tokens = lexer(input_text); ast = parse(tokens)]. *)
Definition front_end (input_text : string) : outcome (list Node) :=
  match Lexer.lexer input_text with
  | Return tokens => parse tokens
  | Raise e => Raise e
  | OutOfFuel => OutOfFuel
  end.

End Parser.

(* ================================================================= *)
(** ** The callers of the front end: [compile_file] and the executor *)

Module Driver.
Import Lexer Parser.

(** What one call of [print] writes.  An f-string puts the [value] of a
    node between two fixed texts: a [str] stands for itself and [None]
    is written [None]; the writing of a tuple is kept as it is, under
    [LineF]. *)
Inductive printed : Type :=
| Line (text : string)
| LineF (before : string) (value : payload) (after : string).

Definition fstring (before : string) (value : payload) (after : string)
    : printed :=
  match value with
  | StrValue s => Line (before ++ s ++ after)
  | NoValue => Line (before ++ "None" ++ after)
  | VarValue _ _ _ => LineF before value after
  end.

(** What stops a caller: an exception of the front end, an index past
    the end of a list of children, or the exception of
    [execute_function_call]. *)
Inductive fault : Type :=
| FrontEnd (e : exn)
| IndexError
    (* IndexError: list index out of range *)
| SayArguments.
    (* 'Error: say function requires exactly one argument' *)

Inductive ending : Type :=
| Finished
| Faulted (e : fault)
| Unfinished.

(** What a caller has printed, and how it ended. *)
Definition trace : Type := (list printed * ending)%type.

(** [first] and then, when it finished, [next]. *)
Definition and_then (first next : trace) : trace :=
  match first with
  | (out, Finished) => (out ++ fst next, snd next)
  | (out, stopped) => (out, stopped)
  end.

(** [value == s] for the [value] of a node and a [str]. *)
Definition payload_is (value : payload) (s : string) : bool :=
  match value with
  | StrValue t => String.eqb t s
  | _ => false
  end.

(** One turn of the [for node in ast] loop of [compile_file]:
    [say_called] afterwards, and what the turn prints. *)
Definition report_node (node : Node) (say_called : bool)
    : bool * trace :=
  match
    (if String.eqb (node_type node) "FUNCTION_CALL" then
       match node_children node with
       | callee :: _ => Some (payload_is (node_value callee) "say")
       | [] => None
       end
     else Some false)
  with
  | None => (say_called, ([], Faulted IndexError))
  | Some is_say =>
      let said :=
        if is_say then
          [ match node_children node with
            | [_; argument] =>
                if String.eqb (node_type argument) "STRING"
                then fstring "Saying: " (node_value argument) ""
                else Line "Error: Incorrect usage of 'say' function"
            | _ => Line "Error: Incorrect usage of 'say' function"
            end ]
        else [] in
      let imported :=
        if String.eqb (node_type node) "IMPORT"
        then [fstring "Importing: " (node_value node) ""]
        else [] in
      (say_called || is_say, (said ++ imported, Finished))
  end.

Fixpoint report_loop (ast : list Node) (say_called : bool)
    : bool * trace :=
  match ast with
  | [] => (say_called, ([], Finished))
  | node :: ast' =>
      match report_node node say_called with
      | (say_called', (out, Finished)) =>
          let (final, rest) := report_loop ast' say_called' in
          (final, (out ++ fst rest, snd rest))
      | stopped => stopped
      end
  end.

(** [compile_file], from the text that [file.read()] returned on. *)
Definition compile_file (input_text : string) : trace :=
  match lexer input_text with
  | Raise e => ([], Faulted (FrontEnd e))
  | OutOfFuel => ([], Unfinished)
  | Return tokens =>
      match parse tokens with
      | Raise e => ([], Faulted (FrontEnd e))
      | OutOfFuel => ([], Unfinished)
      | Return ast =>
          match report_loop ast false with
          | (say_called, (out, Finished)) =>
              if negb say_called
              then (out ++ [Line "Contents of the file:";
                            Line input_text], Finished)
              else (out, Finished)
          | (_, stopped) => stopped
          end
      end
  end.

(** [str.endswith] *)
Definition endswith (s suffix : string) : bool :=
  (String.length suffix <=? String.length s)
  && String.eqb
       (substring (String.length s - String.length suffix)
                  (String.length suffix) s)
       suffix.

(** [compile_files_in_directory], from the triples that [os.walk]
    yields, each reduced to its root and its file names; [join] stands
    for [os.path.join] and [read] for the text read from a path. *)
Section Directory.
Variable join : string -> string -> string.
Variable read : string -> string.

Fixpoint compile_files (root : string) (files : list string) : trace :=
  match files with
  | [] => ([], Finished)
  | file :: files' =>
      if endswith file ".ms"
      then and_then (compile_file (read (join root file)))
                    (compile_files root files')
      else compile_files root files'
  end.

Fixpoint compile_files_in_directory (walk : list (string * list string))
    : trace :=
  match walk with
  | [] => ([], Finished)
  | (root, files) :: walk' =>
      and_then (compile_files root files)
               (compile_files_in_directory walk')
  end.

End Directory.

Definition execute_function_call (call_node : Node) : trace :=
  match node_children call_node with
  | [] => ([], Faulted IndexError)
  | callee :: arguments =>
      if payload_is (node_value callee) "say" then
        match arguments with
        | [argument] =>
            ([fstring "Saying: " (node_value argument) ""], Finished)
        | _ => ([], Faulted SayArguments)
        end
      else
        ([fstring "Error: Unknown function '" (node_value callee) "'"],
         Finished)
  end.

(** One turn of the [for node in ast] loop of [execute_ast]; for an IF
    node it is the body of [execute_if_statement], whose call of
    [execute_ast] on the children of the body is the inner loop. *)
Fixpoint execute_node (node : Node) : trace :=
  match node with
  | mkNode type children value =>
      if String.eqb type "CLASS" then
        ([fstring "Declaring class: " value ""], Finished)
      else if String.eqb type "VARIABLE" then
        ([fstring "Declaring variable: " value ""], Finished)
      else if String.eqb type "FUNCTION" then
        ([fstring "Declaring function: " value ""], Finished)
      else if String.eqb type "IF" then
        match children with
        | condition :: body :: _ =>
            if payload_is (node_value condition) "true" then
              (fix execute_all (ast : list Node) : trace :=
                 match ast with
                 | [] => ([], Finished)
                 | n :: ast' => and_then (execute_node n) (execute_all ast')
                 end)
                (match body with mkNode _ statements _ => statements end)
            else ([Line "Condition not met for if statement"], Finished)
        | _ => ([], Faulted IndexError)
        end
      else if String.eqb type "YEET" then
        ([fstring "Error: " value ""], Finished)
      else if String.eqb type "FUNCTION_CALL" then
        execute_function_call (mkNode type children value)
      else ([], Finished)
  end.

Fixpoint execute_ast (ast : list Node) : trace :=
  match ast with
  | [] => ([], Finished)
  | node :: ast' => and_then (execute_node node) (execute_ast ast')
  end.

Definition execute_if_statement (if_node : Node) : trace :=
  match node_children if_node with
  | condition :: body :: _ =>
      if payload_is (node_value condition) "true"
      then execute_ast (node_children body)
      else ([Line "Condition not met for if statement"], Finished)
  | _ => ([], Faulted IndexError)
  end.

End Driver.

Import Chars Re Lexer Parser Driver.

(* ================================================================= *)
(** ** Notions used to state the properties *)

Module Notions.

(** *** Patterns *)

(** Can [r] match the empty string? *)
Fixpoint nullable (r : regex) : bool :=
  match r with
  | Eps | WordB | Opt _ | Star _ | LazyStar _ => true
  | Lit _ | Cls _ => false
  | Seq a b => nullable a && nullable b
  | Alt a b => nullable a || nullable b
  | Plus a => nullable a
  end.

(** Can a non-empty match of [r] begin with the character [c]? *)
Fixpoint first (r : regex) (c : ascii) : bool :=
  match r with
  | Eps | WordB => false
  | Lit d => Ascii.eqb c d
  | Cls p => p c
  | Seq a b => first a c || (nullable a && first b c)
  | Alt a b => first a c || first b c
  | Opt a | Star a | Plus a | LazyStar a => first a c
  end.

(** What a match from [pos] to [e] of a pattern with the given
    nullability and first characters looks like. *)
Definition shaped (text : string) (nul : bool) (fst : ascii -> bool)
    (pos e : nat) : Prop :=
  pos <= e /\
  (e = pos -> nul = true) /\
  (pos < e ->
   e <= String.length text /\
   exists c, String.get pos text = Some c /\ fst c = true).

(** *** Runs of the tokenizer *)

(** The cursor positions the [while] loop of [lexer] goes through on
    [text], each with the tokens appended so far. *)
Inductive scan (text : string) : nat -> list token -> Prop :=
| scan_start : scan text 0 []
| scan_next : forall position tokens token_type e,
    scan text position tokens ->
    position < String.length text ->
    first_match TOKEN_TYPES text position = Some (token_type, e) ->
    scan text e (emit text position e token_type tokens).

(** The rules before a rule of the table, and the rules after it. *)
Definition splits_table (before : list (string * regex)) (kind : string)
    (pattern : regex) (rest : list (string * regex)) : Prop :=
  TOKEN_TYPES = before ++ (kind, pattern) :: rest.

(** The kinds of the composite rules: a keyword with the name, or the
    whole initializer, in one lexeme. *)
Definition composite_kinds : list string :=
  ["FOLDER"; "CLASS"; "VARIABLE"; "FUNCTION"; "IMPORT"].

(** [position] lies in the lexeme of a match of a composite rule that
    the scan of [text] makes. *)
Definition in_composite_lexeme (text : string) (position : nat) : Prop :=
  exists p tokens kind e,
    scan text p tokens /\
    p < String.length text /\
    first_match TOKEN_TYPES text p = Some (kind, e) /\
    In kind composite_kinds /\
    p <= position < e.

(** A run of the tokenizer on [text] that ends with [r], on some fuel. *)
Definition lexer_run (text : string) (r : outcome (list token)) : Prop :=
  r <> OutOfFuel /\ exists fuel, lexer_loop fuel text 0 [] = r.

(** The kinds of the tokens [lexer] can return: those of the table but
    COMMENT, and the upper-cased reserved words. *)
Definition emitted_kinds : list string :=
  filter (fun k => negb (String.eqb k "COMMENT")) (map fst TOKEN_TYPES)
  ++ map upper KEYWORDS.

(** *** Runs of the parser *)

(** [fin m]: [m] returns or raises wherever it is run. *)
Definition fin {A} (m : M A) : Prop := forall i, m i <> OutOfFuel.

(** [adv k m]: when [m] returns, the cursor has moved [k] tokens forward
    at least. *)
Definition adv (k : nat) {A} (m : M A) : Prop :=
  forall i a j, m i = Return (a, j) -> i + k <= j.

(** [below m m']: where [m] returns or raises, [m'] does the same. *)
Definition below {A} (m m' : M A) : Prop :=
  forall i, m i <> OutOfFuel -> m' i = m i.

(** The number of tokens of [kind] in [l]. *)
Definition count_kind (kind : string) (l : list token) : nat :=
  length (filter (fun t => String.eqb (fst t) kind) l).

(** The tokens from index [i] up to index [j]. *)
Definition span (tokens : list token) (i j : nat) : list token :=
  firstn (j - i) (skipn i tokens).

(** [net tokens o c m]: when [m] returns, the tokens it has gone over
    hold as many opening braces, [o] put aside, as closing braces, [c]
    put aside. *)
Definition net (tokens : list token) (o c : nat) {A} (m : M A) : Prop :=
  forall i a j, m i = Return (a, j) ->
    i <= j /\
    count_kind "LBRACE" (span tokens i j) + c =
    count_kind "RBRACE" (span tokens i j) + o.

(** A run of the parser on [tokens] that ends with [r], on some fuel. *)
Definition parse_run (tokens : list token) (r : outcome (list Node))
    : Prop :=
  r <> OutOfFuel /\ exists fuel, parse_fuel fuel tokens = r.

(** *** Lexemes *)

(** The lexemes of [l], one after the other. *)
Fixpoint lexemes (l : list token) : string :=
  match l with
  | [] => EmptyString
  | t :: l' => snd t ++ lexemes l'
  end.

(** The tokens [lexer] keeps of the matches [l]: all but the comments. *)
Definition kept (l : list token) : list token :=
  filter (fun t => negb (String.eqb (fst t) "COMMENT")) l.

(** *** Trees *)

(** [yields P m]: when [m] returns, what it returns satisfies [P]. *)
Definition yields {A} (P : A -> Prop) (m : M A) : Prop :=
  forall i a j, m i = Return (a, j) -> P a.

(** The nodes of expressions: a leaf of type IDENTIFIER or STRING. *)
Inductive expression_shape : Node -> Prop :=
| identifier_shape : forall v,
    expression_shape (mkNode "IDENTIFIER" [] (StrValue v))
| string_shape : forall v,
    expression_shape (mkNode "STRING" [] (StrValue v)).

(** The nodes of the statements of a body: a YEET or IMPORT leaf, or an
    IF node with two children, an expression and a BODY of statements. *)
Inductive statement_shape : Node -> Prop :=
| yeet_shape : forall v,
    statement_shape (mkNode "YEET" [] (StrValue v))
| import_shape : forall v,
    statement_shape (mkNode "IMPORT" [] (StrValue v))
| if_shape : forall condition statements,
    expression_shape condition ->
    Forall statement_shape statements ->
    statement_shape
      (mkNode "IF" [condition; mkNode "BODY" statements NoValue] NoValue).

(** The nodes of the top level: a CLASS, FUNCTION or VARIABLE leaf, or
    an IMPORT or IF statement. *)
Inductive top_shape : Node -> Prop :=
| class_shape : forall v, top_shape (mkNode "CLASS" [] (StrValue v))
| function_shape : forall v,
    top_shape (mkNode "FUNCTION" [] (StrValue v))
| variable_shape : forall name arrow value,
    top_shape (mkNode "VARIABLE" [] (VarValue name arrow value))
| top_import_shape : forall v,
    top_shape (mkNode "IMPORT" [] (StrValue v))
| top_if_shape : forall condition statements,
    expression_shape condition ->
    Forall statement_shape statements ->
    top_shape
      (mkNode "IF" [condition; mkNode "BODY" statements NoValue] NoValue).

(** The lines [compile_file] prints for the imports of [ast]. *)
Definition import_lines (ast : list Node) : list printed :=
  flat_map (fun node =>
              if String.eqb (node_type node) "IMPORT"
              then [fstring "Importing: " (node_value node) ""]
              else [])
           ast.

(** *** Imports *)

(** A dot before each further part of the name of a module. *)
Definition more_parts (names : list string) : list token :=
  flat_map (fun n => [("DOT", "."); ("IDENTIFIER", n)]) names.

(** The parts of the name of a module, joined by dots as [parse_import]
    joins them. *)
Definition dotted (first : string) (names : list string) : string :=
  fold_left (fun acc n => (acc ++ "." ++ n)%string) names first.

(** The kind of the token at the head of [l] is not [kind]. *)
Definition head_is_not (kind : string) (l : list token) : Prop :=
  match l with
  | [] => True
  | t :: _ => String.eqb (fst t) kind = false
  end.

(** *** Batches *)

(** The paths [compile_files_in_directory] compiles, in order: for each
    directory of the walk, its files whose name ends in [.ms]. *)
Definition sources (join : string -> string -> string)
    (walk : list (string * list string)) : list string :=
  flat_map (fun entry =>
              map (join (fst entry))
                  (filter (fun file => endswith file ".ms") (snd entry)))
           walk.

(** What [compile_file] prints for the files of [paths], one after the
    other. *)
Definition outputs (read : string -> string) (paths : list string)
    : list printed :=
  flat_map (fun path => fst (compile_file (read path))) paths.

(** [compile_file] on each file of [paths] in turn, up to the first that
    does not finish. *)
Fixpoint compile_each (read : string -> string) (paths : list string)
    : trace :=
  match paths with
  | [] => ([], Finished)
  | path :: paths' =>
      and_then (compile_file (read path)) (compile_each read paths')
  end.

(** *** Token sequences put one after the other *)

(** [ext n m m']: a run of [m] that starts at index [n] or before and
    returns ends at index [n] or before, and [m'] returns the same. *)
Definition ext (n : nat) {A} (m m' : M A) : Prop :=
  forall i a j, i <= n -> m i = Return (a, j) ->
                j <= n /\ m' i = Return (a, j).

(** [ext_in n m m']: the same, with [m'] returning the same when the run
    ends before index [n]. *)
Definition ext_in (n : nat) {A} (m m' : M A) : Prop :=
  forall i a j, i <= n -> m i = Return (a, j) ->
                j <= n /\ (j < n -> m' i = Return (a, j)).

(** [strict n m]: [m] returns only when it starts before index [n]. *)
Definition strict (n : nat) {A} (m : M A) : Prop :=
  forall i a j, m i = Return (a, j) -> i < n.

(** The result of a run, with the cursor moved [n] tokens forward. *)
Definition lift (n : nat) {A} (r : outcome (A * nat)) : outcome (A * nat) :=
  match r with
  | Return (a, j) => Return (a, n + j)
  | Raise e => Raise e
  | OutOfFuel => OutOfFuel
  end.

(** [shifted n m m']: [m'] does at index [n + i] what [m] does at index
    [i]. *)
Definition shifted (n : nat) {A} (m m' : M A) : Prop :=
  forall i, m' (n + i) = lift n (m i).

(** The nodes of a run, after the nodes [ast]. *)
Definition after_nodes (ast : list Node) (r : outcome (list Node * nat))
    : outcome (list Node * nat) :=
  match r with
  | Return (ast', j) => Return (ast ++ ast', j)
  | Raise e => Raise e
  | OutOfFuel => OutOfFuel
  end.

(** What [parse] gives after the nodes [ast]. *)
Definition followed_by (ast : list Node) (r : outcome (list Node))
    : outcome (list Node) :=
  match r with
  | Return ast' => Return (ast ++ ast')
  | Raise e => Raise e
  | OutOfFuel => OutOfFuel
  end.

(** *** Lexemes that the kind of the token fixes *)

(** The kinds whose tokens all have the same lexeme, with this
    lexeme. *)
Definition fixed_lexemes : list (string * string) :=
  [("IF", "if"); ("NOT", "not"); ("BUT", "but"); ("YEET", "yeet");
   ("LPAREN", "("); ("RPAREN", ")"); ("LBRACE", "{"); ("RBRACE", "}");
   ("SEMICOLON", ";"); ("DOT", "."); ("ARROW", "->")].

(** What the kind of a token says of its lexeme. *)
Definition lexeme_fits (t : token) : Prop :=
  (forall word, In (fst t, word) fixed_lexemes -> snd t = word) /\
  (fst t = "ELSE" -> snd t = "but if" \/ snd t = "otherwise") /\
  (fst t = "BOOLEAN" -> snd t = "true" \/ snd t = "false") /\
  fst t <> "OTHERWISE".

(** The kinds of the tokens an item of the top level begins with. *)
Definition item_starts : list string :=
  ["FOLDER"; "CLASS"; "VARIABLE"; "FUNCTION"; "IF"; "COMMENT"; "IMPORT"].

(** *** Matches that follow one another *)

(** The token made of the match of the rule [kind] from [position] to
    [e]. *)
Definition token_of (text : string) (position e : nat) (kind : string)
    : token :=
  let value := substring position (e - position) text in
  (if String.eqb kind "IDENTIFIER" && existsb (String.eqb value) KEYWORDS
   then upper value else kind,
   value).

(** The matches the loop of [lexer] has made when the cursor is at a
    position, the comments among them. *)
Inductive cut (text : string) : nat -> list token -> Prop :=
| cut_start : cut text 0 []
| cut_next : forall position matches kind e,
    cut text position matches ->
    position < String.length text ->
    first_match TOKEN_TYPES text position = Some (kind, e) ->
    cut text e (matches ++ [token_of text position e kind]).

(** [meets text a b]: [a] and [b] are the tokens of two matches, and the
    match of [b] starts where the match of [a] ends. *)
Definition meets (text : string) (a b : token) : Prop :=
  exists p kind e kind' e',
    first_match TOKEN_TYPES text p = Some (kind, e) /\
    first_match TOKEN_TYPES text e = Some (kind', e') /\
    a = token_of text p e kind /\ b = token_of text e e' kind'.

(** [b] comes next after [a] in [l]. *)
Definition adjacent (a b : token) (l : list token) : Prop :=
  exists l1 l2, l = l1 ++ a :: b :: l2.

(** *** The rule the tokenizer accepts *)

(** [first_rule text position kind e]: the rule [kind] is the first rule
    of the table, in the order of the table, whose pattern matches at
    [position], and its match ends at [e]. *)
Definition first_rule (text : string) (position : nat) (kind : string)
    (e : nat) : Prop :=
  exists before pattern rest,
    splits_table before kind pattern rest /\
    Forall (fun rule => re_match (snd rule) text position = None) before /\
    re_match pattern text position = Some e.

(** No rule of the table matches at [position]. *)
Definition no_rule (text : string) (position : nat) : Prop :=
  Forall (fun rule => re_match (snd rule) text position = None)
         TOKEN_TYPES.

(** What tokenizing gives from the cursor [position] on, with the tokens
    appended so far, when the first rule that matches is accepted at
    every cursor position: the tokens once the cursor is at the end of
    the text, the lexical error of the first cursor position where no
    rule matches. *)
Inductive tokenizes (text : string)
    : nat -> list token -> outcome (list token) -> Prop :=
| tokenizes_end : forall position tokens,
    String.length text <= position ->
    tokenizes text position tokens (Return tokens)
| tokenizes_stuck : forall position tokens,
    position < String.length text ->
    no_rule text position ->
    tokenizes text position tokens (Raise (LexerError position))
| tokenizes_step : forall position tokens kind e result,
    position < String.length text ->
    first_rule text position kind e ->
    tokenizes text e (emit text position e kind tokens) result ->
    tokenizes text position tokens result.

(** A node that holds a logical value: the payload of a declaration
    whose value is a [bool], in the node itself or in a node below
    it. *)
Inductive holds_logical : Node -> Prop :=
| logical_here : forall type children name arrow b,
    holds_logical (mkNode type children (VarValue name arrow (VBool b)))
| logical_below : forall type children value n,
    In n children -> holds_logical n ->
    holds_logical (mkNode type children value).

End Notions.

(* ================================================================= *)
(** ** Sample texts and token sequences *)

Module Samples.

Definition nl : string := String (ascii_of_nat 10) EmptyString.

(** [quoted s] is [s] between two double quotes. *)
Definition quoted (s : string) : string :=
  String dquote s ++ String dquote EmptyString.

(** The declaration of [x] with the string [a] as its value. *)
Definition decl : string := "variable x = " ++ quoted "a".

(** The declaration, [;], a blank, the comment [// note] and a line
    feed. *)
Definition decl_with_comment : string := decl ++ "; // note" ++ nl.

(** The same text with the comment taken out. *)
Definition decl_without_comment : string := decl ++ "; " ++ nl.

(** The same two texts with no blank and no line feed after [;]. *)
Definition dense_with_comment : string := decl ++ ";// note".
Definition dense_without_comment : string := decl ++ ";".

(** [say("hi"; "there")], and the same with no blank after [;]. *)
Definition say_call : string :=
  "say(" ++ quoted "hi" ++ "; " ++ quoted "there" ++ ")".
Definition dense_say_call : string :=
  "say(" ++ quoted "hi" ++ ";" ++ quoted "there" ++ ")".

(** [if"c"{say()}]: a body whose statement begins with an identifier. *)
Definition call_in_body : string := "if" ++ quoted "c" ++ "{say()}".

(** [if"c"{variable x = "a";}] *)
Definition declaration_in_body : string :=
  "if" ++ quoted "c" ++ "{" ++ decl ++ ";}".

(** The tokens the parser expects for a declaration of [name] with the
    string [value], and the declaration as a statement of a body. *)
Definition declaration_tokens (name value : string) : list token :=
  [("VARIABLE", "variable"); ("IDENTIFIER", name); ("EQUALS", "=");
   ("STRING", value)].

Definition assignment_in_body (name value : string) : list token :=
  [("IF", "if"); ("STRING", "c"); ("LBRACE", "{");
   ("IDENTIFIER", name); ("EQUALS", "="); ("STRING", value);
   ("SEMICOLON", ";"); ("RBRACE", "}")].

(** The tokens an expression is made of, and the node of one. *)
Definition is_expression_token (t : token) : bool :=
  String.eqb (fst t) "IDENTIFIER" || String.eqb (fst t) "STRING".

Definition expression_node (t : token) : Node :=
  mkNode (fst t) [] (StrValue (snd t)).

(** A semicolon before each further argument of a call. *)
Definition more_arguments (args : list token) : list token :=
  flat_map (fun a => [("SEMICOLON", ";"); a]) args.

(** The tokens of a call of [name] with the arguments [args]. *)
Definition call_with (name : string) (args : list token) : list token :=
  [("IDENTIFIER", name); ("LPAREN", "(")]
  ++ match args with
     | [] => []
     | a :: rest => a :: more_arguments rest
     end
  ++ [("RPAREN", ")")].

(** The tokens of [say("hi";"there")]. *)
Definition say_tokens : list token :=
  call_with "say" [("STRING", quoted "hi"); ("STRING", quoted "there")].

(** The tokens the parser expects for a declaration of [name], with or
    without an annotation, whose value is a BOOLEAN token. *)
Definition boolean_declaration (name : string) (annotation : option string)
    (lexeme : string) (rest : list token) : list token :=
  [("VARIABLE", "variable"); ("IDENTIFIER", name)]
  ++ match annotation with
     | Some type => [("ARROW", "->"); ("IDENTIFIER", type)]
     | None => []
     end
  ++ [("EQUALS", "="); ("BOOLEAN", lexeme)] ++ rest.

(** A directory [d] with four files, of which [b.ms] holds a character
    that no rule matches and the others are empty. *)
Definition sample_join (root file : string) : string :=
  root ++ "/" ++ file.
Definition sample_read (path : string) : string :=
  if String.eqb path "d/b.ms" then "@" else "".
Definition sample_walk : list (string * list string) :=
  [("d", ["a.ms"; "notes.txt"; "b.ms"; "c.ms"])].

(** [if"c"{yeet"boom";}]: a program without a comment, its tokens and
    its nodes. *)
Definition plain_program : string :=
  "if" ++ quoted "c" ++ "{yeet" ++ quoted "boom" ++ ";}".
Definition plain_tokens : list token :=
  [("IF", "if"); ("STRING", quoted "c"); ("LBRACE", "{");
   ("YEET", "yeet"); ("STRING", quoted "boom"); ("SEMICOLON", ";");
   ("RBRACE", "}")].
Definition plain_nodes : list Node :=
  [mkNode "IF"
     [mkNode "STRING" [] (StrValue (quoted "c"));
      mkNode "BODY" [mkNode "YEET" [] (StrValue (quoted "boom"))] NoValue]
     NoValue].

End Samples.

Import Notions Samples.

(* ================================================================= *)
(** ** The grammar of the parser *)

Module Grammar.

(** The tokens of the further parts of a dotted name: a DOT token and an
    IDENTIFIER token for each part; a part is given by the lexemes of
    the two. *)
Definition parts_tokens (parts : list (string * string)) : list token :=
  flat_map (fun part => [("DOT", fst part); ("IDENTIFIER", snd part)])
           parts.

(** The tokens of the annotation of a declaration, if any: an ARROW
    token and an IDENTIFIER token. *)
Definition annotation_tokens (annotation : option (string * string))
    : list token :=
  match annotation with
  | Some a => [("ARROW", fst a); ("IDENTIFIER", snd a)]
  | None => []
  end.

(** The statements of a body, token sequence and node: a yeet
    statement, an import, and an if statement with its body. *)
Inductive statement_of : list token -> Node -> Prop :=
| yeet_statement : forall y s sc,
    statement_of [("YEET", y); ("STRING", s); ("SEMICOLON", sc)]
                 (mkNode "YEET" [] (StrValue s))
| import_statement : forall l first parts sc,
    statement_of
      (("IMPORT", l) :: ("IDENTIFIER", first)
       :: parts_tokens parts ++ [("SEMICOLON", sc)])
      (mkNode "IMPORT" [] (StrValue (dotted first (map snd parts))))
| if_statement : forall l c lb body rb nodes,
    is_expression_token c = true ->
    statements_of body nodes ->
    statement_of
      (("IF", l) :: c :: ("LBRACE", lb) :: body ++ [("RBRACE", rb)])
      (mkNode "IF" [expression_node c; mkNode "BODY" nodes NoValue]
              NoValue)
with statements_of : list token -> list Node -> Prop :=
| no_statement : statements_of [] []
| more_statements : forall ts n ts' ns,
    statement_of ts n -> statements_of ts' ns ->
    statements_of (ts ++ ts') (n :: ns).

(** The items of the top level, token sequence and nodes. *)
Inductive items_of : list token -> list Node -> Prop :=
| no_item : items_of [] []
| folder_item : forall l ts ns,
    items_of ts ns -> items_of (("FOLDER", l) :: ts) ns
| comment_item : forall l ts ns,
    items_of ts ns -> items_of (("COMMENT", l) :: ts) ns
| class_item : forall l name ts ns,
    items_of ts ns ->
    items_of (("CLASS", l) :: ("IDENTIFIER", name) :: ts)
             (mkNode "CLASS" [] (StrValue name) :: ns)
| function_item : forall l name ts ns,
    items_of ts ns ->
    items_of (("FUNCTION", l) :: ("IDENTIFIER", name) :: ts)
             (mkNode "FUNCTION" [] (StrValue name) :: ns)
| variable_item : forall l name annotation e value ts ns,
    is_expression_token value = true ->
    items_of ts ns ->
    items_of
      (("VARIABLE", l) :: ("IDENTIFIER", name)
       :: annotation_tokens annotation ++ ("EQUALS", e) :: value :: ts)
      (mkNode "VARIABLE" []
         (VarValue name (option_map snd annotation) (VStr (snd value)))
       :: ns)
| statement_item : forall ts n ts' ns,
    statement_of ts n -> node_type n <> "YEET" ->
    items_of ts' ns ->
    items_of (ts ++ ts') (n :: ns).

Scheme statement_of_ind2 := Minimality for statement_of Sort Prop
  with statements_of_ind2 := Minimality for statements_of Sort Prop.
Combined Scheme statement_mutual_ind
  from statement_of_ind2, statements_of_ind2.

(** [reads tokens R m]: when [m] returns, it has gone over the tokens
    [ts], the tokens [rest] are left after them, and [R ts rest] holds
    of what it returns. *)
Definition reads (tokens : list token) {A}
    (R : list token -> list token -> A -> Prop) (m : M A) : Prop :=
  forall i a j, m i = Return (a, j) ->
    exists ts rest,
      skipn i tokens = ts ++ rest /\ j = i + length ts /\ R ts rest a.

(** The statements that need no comment in the text: a yeet statement,
    and an if statement with a string as its condition and such
    statements in its body. *)
Inductive plain_statement : Node -> Prop :=
| plain_yeet : forall s, plain_statement (mkNode "YEET" [] (StrValue s))
| plain_if : forall s nodes,
    Forall plain_statement nodes ->
    plain_statement
      (mkNode "IF"
         [mkNode "STRING" [] (StrValue s); mkNode "BODY" nodes NoValue]
         NoValue).

End Grammar.

Import Grammar.

(* ================================================================= *)
(** ** Facts about the matcher *)

Module ReFacts.

Lemma get_some_lt : forall text pos c,
    String.get pos text = Some c -> pos < String.length text.
Proof.
  induction text as [|d text IH]; intros [|pos] c H; simpl in *;
    try discriminate; try lia.
  apply IH in H. lia.
Qed.

Lemma get_lt_some : forall text pos,
    pos < String.length text -> exists c, String.get pos text = Some c.
Proof.
  induction text as [|d text IH]; intros [|pos] H; simpl in *;
    try lia; eauto.
  apply IH. lia.
Qed.

Section Iter.
Variable text : string.
Variable step : nat -> list nat.
Variable fst : ascii -> bool.
Hypothesis step_shaped :
  forall nul pos e, In e (step pos) ->
    pos < e -> shaped text nul fst pos e.

Lemma in_body : forall (iter : nat -> list nat) pos e,
    In e (flat_map (fun x => if pos <? x then iter x else [])
                   (step pos)) ->
    exists m, In m (step pos) /\ pos < m /\ In e (iter m).
Proof.
  intros iter pos e H. apply in_flat_map in H.
  destruct H as [m [Hm He]]. simpl in He.
  destruct (pos <? m) eqn:E; [|contradiction].
  apply Nat.ltb_lt in E. eauto.
Qed.

Lemma iter_shaped_step : forall (iter : nat -> list nat) pos e,
    (forall m x, In x (iter m) -> shaped text true fst m x) ->
    In e (flat_map (fun x => if pos <? x then iter x else [])
                   (step pos)) ->
    shaped text true fst pos e.
Proof.
  intros iter pos e IH H.
  apply in_body in H. destruct H as [m [Hm [Hlt He]]].
  destruct (step_shaped true pos m Hm Hlt) as [_ [_ Hm3]].
  destruct (Hm3 Hlt) as [Hlen Hc].
  destruct (IH m e He) as [H1 [_ H3]].
  split; [lia|]. split; [reflexivity|].
  intros _. split; [|exact Hc].
  destruct (Nat.eq_dec m e) as [->|Hne]; [exact Hlen|].
  apply H3. lia.
Qed.

Lemma shaped_refl : forall pos, shaped text true fst pos pos.
Proof. intros pos. split; [lia|]. split; [reflexivity|]. lia. Qed.

Lemma star_iter_shaped : forall fuel pos e,
    In e (star_iter step fuel pos) -> shaped text true fst pos e.
Proof.
  induction fuel as [|fuel IH]; intros pos e H; simpl in H.
  - destruct H as [<-|[]]. apply shaped_refl.
  - apply in_app_or in H. destruct H as [H|[<-|[]]].
    + eapply iter_shaped_step; eauto.
    + apply shaped_refl.
Qed.

Lemma lazy_iter_shaped : forall fuel pos e,
    In e (lazy_iter step fuel pos) -> shaped text true fst pos e.
Proof.
  induction fuel as [|fuel IH]; intros pos e H; simpl in H.
  - destruct H as [<-|[]]. apply shaped_refl.
  - destruct H as [<-|H].
    + apply shaped_refl.
    + eapply iter_shaped_step; eauto.
Qed.
End Iter.

Lemma shaped_weaken : forall text nul nul' fst pos e,
    pos < e -> shaped text nul fst pos e -> shaped text nul' fst pos e.
Proof.
  intros text nul nul' fst pos e Hlt [H1 [_ H3]].
  split; [exact H1|]. split; [lia|exact H3].
Qed.

(** Every match of [r] is shaped by [nullable r] and [first r]. *)
Lemma rmatch_shaped : forall text r pos e,
    In e (rmatch text r pos) ->
    shaped text (nullable r) (first r) pos e.
Proof.
  intros text r. induction r as
    [|c|p| |a IHa b IHb|a IHa b IHb|a IHa|a IHa|a IHa|a IHa];
    intros pos e H; simpl in H.
  - destruct H as [<-|[]]. split; [lia|]. split; [reflexivity|lia].
  - destruct (String.get pos text) as [d|] eqn:G; [|contradiction].
    destruct (Ascii.eqb d c) eqn:E; [|contradiction].
    destruct H as [<-|[]]. split; [lia|]. split; [lia|]. intros _.
    split; [apply get_some_lt in G; lia|]. exists d. simpl. auto.
  - destruct (String.get pos text) as [d|] eqn:G; [|contradiction].
    destruct (p d) eqn:E; [|contradiction].
    destruct H as [<-|[]]. split; [lia|]. split; [lia|]. intros _.
    split; [apply get_some_lt in G; lia|]. exists d. simpl. auto.
  - destruct (at_boundary text pos); [|contradiction].
    destruct H as [<-|[]]. split; [lia|]. split; [reflexivity|lia].
  - apply in_flat_map in H. destruct H as [m [Hm He]].
    destruct (IHa _ _ Hm) as [A1 [A2 A3]].
    destruct (IHb _ _ He) as [B1 [B2 B3]].
    split; [lia|]. split.
    + intros ->. assert (m = pos) by lia. subst m. simpl.
      rewrite A2, B2; auto.
    + intros Hlt. simpl. destruct (Nat.eq_dec m pos) as [->|Hne].
      * destruct (B3 Hlt) as [Hlen [c [G F]]]. split; [exact Hlen|].
        exists c. split; [exact G|]. rewrite (A2 eq_refl), F.
        apply orb_true_r.
      * assert (Hpm : pos < m) by lia.
        destruct (A3 Hpm) as [Hlen [c [G F]]]. split.
        -- destruct (Nat.eq_dec m e) as [->|Hme]; [exact Hlen|].
           apply B3. lia.
        -- exists c. split; [exact G|]. rewrite F. reflexivity.
  - apply in_app_or in H. destruct H as [H|H].
    + destruct (IHa _ _ H) as [A1 [A2 A3]]. split; [lia|]. split.
      * intros E. simpl. rewrite (A2 E). reflexivity.
      * intros Hlt. destruct (A3 Hlt) as [Hlen [c [G F]]].
        split; [exact Hlen|]. exists c. simpl. rewrite F. auto.
    + destruct (IHb _ _ H) as [B1 [B2 B3]]. split; [lia|]. split.
      * intros E. simpl. rewrite (B2 E). apply orb_true_r.
      * intros Hlt. destruct (B3 Hlt) as [Hlen [c [G F]]].
        split; [exact Hlen|]. exists c. simpl. rewrite F.
        split; [exact G|apply orb_true_r].
  - apply in_app_or in H. destruct H as [H|[<-|[]]].
    + destruct (IHa _ _ H) as [A1 [A2 A3]]. split; [lia|].
      split; [reflexivity|exact A3].
    + split; [lia|]. split; [reflexivity|lia].
  - simpl. eapply star_iter_shaped; [|exact H].
    intros nul p' e' Hin Hlt. eapply shaped_weaken; eauto.
  - apply in_flat_map in H. destruct H as [m [Hm He]].
    destruct (IHa _ _ Hm) as [A1 [A2 A3]].
    assert (S : shaped text true (first a) m e).
    { eapply star_iter_shaped; [|exact He].
      intros nul p' e' Hin Hlt. eapply shaped_weaken; eauto. }
    destruct S as [B1 [_ B3]].
    split; [lia|]. split.
    + intros ->. assert (m = pos) by lia. subst m. simpl. auto.
    + intros Hlt. simpl. destruct (Nat.eq_dec m pos) as [->|Hne].
      * exact (B3 Hlt).
      * assert (Hpm : pos < m) by lia.
        destruct (A3 Hpm) as [Hlen Hc]. split; [|exact Hc].
        destruct (Nat.eq_dec m e) as [->|Hme]; [exact Hlen|].
        apply B3. lia.
  - simpl. eapply lazy_iter_shaped; [|exact H].
    intros nul p' e' Hin Hlt. eapply shaped_weaken; eauto.
Qed.

Lemma re_match_shaped : forall text r pos e,
    re_match r text pos = Some e ->
    shaped text (nullable r) (first r) pos e.
Proof.
  intros text r pos e H. apply rmatch_shaped.
  unfold re_match in H. destruct (rmatch text r pos); simpl in H;
    [discriminate|]. injection H as ->. left. reflexivity.
Qed.

(** The rounds given to a repetition are never used up: from [pos], a
    repetition whose rounds advance inside the text makes at most
    [length text - pos] rounds, and more fuel changes nothing. *)
Section Rounds.
Variable text : string.
Variable step : nat -> list nat.
Hypothesis step_inside :
  forall pos e, In e (step pos) -> pos < e -> e <= String.length text.

Lemma rounds_stop : forall (iter : nat -> list nat) pos,
    String.length text <= pos ->
    flat_map (fun e => if pos <? e then iter e else []) (step pos) = [].
Proof.
  intros iter pos H.
  assert (G : forall e, In e (step pos) -> (pos <? e) = false).
  { intros e He. destruct (pos <? e) eqn:E; [|reflexivity].
    apply Nat.ltb_lt in E. pose proof (step_inside pos e He E). lia. }
  induction (step pos) as [|e l IH]; [reflexivity|]. simpl.
  rewrite (G e) by (left; reflexivity). simpl.
  apply IH. intros x Hx. apply G. right. exact Hx.
Qed.

Lemma flat_map_agree : forall (f g : nat -> list nat) l,
    (forall e, In e l -> f e = g e) -> flat_map f l = flat_map g l.
Proof.
  intros f g l. induction l as [|e l IH]; intros H; [reflexivity|].
  simpl. rewrite (H e) by (left; reflexivity). f_equal.
  apply IH. intros x Hx. apply H. right. exact Hx.
Qed.

Lemma star_iter_enough : forall fuel extra pos,
    String.length text - pos <= fuel ->
    star_iter step (fuel + extra) pos = star_iter step fuel pos.
Proof.
  induction fuel as [|fuel IH]; intros extra pos H.
  - destruct extra as [|extra]; [reflexivity|]. simpl.
    rewrite rounds_stop by lia. reflexivity.
  - simpl. f_equal. apply flat_map_agree. intros e He.
    destruct (pos <? e) eqn:E; [|reflexivity].
    apply Nat.ltb_lt in E. apply IH. lia.
Qed.

Lemma lazy_iter_enough : forall fuel extra pos,
    String.length text - pos <= fuel ->
    lazy_iter step (fuel + extra) pos = lazy_iter step fuel pos.
Proof.
  induction fuel as [|fuel IH]; intros extra pos H.
  - destruct extra as [|extra]; [reflexivity|]. simpl.
    rewrite rounds_stop by lia. reflexivity.
  - simpl. f_equal. apply flat_map_agree. intros e He.
    destruct (pos <? e) eqn:E; [|reflexivity].
    apply Nat.ltb_lt in E. apply IH. lia.
Qed.
End Rounds.

Lemma rmatch_inside : forall text r pos e,
    In e (rmatch text r pos) -> pos < e -> e <= String.length text.
Proof.
  intros text r pos e H L.
  destruct (rmatch_shaped _ _ _ _ H) as [_ [_ H3]].
  destruct (H3 L) as [Hlen _]. exact Hlen.
Qed.

(** For a body [a], the repetition in [rmatch] would list the same ends
    on any larger number of rounds. *)
Lemma star_rounds_enough : forall text a extra pos,
    star_iter (rmatch text a) (String.length text + extra) pos =
    rmatch text (Star a) pos.
Proof.
  intros text a extra pos. simpl.
  apply (star_iter_enough text); [apply rmatch_inside|lia].
Qed.

Lemma lazy_rounds_enough : forall text a extra pos,
    lazy_iter (rmatch text a) (String.length text + extra) pos =
    rmatch text (LazyStar a) pos.
Proof.
  intros text a extra pos. simpl.
  apply (lazy_iter_enough text); [apply rmatch_inside|lia].
Qed.

End ReFacts.

(* ================================================================= *)
(** ** Facts about the tokenizer *)

Module LexerFacts.
Import ReFacts.

(** No rule of [TOKEN_TYPES] matches the empty string. *)
Lemma rules_consume :
  forallb (fun rule => negb (nullable (snd rule))) TOKEN_TYPES = true.
Proof. reflexivity. Qed.

Lemma first_match_in : forall rules text pos kind e,
    first_match rules text pos = Some (kind, e) ->
    exists pattern, In (kind, pattern) rules /\
                    re_match pattern text pos = Some e.
Proof.
  induction rules as [|[k r] rules IH]; intros text pos kind e H;
    simpl in H; [discriminate|].
  destruct (re_match r text pos) as [e'|] eqn:E.
  - injection H as -> ->. exists r. split; [left; reflexivity|exact E].
  - destruct (IH _ _ _ _ H) as [p [Hin Hm]]. exists p.
    split; [right; exact Hin|exact Hm].
Qed.

(** A match of a rule advances the cursor and stays inside the text. *)
Lemma first_match_advances : forall text pos kind e,
    first_match TOKEN_TYPES text pos = Some (kind, e) ->
    pos < e <= String.length text.
Proof.
  intros text pos kind e H.
  destruct (first_match_in _ _ _ _ _ H) as [pattern [Hin Hm]].
  pose proof rules_consume as Hc. rewrite forallb_forall in Hc.
  specialize (Hc _ Hin). simpl in Hc. apply negb_true_iff in Hc.
  destruct (re_match_shaped _ _ _ _ Hm) as [H1 [H2 H3]].
  destruct (Nat.eq_dec e pos) as [->|Hne].
  - rewrite H2 in Hc by reflexivity. discriminate.
  - assert (Hlt : pos < e) by lia. destruct (H3 Hlt). lia.
Qed.

(** No rule matches at a character that none of them can begin with. *)
Lemma first_match_none : forall text pos c,
    String.get pos text = Some c ->
    forallb (fun rule => negb (first (snd rule) c)) TOKEN_TYPES = true ->
    first_match TOKEN_TYPES text pos = None.
Proof.
  intros text pos c G F.
  destruct (first_match TOKEN_TYPES text pos) as [[kind e]|] eqn:E;
    [|reflexivity].
  exfalso.
  destruct (first_match_advances _ _ _ _ E) as [Hlt _].
  destruct (first_match_in _ _ _ _ _ E) as [pattern [Hin Hm]].
  rewrite forallb_forall in F. specialize (F _ Hin). simpl in F.
  destruct (re_match_shaped _ _ _ _ Hm) as [_ [_ H3]].
  destruct (H3 Hlt) as [_ [c' [G' F']]].
  rewrite G in G'. injection G' as <-. rewrite F' in F. discriminate.
Qed.

(** No rule begins with a whitespace character. *)
Lemma no_rule_at_space : forall c,
    is_space c = true ->
    forallb (fun rule => negb (first (snd rule) c)) TOKEN_TYPES = true.
Proof.
  intros [b0 b1 b2 b3 b4 b5 b6 b7].
  destruct b0, b1, b2, b3, b4, b5, b6, b7;
    vm_compute; intros H; solve [reflexivity | discriminate H].
Qed.

Lemma lexer_loop_unfold : forall fuel text position tokens,
    lexer_loop (S fuel) text position tokens =
    if position <? String.length text then
      match first_match TOKEN_TYPES text position with
      | None => Raise (LexerError position)
      | Some (token_type, e) =>
          lexer_loop fuel text e
            (emit text position e token_type tokens)
      end
    else Return tokens.
Proof. reflexivity. Qed.

(** With more fuel than characters left, the loop does not run out. *)
Lemma lexer_loop_fuel : forall fuel text position tokens,
    String.length text - position < fuel ->
    lexer_loop fuel text position tokens <> OutOfFuel.
Proof.
  induction fuel as [|fuel IH]; intros text position tokens H; [lia|].
  rewrite lexer_loop_unfold.
  destruct (position <? String.length text) eqn:L; [|discriminate].
  apply Nat.ltb_lt in L.
  destruct (first_match TOKEN_TYPES text position) as [[kind e]|] eqn:E;
    [|discriminate].
  apply IH. apply first_match_advances in E. lia.
Qed.

(** A run that ends does not depend on the fuel it was given. *)
Lemma lexer_loop_more_fuel : forall fuel text position tokens fuel',
    lexer_loop fuel text position tokens <> OutOfFuel ->
    fuel <= fuel' ->
    lexer_loop fuel' text position tokens =
    lexer_loop fuel text position tokens.
Proof.
  induction fuel as [|fuel IH]; intros text position tokens fuel' H Hle.
  - exfalso. apply H. reflexivity.
  - destruct fuel' as [|fuel']; [lia|].
    rewrite !lexer_loop_unfold in *.
    destruct (position <? String.length text); [|reflexivity].
    destruct (first_match TOKEN_TYPES text position) as [[kind e]|];
      [|reflexivity].
    apply IH; [exact H|lia].
Qed.

Lemma lexer_loop_agree : forall text position tokens f1 f2,
    lexer_loop f1 text position tokens <> OutOfFuel ->
    lexer_loop f2 text position tokens <> OutOfFuel ->
    lexer_loop f1 text position tokens =
    lexer_loop f2 text position tokens.
Proof.
  intros text position tokens f1 f2 H1 H2.
  destruct (Nat.le_ge_cases f1 f2) as [L|L].
  - symmetry. apply lexer_loop_more_fuel; assumption.
  - apply lexer_loop_more_fuel; assumption.
Qed.

(** [lexer] always returns or raises. *)
Lemma lexer_terminates : forall text, lexer text <> OutOfFuel.
Proof. intros text. apply lexer_loop_fuel. lia. Qed.

(** From any position the loop goes through, the rest of the run decides
    the result of [lexer]. *)
Lemma scan_lexer : forall text position tokens,
    scan text position tokens ->
    forall fuel,
      lexer_loop fuel text position tokens <> OutOfFuel ->
      lexer text = lexer_loop fuel text position tokens.
Proof.
  intros text position tokens H.
  induction H as [|position tokens kind e H IH Hlt Hm]; intros fuel Hf.
  - apply lexer_loop_agree; [apply lexer_terminates|exact Hf].
  - rewrite (IH (S fuel)).
    + rewrite lexer_loop_unfold.
      apply Nat.ltb_lt in Hlt. rewrite Hlt, Hm. reflexivity.
    + rewrite lexer_loop_unfold.
      apply Nat.ltb_lt in Hlt. rewrite Hlt, Hm. exact Hf.
Qed.

Lemma scan_bound : forall text position tokens,
    scan text position tokens -> position <= String.length text.
Proof.
  intros text position tokens H. destruct H; [lia|].
  match goal with H : first_match _ _ _ = _ |- _ =>
    apply first_match_advances in H end. lia.
Qed.

(** The tokens [lexer] returns are those of a scan of the whole text. *)
Lemma loop_return_scan : forall fuel text position tokens result,
    scan text position tokens ->
    lexer_loop fuel text position tokens = Return result ->
    scan text (String.length text) result.
Proof.
  induction fuel as [|fuel IH]; intros text position tokens result Hs H;
    [discriminate|].
  rewrite lexer_loop_unfold in H.
  destruct (position <? String.length text) eqn:L.
  - apply Nat.ltb_lt in L.
    destruct (first_match TOKEN_TYPES text position) as [[kind e]|] eqn:E;
      [|discriminate].
    eapply IH; [|exact H]. econstructor; eassumption.
  - injection H as <-. apply Nat.ltb_ge in L.
    pose proof (scan_bound _ _ _ Hs).
    replace (String.length text) with position by lia. exact Hs.
Qed.

Lemma lexer_return_scan : forall text tokens,
    lexer text = Return tokens -> scan text (String.length text) tokens.
Proof.
  intros text tokens H. eapply loop_return_scan; [|exact H]. constructor.
Qed.

(** The loop fails at the first position where no rule matches. *)
Lemma scan_stuck : forall text position tokens,
    scan text position tokens ->
    position < String.length text ->
    first_match TOKEN_TYPES text position = None ->
    lexer text = Raise (LexerError position).
Proof.
  intros text position tokens Hs Hlt Hm.
  rewrite (scan_lexer _ _ _ Hs 1).
  - rewrite lexer_loop_unfold. apply Nat.ltb_lt in Hlt.
    rewrite Hlt, Hm. reflexivity.
  - rewrite lexer_loop_unfold. apply Nat.ltb_lt in Hlt.
    rewrite Hlt, Hm. discriminate.
Qed.

(** No token of kind COMMENT is ever appended. *)
Lemma emit_no_comment : forall text position e kind tokens,
    Forall (fun t => fst t <> "COMMENT") tokens ->
    Forall (fun t => fst t <> "COMMENT")
           (emit text position e kind tokens).
Proof.
  intros text position e kind tokens H. unfold emit.
  match goal with |- context [negb (String.eqb ?k "COMMENT")] =>
    destruct (String.eqb k "COMMENT") eqn:E end; simpl; [exact H|].
  apply Forall_app. split; [exact H|]. constructor; [|constructor].
  simpl. apply String.eqb_neq. exact E.
Qed.

Lemma scan_no_comment : forall text position tokens,
    scan text position tokens ->
    Forall (fun t => fst t <> "COMMENT") tokens.
Proof.
  intros text position tokens H. induction H; [constructor|].
  apply emit_no_comment. assumption.
Qed.

End LexerFacts.

(* ================================================================= *)
(** ** Facts about the parser *)

Module ParserFacts.

(** *** Three properties of parsing functions, and how [bind] keeps them *)

Lemma bind_return : forall A B (m : M A) (k : A -> M B) i b j,
    bind m k i = Return (b, j) ->
    exists a i', m i = Return (a, i') /\ k a i' = Return (b, j).
Proof.
  intros A B m k i b j H. unfold bind in H.
  destruct (m i) as [[a i']| |]; try discriminate. eauto.
Qed.

Lemma fin_bind : forall A B (m : M A) (k : A -> M B),
    fin m -> (forall a, fin (k a)) -> fin (bind m k).
Proof.
  intros A B m k Hm Hk i. unfold bind.
  specialize (Hm i). destruct (m i) as [[a i']| |].
  - apply Hk.
  - discriminate.
  - congruence.
Qed.

Lemma bind_safe_at : forall A B (m : M A) (k : A -> M B) i,
    m i <> OutOfFuel ->
    (forall a j, m i = Return (a, j) -> k a j <> OutOfFuel) ->
    bind m k i <> OutOfFuel.
Proof.
  intros A B m k i Hm Hk. unfold bind.
  destruct (m i) as [[a i']| |].
  - apply Hk. reflexivity.
  - discriminate.
  - congruence.
Qed.

Lemma adv_bind : forall A B (m : M A) (k : A -> M B) k1 k2,
    adv k1 m -> (forall a, adv k2 (k a)) -> adv (k1 + k2) (bind m k).
Proof.
  intros A B m k k1 k2 Hm Hk i b j H.
  apply bind_return in H. destruct H as [a [i' [H1 H2]]].
  apply Hm in H1. apply Hk in H2. lia.
Qed.

Lemma adv_le : forall A (m : M A) k k',
    adv k m -> k' <= k -> adv k' m.
Proof. intros A m k k' H L i a j E. apply H in E. lia. Qed.

Lemma adv0_bind : forall A B (m : M A) (k : A -> M B),
    adv 0 m -> (forall a, adv 0 (k a)) -> adv 0 (bind m k).
Proof. intros. apply (adv_bind _ _ m k 0 0); assumption. Qed.

Lemma adv1_bind : forall A B (m : M A) (k : A -> M B),
    adv 1 m -> (forall a, adv 0 (k a)) -> adv 1 (bind m k).
Proof. intros. apply (adv_bind _ _ m k 1 0); assumption. Qed.

Lemma adv1_bind_r : forall A B (m : M A) (k : A -> M B),
    adv 0 m -> (forall a, adv 1 (k a)) -> adv 1 (bind m k).
Proof. intros. apply (adv_bind _ _ m k 0 1); assumption. Qed.

Lemma below_refl : forall A (m : M A), below m m.
Proof. intros A m i _. reflexivity. Qed.

Lemma below_bind : forall A B (m m' : M A) (k k' : A -> M B),
    below m m' -> (forall a, below (k a) (k' a)) ->
    below (bind m k) (bind m' k').
Proof.
  intros A B m m' k k' Hm Hk i H. unfold bind in *.
  destruct (m i) as [[a i']| |] eqn:E.
  - rewrite (Hm i) by congruence. rewrite E. apply Hk. exact H.
  - rewrite (Hm i) by congruence. rewrite E. reflexivity.
  - congruence.
Qed.

Lemma fin_ret : forall A (a : A), fin (ret a).
Proof. intros A a i. discriminate. Qed.
Lemma fin_raise : forall A e, fin (@raise A e).
Proof. intros A e i. discriminate. Qed.
Lemma adv_ret : forall A (a : A), adv 0 (ret a).
Proof. intros A a i b j H. injection H as _ <-. lia. Qed.
Lemma adv_raise : forall A e k, adv k (@raise A e).
Proof. intros A e k i a j H. discriminate. Qed.
Lemma adv_out_of_fuel : forall A k, adv k (@out_of_fuel A).
Proof. intros A k i a j H. discriminate. Qed.

Section WithTokens.
Variable tokens : list token.

Lemma fin_peek : fin (peek tokens).
Proof. intros i. discriminate. Qed.
Lemma adv_peek : adv 0 (peek tokens).
Proof. intros i a j H. injection H as _ <-. lia. Qed.

Lemma fin_call_peek : forall args, fin (call_peek tokens args).
Proof. intros [|x args] i; discriminate. Qed.
Lemma adv_call_peek : forall args, adv 0 (call_peek tokens args).
Proof.
  intros [|x args]; [apply adv_peek|apply adv_raise].
Qed.

Lemma fin_item0 : forall t, fin (item0 t).
Proof. intros [t|] i; discriminate. Qed.
Lemma adv_item0 : forall t, adv 0 (item0 t).
Proof. intros [t|]; [apply adv_ret|apply adv_raise]. Qed.

Lemma consume_return : forall token_type i tok j,
    consume tokens token_type i = Return (tok, j) ->
    nth_error tokens i = Some tok /\ fst tok = token_type /\ j = S i.
Proof.
  intros token_type i tok j H. unfold consume, bind, peek in H.
  destruct (nth_error tokens i) as [t|]; [|discriminate].
  destruct (String.eqb (fst t) token_type) eqn:E; [|discriminate].
  injection H as -> <-. apply String.eqb_eq in E. auto.
Qed.

Lemma fin_consume : forall token_type, fin (consume tokens token_type).
Proof.
  intros token_type i. unfold consume, bind, peek.
  destruct (nth_error tokens i) as [t|]; [|discriminate].
  destruct (String.eqb (fst t) token_type); discriminate.
Qed.

Lemma adv_consume : forall token_type,
    adv 1 (consume tokens token_type).
Proof.
  intros token_type i tok j H. apply consume_return in H. lia.
Qed.

Lemma adv0_consume : forall token_type,
    adv 0 (consume tokens token_type).
Proof.
  intros. eapply adv_le; [apply adv_consume|lia].
Qed.

End WithTokens.

Create HintDb fin.
Create HintDb adv0.

#[export] Hint Resolve fin_ret fin_raise fin_peek fin_call_peek fin_item0
  fin_consume : fin.
#[export] Hint Resolve adv_ret adv_raise adv_out_of_fuel adv_peek
  adv_call_peek adv_item0 adv0_consume : adv0.

(** Split a goal about a parsing function along its [bind]s, tests and
    matches. *)
Ltac split_fin :=
  repeat first
    [ progress auto with fin
    | apply fin_bind; [|intro]
    | match goal with
      | |- fin (if ?b then _ else _) => destruct b
      | |- fin (match ?x with _ => _ end) => destruct x
      end ].

Ltac split_adv0 :=
  repeat first
    [ progress auto with adv0
    | apply adv0_bind; [|intro]
    | match goal with
      | |- adv 0 (if ?b then _ else _) => destruct b
      | |- adv 0 (match ?x with _ => _ end) => destruct x
      end ].

Ltac split_below :=
  repeat first
    [ apply below_refl
    | assumption
    | apply below_bind; [|intro]
    | match goal with
      | |- below (if ?b then _ else _) (if ?b then _ else _) => destruct b
      | |- below (match ?x with _ => _ end) (match ?x with _ => _ end) =>
          destruct x
      end ].

Section Simple.
Variable tokens : list token.

Lemma fin_parse_folder : fin (parse_folder tokens).
Proof. unfold parse_folder. split_fin. Qed.
Lemma fin_parse_class : fin (parse_class tokens).
Proof. unfold parse_class. split_fin. Qed.
Lemma fin_parse_value : fin (parse_value tokens).
Proof. unfold parse_value. split_fin. Qed.
Lemma fin_parse_variable : fin (parse_variable tokens).
Proof.
  unfold parse_variable. pose proof fin_parse_value. split_fin.
Qed.
Lemma fin_parse_function : fin (parse_function tokens).
Proof. unfold parse_function. split_fin. Qed.
Lemma fin_parse_expression : fin (parse_expression tokens).
Proof.
  unfold parse_expression, parse_identifier, parse_string. split_fin.
Qed.
Lemma fin_parse_assignment : fin (parse_assignment tokens).
Proof.
  unfold parse_assignment. pose proof fin_parse_variable. split_fin.
Qed.
Lemma fin_parse_yeet : fin (parse_yeet tokens).
Proof. unfold parse_yeet. split_fin. Qed.

Lemma adv_parse_folder : adv 1 (parse_folder tokens).
Proof.
  unfold parse_folder. apply adv1_bind; [apply adv_consume|].
  intro. split_adv0.
Qed.
Lemma adv_parse_class : adv 1 (parse_class tokens).
Proof.
  unfold parse_class. apply adv1_bind; [apply adv_consume|].
  intro. split_adv0.
Qed.
Lemma adv0_parse_value : adv 0 (parse_value tokens).
Proof. unfold parse_value. split_adv0. Qed.
Lemma adv_parse_variable : adv 1 (parse_variable tokens).
Proof.
  unfold parse_variable. apply adv1_bind; [apply adv_consume|].
  intro. pose proof adv0_parse_value. split_adv0.
Qed.
Lemma adv_parse_function : adv 1 (parse_function tokens).
Proof.
  unfold parse_function. apply adv1_bind; [apply adv_consume|].
  intro. split_adv0.
Qed.
Lemma adv_parse_expression : adv 1 (parse_expression tokens).
Proof.
  unfold parse_expression, parse_identifier, parse_string.
  apply adv1_bind_r; [apply adv_peek|]. intro.
  apply adv1_bind_r; [apply adv_item0|]. intro.
  repeat match goal with
         | |- adv 1 (if ?b then _ else _) => destruct b
         | |- adv 1 (match ?x with _ => _ end) => destruct x
         end;
    try apply adv_raise;
    (apply adv1_bind; [apply adv_consume|intro; split_adv0]).
Qed.
Lemma adv_parse_assignment : adv 1 (parse_assignment tokens).
Proof.
  unfold parse_assignment.
  apply adv1_bind; [apply adv_parse_variable|]. intro. split_adv0.
Qed.
Lemma adv_parse_yeet : adv 1 (parse_yeet tokens).
Proof.
  unfold parse_yeet. apply adv1_bind; [apply adv_consume|].
  intro. split_adv0.
Qed.
End Simple.


(** *** The loops and the mutually recursive functions *)

Lemma below_out_of_fuel : forall A (m : M A), below out_of_fuel m.
Proof. intros A m i H. exfalso. apply H. reflexivity. Qed.

Ltac split_adv1 :=
  repeat match goal with
         | |- adv 1 (if ?b then _ else _) => destruct b
         | |- adv 1 (match ?x with _ => _ end) => destruct x
         end.

Section Loops.
Variable tokens : list token.

Lemma adv_parse_import_loop : forall fuel name,
    adv 0 (parse_import_loop tokens fuel name).
Proof.
  induction fuel as [|fuel IH]; intros name; simpl.
  - apply adv_out_of_fuel.
  - split_adv0.
Qed.

Lemma adv_parse_import : forall fuel, adv 1 (parse_import tokens fuel).
Proof.
  intros fuel. unfold parse_import.
  apply adv1_bind; [apply adv_consume|]. intro.
  pose proof (adv_parse_import_loop fuel). split_adv0.
Qed.

Lemma adv_parse_arguments_loop : forall fuel arguments,
    adv 0 (parse_arguments_loop tokens fuel arguments).
Proof.
  induction fuel as [|fuel IH]; intros arguments; simpl.
  - apply adv_out_of_fuel.
  - pose proof (adv_parse_expression tokens) as E.
    apply adv_le with (k' := 0) in E; [|lia]. split_adv0.
Qed.

Lemma adv_parse_function_call : forall fuel,
    adv 1 (parse_function_call tokens fuel).
Proof.
  intros fuel. unfold parse_function_call.
  apply adv1_bind; [apply adv_consume|]. intro.
  pose proof (adv_parse_expression tokens) as E.
  apply adv_le with (k' := 0) in E; [|lia].
  pose proof (adv_parse_arguments_loop fuel). split_adv0.
Qed.

Lemma adv_mutual : forall fuel,
    adv 1 (parse_statement tokens fuel) /\
    adv 1 (parse_if tokens fuel) /\
    adv 1 (parse_body tokens fuel) /\
    forall statements, adv 0 (parse_body_loop tokens fuel statements).
Proof.
  induction fuel as [|fuel [IHs [IHi [IHb IHl]]]].
  - repeat split; intros; apply adv_out_of_fuel.
  - assert (S0 : adv 0 (parse_statement tokens fuel))
      by (eapply adv_le; [exact IHs|lia]).
    assert (B0 : adv 0 (parse_body tokens fuel))
      by (eapply adv_le; [exact IHb|lia]).
    repeat split; intros; simpl.
    + apply adv1_bind_r; [apply adv_peek|]. intro.
      apply adv1_bind_r; [apply adv_item0|]. intro.
      split_adv1; try apply adv_raise; try exact IHi.
      * apply adv_parse_yeet.
      * apply adv_parse_import.
    + apply adv1_bind; [apply adv_consume|]. intro.
      pose proof (adv_parse_expression tokens) as E.
      apply adv_le with (k' := 0) in E; [|lia]. split_adv0.
    + apply adv1_bind; [apply adv_consume|]. intro. split_adv0.
    + split_adv0.
Qed.

Lemma adv_parse_statement : forall fuel,
    adv 1 (parse_statement tokens fuel).
Proof. intros fuel. apply adv_mutual. Qed.

Lemma adv_parse_if : forall fuel, adv 1 (parse_if tokens fuel).
Proof. intros fuel. apply adv_mutual. Qed.

Lemma adv_parse_body : forall fuel, adv 1 (parse_body tokens fuel).
Proof. intros fuel. apply adv_mutual. Qed.

Lemma adv_parse_body_loop : forall fuel statements,
    adv 0 (parse_body_loop tokens fuel statements).
Proof. intros fuel. apply adv_mutual. Qed.

(** More fuel changes nothing in a run that ends. *)

Lemma below_parse_import_loop : forall fuel fuel' name,
    fuel <= fuel' ->
    below (parse_import_loop tokens fuel name)
          (parse_import_loop tokens fuel' name).
Proof.
  induction fuel as [|fuel IH]; intros fuel' name L.
  - apply below_out_of_fuel.
  - destruct fuel' as [|fuel']; [lia|]. simpl.
    split_below. apply IH. lia.
Qed.

Lemma below_parse_import : forall fuel fuel',
    fuel <= fuel' ->
    below (parse_import tokens fuel) (parse_import tokens fuel').
Proof.
  intros fuel fuel' L. unfold parse_import.
  pose proof (fun name => below_parse_import_loop fuel fuel' name L).
  split_below. auto.
Qed.

Lemma below_parse_arguments_loop : forall fuel fuel' arguments,
    fuel <= fuel' ->
    below (parse_arguments_loop tokens fuel arguments)
          (parse_arguments_loop tokens fuel' arguments).
Proof.
  induction fuel as [|fuel IH]; intros fuel' arguments L.
  - apply below_out_of_fuel.
  - destruct fuel' as [|fuel']; [lia|]. simpl.
    split_below. apply IH. lia.
Qed.

Lemma below_parse_function_call : forall fuel fuel',
    fuel <= fuel' ->
    below (parse_function_call tokens fuel)
          (parse_function_call tokens fuel').
Proof.
  intros fuel fuel' L. unfold parse_function_call.
  pose proof (fun a => below_parse_arguments_loop fuel fuel' a L).
  split_below. auto.
Qed.

Lemma below_mutual : forall fuel fuel',
    fuel <= fuel' ->
    below (parse_statement tokens fuel) (parse_statement tokens fuel') /\
    below (parse_if tokens fuel) (parse_if tokens fuel') /\
    below (parse_body tokens fuel) (parse_body tokens fuel') /\
    forall statements,
      below (parse_body_loop tokens fuel statements)
            (parse_body_loop tokens fuel' statements).
Proof.
  induction fuel as [|fuel IH]; intros fuel' L.
  - repeat split; intros; apply below_out_of_fuel.
  - destruct fuel' as [|fuel']; [lia|].
    assert (L' : fuel <= fuel') by lia.
    destruct (IH fuel' L') as [IHs [IHi [IHb IHl]]].
    pose proof (below_parse_import fuel fuel' L').
    pose proof (below_parse_function_call fuel fuel' L').
    repeat split; intros; simpl; split_below; auto.
Qed.

Lemma below_parse_loop : forall fuel fuel' ast,
    fuel <= fuel' ->
    below (parse_loop tokens fuel ast) (parse_loop tokens fuel' ast).
Proof.
  induction fuel as [|fuel IH]; intros fuel' ast L.
  - apply below_out_of_fuel.
  - destruct fuel' as [|fuel']; [lia|].
    assert (L' : fuel <= fuel') by lia.
    destruct (below_mutual fuel fuel' L') as [_ [IHi _]].
    pose proof (below_parse_import fuel fuel' L').
    simpl. split_below; auto.
Qed.

End Loops.


(** *** The fuel of [parse] is never used up *)

Section Enough_fuel.
Variable tokens : list token.

Lemma peek_return : forall i t j,
    peek tokens i = Return (t, j) -> t = nth_error tokens i /\ j = i.
Proof. intros i t j H. injection H as <- <-. auto. Qed.

Lemma item0_return : forall t i k j,
    item0 t i = Return (k, j) ->
    j = i /\ exists tok, t = Some tok /\ k = fst tok.
Proof.
  intros [tok|] i k j H; [|discriminate].
  injection H as <- <-. eauto.
Qed.

Lemma consume_lt : forall token_type i tok j,
    consume tokens token_type i = Return (tok, j) -> i < length tokens /\ j = S i.
Proof.
  intros token_type i tok j H. apply consume_return in H.
  destruct H as [H [_ ->]]. split; [|reflexivity].
  apply nth_error_Some. congruence.
Qed.

Lemma parse_expression_lt : forall i a j,
    parse_expression tokens i = Return (a, j) -> i < length tokens /\ j = S i.
Proof.
  intros i a j H. unfold parse_expression, bind, peek in H.
  destruct (nth_error tokens i) as [tok|] eqn:E; simpl in H;
    [|discriminate].
  unfold parse_identifier, parse_string, bind in H.
  destruct (String.eqb (fst tok) "IDENTIFIER").
  - destruct (consume tokens "IDENTIFIER" i) as [[t k]| |] eqn:C;
      try discriminate.
    apply consume_lt in C. injection H as _ <-. exact C.
  - destruct (String.eqb (fst tok) "STRING"); [|discriminate].
    destruct (consume tokens "STRING" i) as [[t k]| |] eqn:C;
      try discriminate.
    apply consume_lt in C. injection H as _ <-. exact C.
Qed.

Ltac safe_step H :=
  apply bind_safe_at;
  [ first [ apply fin_peek | apply fin_consume | apply fin_item0 ]
  | intros ? ? H ].

Lemma safe_parse_import_loop : forall fuel name i,
    length tokens - i < fuel -> parse_import_loop tokens fuel name i <> OutOfFuel.
Proof.
  induction fuel as [|fuel IH]; intros name i L; [lia|]. simpl.
  safe_step H. apply peek_return in H. destruct H as [-> ->].
  destruct (nth_error tokens i) as [tok|]; [|discriminate].
  destruct (String.eqb (fst tok) "DOT"); [|discriminate].
  safe_step H1. apply consume_lt in H1. destruct H1 as [? ->].
  safe_step H2. apply consume_lt in H2. destruct H2 as [? ->].
  apply IH. lia.
Qed.

Lemma safe_parse_import : forall fuel i,
    length tokens - i < fuel -> parse_import tokens fuel i <> OutOfFuel.
Proof.
  intros fuel i L. unfold parse_import.
  safe_step H1. apply consume_lt in H1. destruct H1 as [? ->].
  safe_step H2. apply consume_lt in H2. destruct H2 as [? ->].
  apply bind_safe_at.
  - apply safe_parse_import_loop. lia.
  - intros ? ? _. apply fin_bind; auto with fin.
Qed.

Lemma safe_parse_arguments_loop : forall fuel arguments i,
    length tokens - i < fuel ->
    parse_arguments_loop tokens fuel arguments i <> OutOfFuel.
Proof.
  induction fuel as [|fuel IH]; intros arguments i L; [lia|]. simpl.
  safe_step H. apply peek_return in H. destruct H as [-> ->].
  safe_step H0. apply item0_return in H0. destruct H0 as [-> _].
  match goal with |- context [String.eqb ?k "SEMICOLON"] =>
    destruct (String.eqb k "SEMICOLON") end; [|discriminate].
  safe_step H1. apply consume_lt in H1. destruct H1 as [? ->].
  apply bind_safe_at; [apply fin_parse_expression|].
  intros ? ? H2. apply parse_expression_lt in H2. destruct H2 as [? ->].
  apply IH. lia.
Qed.

Lemma safe_parse_function_call : forall fuel i,
    length tokens - i < fuel -> parse_function_call tokens fuel i <> OutOfFuel.
Proof.
  intros fuel i L. unfold parse_function_call.
  safe_step H1. apply consume_lt in H1. destruct H1 as [? ->].
  safe_step H2. apply consume_lt in H2. destruct H2 as [? ->].
  safe_step H3. apply peek_return in H3. destruct H3 as [-> ->].
  safe_step H4. apply item0_return in H4. destruct H4 as [-> _].
  apply bind_safe_at.
  - match goal with |- context [String.eqb ?k "RPAREN"] =>
      destruct (String.eqb k "RPAREN") end; simpl; [discriminate|].
    apply bind_safe_at; [apply fin_parse_expression|].
    intros ? ? H5. apply parse_expression_lt in H5.
    destruct H5 as [? ->]. apply safe_parse_arguments_loop. lia.
  - intros ? ? _. apply fin_bind; auto with fin.
Qed.

Lemma safe_mutual : forall fuel,
    (forall i, 2 * (length tokens - i) + 2 <= fuel ->
               parse_statement tokens fuel i <> OutOfFuel) /\
    (forall i, 2 * (length tokens - i) + 1 <= fuel ->
               parse_if tokens fuel i <> OutOfFuel) /\
    (forall i, 2 * (length tokens - i) + 4 <= fuel ->
               parse_body tokens fuel i <> OutOfFuel) /\
    (forall i statements, 2 * (length tokens - i) + 3 <= fuel ->
               parse_body_loop tokens fuel statements i <> OutOfFuel).
Proof.
  induction fuel as [|fuel [IHs [IHi [IHb IHl]]]].
  - repeat split; intros; lia.
  - repeat split; intros i; [intros L|intros L|intros L|intros sts L];
      simpl.
    + safe_step H. apply peek_return in H. destruct H as [-> ->].
      safe_step H0. apply item0_return in H0. destruct H0 as [-> _].
      repeat match goal with |- context [String.eqb ?k ?s] =>
        destruct (String.eqb k s) end.
      * apply IHi. lia.
      * discriminate.
      * apply fin_parse_yeet.
      * apply safe_parse_import. lia.
      * destruct (nth_error tokens i); discriminate.
    + safe_step H1. apply consume_lt in H1. destruct H1 as [? ->].
      apply bind_safe_at; [apply fin_parse_expression|].
      intros ? ? H2. apply parse_expression_lt in H2.
      destruct H2 as [? ->].
      apply bind_safe_at; [apply IHb; lia|].
      intros ? ? _. discriminate.
    + safe_step H1. apply consume_lt in H1. destruct H1 as [? ->].
      apply bind_safe_at; [apply IHl; lia|].
      intros ? ? _. apply fin_bind; auto with fin.
    + safe_step H. apply peek_return in H. destruct H as [-> ->].
      destruct (nth_error tokens i) as [tok|] eqn:E; [|discriminate].
      assert (i < length tokens) by (apply nth_error_Some; congruence).
      destruct (negb (String.eqb (fst tok) "RBRACE")); [|discriminate].
      apply bind_safe_at; [apply IHs; lia|].
      intros ? ? H2. apply adv_parse_statement in H2.
      apply IHl. lia.
Qed.

Lemma safe_parse_if : forall fuel i,
    2 * (length tokens - i) + 1 <= fuel -> parse_if tokens fuel i <> OutOfFuel.
Proof. intros fuel. apply safe_mutual. Qed.

Lemma safe_parse_loop : forall fuel ast i,
    2 * (length tokens - i) + 2 <= fuel -> parse_loop tokens fuel ast i <> OutOfFuel.
Proof.
  induction fuel as [|fuel IH]; intros ast i L; [lia|]. simpl.
  safe_step H. apply peek_return in H. destruct H as [-> ->].
  destruct (nth_error tokens i) as [tok|] eqn:E; [|discriminate].
  assert (i < length tokens) by (apply nth_error_Some; congruence).
  repeat match goal with |- context [String.eqb ?k ?s] =>
    destruct (String.eqb k s) end.
  - apply bind_safe_at; [apply fin_parse_folder|].
    intros ? ? H1. apply adv_parse_folder in H1. apply IH. lia.
  - apply bind_safe_at; [apply fin_parse_class|].
    intros ? ? H1. apply adv_parse_class in H1. apply IH. lia.
  - apply bind_safe_at; [apply fin_parse_variable|].
    intros ? ? H1. apply adv_parse_variable in H1. apply IH. lia.
  - apply bind_safe_at; [apply fin_parse_function|].
    intros ? ? H1. apply adv_parse_function in H1. apply IH. lia.
  - apply bind_safe_at; [apply safe_parse_if; lia|].
    intros ? ? H1. apply adv_parse_if in H1. apply IH. lia.
  - apply bind_safe_at; [discriminate|].
    intros ? ? H1. injection H1 as <-. apply IH. lia.
  - apply bind_safe_at; [apply safe_parse_import; lia|].
    intros ? ? H1. apply adv_parse_import in H1. apply IH. lia.
  - discriminate.
Qed.

End Enough_fuel.

(** *** Braces *)

Lemma firstn_plus : forall (l : list token) a b,
    firstn (a + b) l = firstn a l ++ firstn b (skipn a l).
Proof.
  induction l as [|x l IH]; intros [|a] b; simpl; try reflexivity.
  - destruct b; reflexivity.
  - rewrite IH. reflexivity.
Qed.

Lemma skipn_plus : forall (l : list token) a b,
    skipn (a + b) l = skipn b (skipn a l).
Proof.
  induction l as [|x l IH]; intros [|a] b; simpl; try reflexivity.
  - destruct b; reflexivity.
  - apply IH.
Qed.

Lemma span_split : forall tokens i k j,
    i <= k -> k <= j ->
    span tokens i j = span tokens i k ++ span tokens k j.
Proof.
  intros tokens i k j H1 H2. unfold span.
  replace (j - i) with ((k - i) + (j - k)) by lia.
  rewrite firstn_plus. f_equal. f_equal.
  rewrite <- skipn_plus. f_equal. lia.
Qed.

Lemma span_empty : forall tokens i, span tokens i i = [].
Proof. intros. unfold span. rewrite Nat.sub_diag. reflexivity. Qed.

Lemma skipn_nth : forall (l : list token) i tok,
    nth_error l i = Some tok -> exists rest, skipn i l = tok :: rest.
Proof.
  induction l as [|x l IH]; intros [|i] tok H; simpl in *;
    try discriminate.
  - injection H as ->. eauto.
  - apply IH. exact H.
Qed.

Lemma span_one : forall tokens i tok,
    nth_error tokens i = Some tok -> span tokens i (S i) = [tok].
Proof.
  intros tokens i tok H. unfold span.
  replace (S i - i) with 1 by lia.
  destruct (skipn_nth _ _ _ H) as [rest ->]. reflexivity.
Qed.

Lemma span_all : forall tokens j,
    length tokens <= j -> span tokens 0 j = tokens.
Proof.
  intros tokens j H. unfold span. simpl. rewrite Nat.sub_0_r.
  apply firstn_all2. exact H.
Qed.

Lemma count_kind_app : forall kind l1 l2,
    count_kind kind (l1 ++ l2) = count_kind kind l1 + count_kind kind l2.
Proof.
  intros kind l1 l2. unfold count_kind.
  rewrite filter_app, length_app. reflexivity.
Qed.

Lemma count_kind_one : forall kind tok,
    count_kind kind [tok] = if String.eqb (fst tok) kind then 1 else 0.
Proof.
  intros kind tok. unfold count_kind. simpl.
  destruct (String.eqb (fst tok) kind); reflexivity.
Qed.

Section Braces.
Variable tokens : list token.

Lemma net_bind : forall A B (m : M A) (k : A -> M B) o1 c1 o2 c2,
    net tokens o1 c1 m -> (forall a, net tokens o2 c2 (k a)) ->
    net tokens (o1 + o2) (c1 + c2) (bind m k).
Proof.
  intros A B m k o1 c1 o2 c2 Hm Hk i b j H.
  apply bind_return in H. destruct H as [a [i' [H1 H2]]].
  apply Hm in H1. apply Hk in H2.
  destruct H1 as [L1 E1]. destruct H2 as [L2 E2].
  split; [lia|]. rewrite (span_split tokens i i' j L1 L2).
  rewrite !count_kind_app. lia.
Qed.

Lemma net0_bind : forall A B (m : M A) (k : A -> M B),
    net tokens 0 0 m -> (forall a, net tokens 0 0 (k a)) ->
    net tokens 0 0 (bind m k).
Proof. intros. apply (net_bind _ _ m k 0 0 0 0); assumption. Qed.

Lemma net_ret : forall A (a : A), net tokens 0 0 (ret a).
Proof.
  intros A a i b j H. injection H as _ <-. rewrite span_empty.
  split; [lia|reflexivity].
Qed.

Lemma net_raise : forall A e o c, net tokens o c (@raise A e).
Proof. intros A e o c i a j H. discriminate. Qed.

Lemma net_out_of_fuel : forall A o c, net tokens o c (@out_of_fuel A).
Proof. intros A o c i a j H. discriminate. Qed.

Lemma net_peek : net tokens 0 0 (peek tokens).
Proof.
  intros i b j H. injection H as _ <-. rewrite span_empty.
  split; [lia|reflexivity].
Qed.

Lemma net_item0 : forall t, net tokens 0 0 (item0 t).
Proof. intros [t|]; [apply net_ret|apply net_raise]. Qed.

(** What [consume] adds to the count, by the kind it asks for. *)
Lemma net_consume : forall token_type,
    net tokens
        (if String.eqb token_type "LBRACE" then 1 else 0)
        (if String.eqb token_type "RBRACE" then 1 else 0)
        (consume tokens token_type).
Proof.
  intros token_type i tok j H. apply consume_return in H.
  destruct H as [Hn [Hk ->]]. split; [lia|].
  rewrite (span_one _ _ _ Hn), !count_kind_one, Hk.
  destruct (String.eqb token_type "LBRACE");
    destruct (String.eqb token_type "RBRACE"); reflexivity.
Qed.

Lemma net0_consume : forall token_type,
    String.eqb token_type "LBRACE" = false ->
    String.eqb token_type "RBRACE" = false ->
    net tokens 0 0 (consume tokens token_type).
Proof.
  intros token_type H1 H2. pose proof (net_consume token_type) as H.
  rewrite H1, H2 in H. exact H.
Qed.

Ltac split_net :=
  repeat first
    [ apply net_ret | apply net_raise | apply net_out_of_fuel
    | apply net_peek | apply net_item0
    | apply net0_consume; reflexivity
    | assumption
    | apply net0_bind; [|intro]
    | match goal with
      | |- net _ 0 0 (if ?b then _ else _) => destruct b
      | |- net _ 0 0 (match ?x with _ => _ end) => destruct x
      end ].

Lemma net_parse_import_loop : forall fuel name,
    net tokens 0 0 (parse_import_loop tokens fuel name).
Proof.
  induction fuel as [|fuel IH]; intros name; simpl.
  - apply net_out_of_fuel.
  - split_net. apply IH.
Qed.

Lemma net_parse_import : forall fuel,
    net tokens 0 0 (parse_import tokens fuel).
Proof.
  intros fuel. unfold parse_import. split_net.
  apply net_parse_import_loop.
Qed.

Lemma net_parse_variable : net tokens 0 0 (parse_variable tokens).
Proof. unfold parse_variable, parse_value. split_net. Qed.

Lemma net_parse_expression : net tokens 0 0 (parse_expression tokens).
Proof.
  unfold parse_expression, parse_identifier, parse_string. split_net.
Qed.

Lemma net_parse_arguments_loop : forall fuel arguments,
    net tokens 0 0 (parse_arguments_loop tokens fuel arguments).
Proof.
  induction fuel as [|fuel IH]; intros arguments; simpl.
  - apply net_out_of_fuel.
  - pose proof net_parse_expression. split_net. apply IH.
Qed.

Lemma net_mutual : forall fuel,
    net tokens 0 0 (parse_statement tokens fuel) /\
    net tokens 0 0 (parse_if tokens fuel) /\
    net tokens 0 0 (parse_body tokens fuel) /\
    forall statements,
      net tokens 0 0 (parse_body_loop tokens fuel statements).
Proof.
  induction fuel as [|fuel [IHs [IHi [IHb IHl]]]].
  - split; [|split; [|split]]; intros; apply net_out_of_fuel.
  - pose proof net_parse_expression as He.
    pose proof net_parse_variable as Hv.
    pose proof (net_parse_import fuel) as Hi.
    split; [|split; [|split]]; [| | |intros statements]; simpl.
    + unfold parse_yeet, parse_assignment. split_net.
    + split_net.
    + intros i a j H.
      assert (N : net tokens (1 + (0 + (0 + 0))) (0 + (0 + (1 + 0)))
                (consume tokens "LBRACE" >>
                 statements <- parse_body_loop tokens fuel [] ;;
                 consume tokens "RBRACE" >>
                 ret (new_Node "BODY" (Some statements) NoValue))).
      { apply net_bind; [apply (net_consume "LBRACE")|]. intro.
        apply net_bind; [apply IHl|]. intro.
        apply net_bind; [apply (net_consume "RBRACE")|]. intro.
        apply net_ret. }
      destruct (N i a j H) as [L E]. split; [exact L|lia].
    + split_net. apply IHl.
Qed.

Lemma net_parse_loop : forall fuel ast,
    net tokens 0 0 (parse_loop tokens fuel ast).
Proof.
  induction fuel as [|fuel IH]; intros ast i a j H; [discriminate|].
  simpl in H. unfold bind at 1, peek in H.
  destruct (nth_error tokens i) as [tok|] eqn:E.
  - destruct (net_mutual fuel) as [_ [Hif _]].
    pose proof net_parse_variable as Hv.
    pose proof (net_parse_import fuel) as Hi.
    assert (G : forall (m : M (list Node)),
               net tokens 0 0 m -> m i = Return (a, j) ->
               i <= j /\
               count_kind "LBRACE" (span tokens i j) + 0 =
               count_kind "RBRACE" (span tokens i j) + 0)
      by (intros m Hm Hr; exact (Hm i a j Hr)).
    destruct (String.eqb (fst tok) "FOLDER");
      [revert H; apply G; unfold parse_folder; split_net; apply IH|].
    destruct (String.eqb (fst tok) "CLASS");
      [revert H; apply G; unfold parse_class; split_net; apply IH|].
    destruct (String.eqb (fst tok) "VARIABLE");
      [revert H; apply G; split_net; apply IH|].
    destruct (String.eqb (fst tok) "FUNCTION");
      [revert H; apply G; unfold parse_function; split_net; apply IH|].
    destruct (String.eqb (fst tok) "IF");
      [revert H; apply G; split_net; apply IH|].
    destruct (String.eqb (fst tok) "COMMENT") eqn:C.
    + unfold bind at 1 in H. apply IH in H. destruct H as [L Eq].
      split; [lia|].
      rewrite (span_split tokens i (i + 1) j) by lia.
      replace (i + 1) with (S i) by lia.
      rewrite (span_one _ _ _ E), !count_kind_app, !count_kind_one.
      apply String.eqb_eq in C. rewrite C. simpl.
      replace (S i) with (i + 1) by lia. lia.
    + destruct (String.eqb (fst tok) "IMPORT");
        [revert H; apply G; split_net; apply IH|discriminate].
  - injection H as _ <-. rewrite span_empty. split; [lia|reflexivity].
Qed.

Lemma parse_loop_reaches_end : forall fuel ast i a j,
    parse_loop tokens fuel ast i = Return (a, j) -> length tokens <= j.
Proof.
  induction fuel as [|fuel IH]; intros ast i a j H; [discriminate|].
  simpl in H. unfold bind at 1, peek in H.
  destruct (nth_error tokens i) as [tok|] eqn:E.
  - repeat match type of H with
           | (if ?b then _ else _) _ = _ => destruct b
           end;
      try discriminate;
      apply bind_return in H; destruct H as [x [i' [_ H]]];
      eapply IH; exact H.
  - injection H as _ <-. apply nth_error_None. exact E.
Qed.

End Braces.

(** When [parse] returns, the token sequence holds as many opening as
    closing braces. *)
Lemma parse_return_balanced : forall tokens ast,
    parse tokens = Return ast ->
    count_kind "LBRACE" tokens = count_kind "RBRACE" tokens.
Proof.
  intros tokens ast H. unfold parse, parse_fuel in H.
  destruct (parse_loop tokens (enough tokens) [] 0) as [[a j]| |] eqn:E;
    try discriminate.
  pose proof (parse_loop_reaches_end _ _ _ _ _ _ E) as L.
  destruct (net_parse_loop tokens _ _ _ _ _ E) as [_ Eq].
  rewrite (span_all tokens j L) in Eq. lia.
Qed.

(** [parse] always returns or raises. *)
Lemma parse_terminates : forall tokens, parse tokens <> OutOfFuel.
Proof.
  intros tokens. unfold parse, parse_fuel.
  pose proof (safe_parse_loop tokens (enough tokens) [] 0) as H.
  destruct (parse_loop tokens (enough tokens) [] 0) as [[ast j]| |];
    try discriminate.
  exfalso. apply H; [|reflexivity]. unfold enough. lia.
Qed.

(** The result of a run of [parse] that ends is the result of [parse],
    whatever fuel the run was given. *)
Lemma parse_fuel_irrelevant : forall tokens fuel,
    parse_fuel fuel tokens <> OutOfFuel ->
    parse_fuel fuel tokens = parse tokens.
Proof.
  intros tokens fuel H. unfold parse, parse_fuel in *.
  assert (H' : parse_loop tokens fuel [] 0 <> OutOfFuel).
  { intros E. rewrite E in H. apply H. reflexivity. }
  assert (E : parse_loop tokens (enough tokens) [] 0 =
              parse_loop tokens fuel [] 0).
  { destruct (Nat.le_ge_cases fuel (enough tokens)) as [L|L].
    - apply (below_parse_loop tokens fuel (enough tokens) [] L 0 H').
    - symmetry.
      apply (below_parse_loop tokens (enough tokens) fuel [] L 0).
      apply safe_parse_loop. unfold enough. lia. }
  rewrite E. reflexivity.
Qed.

End ParserFacts.

Import ReFacts LexerFacts ParserFacts.

(* ================================================================= *)
(** ** The tokenizer: properties *)

(** C7. When no rule matches at the position the scan has reached,
    [lexer] raises the lexical error that carries this position; no rule
    matches at an at-sign, so a scan that reaches one fails with the
    index of the at-sign. *)
Theorem lexer_error_carries_cursor : forall text position tokens,
    scan text position tokens ->
    position < String.length text ->
    (first_match TOKEN_TYPES text position = None ->
     lexer text = Raise (LexerError position)) /\
    (String.get position text = Some "@"%char ->
     first_match TOKEN_TYPES text position = None /\
     lexer text = Raise (LexerError position)).
Proof.
  intros text position tokens Hs Hlt. split.
  - intros Hm. eapply scan_stuck; eassumption.
  - intros G.
    assert (Hm : first_match TOKEN_TYPES text position = None)
      by (eapply first_match_none; [exact G|reflexivity]).
    split; [exact Hm|]. eapply scan_stuck; eassumption.
Qed.

Lemma lexer_error_carries_cursor_witness :
  scan "if@" 2 [("IF", "if")] /\
  2 < String.length "if@" /\
  first_match TOKEN_TYPES "if@" 2 = None /\
  lexer "if@" = Raise (LexerError 2).
Proof.
  assert (S : scan "if@" 2 [("IF", "if")]).
  { apply (scan_next "if@" 0 [] "IF" 2);
      [constructor | simpl; lia | reflexivity]. }
  assert (L : 2 < String.length "if@") by (simpl; lia).
  destruct (lexer_error_carries_cursor "if@" 2 [("IF", "if")] S L)
    as [_ H].
  destruct (H eq_refl) as [H1 H2]. repeat split; assumption.
Defined.

Lemma first_match_app : forall before rest text position,
    Forall (fun rule => re_match (snd rule) text position = None) before ->
    first_match (before ++ rest) text position =
    first_match rest text position.
Proof.
  induction before as [|[k r] before IH]; intros rest text position H;
    [reflexivity|].
  inversion H as [|x l Hr Hb]; subst. simpl in *. rewrite Hr.
  apply IH. exact Hb.
Qed.

(** [first_match] returns the first rule of [rules] that matches, and the
    end of its match. *)
Lemma first_match_first : forall rules text position kind e,
    first_match rules text position = Some (kind, e) <->
    exists before pattern rest,
      rules = before ++ (kind, pattern) :: rest /\
      Forall (fun rule => re_match (snd rule) text position = None)
             before /\
      re_match pattern text position = Some e.
Proof.
  intros rules text position kind e. split.
  - revert kind e.
    induction rules as [|[k r] rules IH]; intros kind e H; simpl in H;
      [discriminate|].
    destruct (re_match r text position) as [e'|] eqn:E.
    + injection H as -> ->. exists [], r, rules.
      split; [reflexivity|]. split; [constructor|exact E].
    + destruct (IH _ _ H) as [before [pattern [rest [-> [Hb Hm]]]]].
      exists ((k, r) :: before), pattern, rest.
      split; [reflexivity|]. split; [|exact Hm].
      constructor; [exact E|exact Hb].
  - intros [before [pattern [rest [-> [Hb Hm]]]]].
    rewrite first_match_app by exact Hb. simpl. rewrite Hm. reflexivity.
Qed.

(** [first_match] returns nothing when no rule of [rules] matches, and
    only then. *)
Lemma first_match_no_rule : forall rules text position,
    first_match rules text position = None <->
    Forall (fun rule => re_match (snd rule) text position = None) rules.
Proof.
  intros rules text position.
  induction rules as [|[k r] rules IH]; simpl.
  - split; [constructor|reflexivity].
  - destruct (re_match r text position) as [e|] eqn:E.
    + split; [discriminate|]. intros H.
      inversion H as [|x l Hr Hl]; subst. simpl in Hr. congruence.
    + split.
      * intros H. constructor; [exact E|]. apply IH. exact H.
      * intros H. inversion H as [|x l Hr Hl]; subst. apply IH. exact Hl.
Qed.

(** A run of the loop that ends is a run that accepts the first rule
    that matches at every cursor position. *)
Lemma loop_tokenizes : forall fuel text position tokens result,
    lexer_loop fuel text position tokens = result ->
    result <> OutOfFuel ->
    tokenizes text position tokens result.
Proof.
  induction fuel as [|fuel IH]; intros text position tokens result H N.
  - exfalso. apply N. rewrite <- H. reflexivity.
  - rewrite lexer_loop_unfold in H.
    destruct (position <? String.length text) eqn:L.
    + apply Nat.ltb_lt in L.
      destruct (first_match TOKEN_TYPES text position) as [[kind e]|] eqn:E.
      * apply (tokenizes_step text position tokens kind e);
          [exact L|apply first_match_first; exact E|].
        apply IH; assumption.
      * subst result. apply tokenizes_stuck; [exact L|].
        apply first_match_no_rule. exact E.
    + apply Nat.ltb_ge in L. subst result. apply tokenizes_end. exact L.
Qed.

Lemma tokenizes_loop : forall text position tokens result,
    tokenizes text position tokens result ->
    forall fuel,
      String.length text - position < fuel ->
      lexer_loop fuel text position tokens = result.
Proof.
  intros text position tokens result H.
  induction H as [position tokens L|position tokens L R
                 |position tokens kind e result L R H IH];
    intros [|fuel] F; try lia; rewrite lexer_loop_unfold.
  - apply Nat.ltb_ge in L. rewrite L. reflexivity.
  - apply first_match_no_rule in R. apply Nat.ltb_lt in L.
    rewrite L, R. reflexivity.
  - apply first_match_first in R.
    pose proof (first_match_advances _ _ _ _ R) as A.
    apply Nat.ltb_lt in L. rewrite L, R. apply IH. lia.
Qed.

(** C8. At every cursor position the tokenizer accepts the first rule of
    the table, in the order of the table, whose pattern matches there:
    [first_match] returns a rule exactly when no rule before it matches
    and its own pattern does, and nothing exactly when no rule matches;
    and the result of [lexer] on a text is the one obtained by
    accepting that rule at each cursor position from the start of the
    text, going on from the end of its match, up to the end of the text
    or to a position where no rule matches.  It is not the longest
    match: on [iffy] rule IF matches two characters and is accepted
    although rule IDENTIFIER, further down, matches all four, and the
    tokenizer then fails at offset 2.  On [importer] no rule before
    IDENTIFIER matches, rule IMPORT among them, and the text is one
    IDENTIFIER token. *)
Theorem first_matching_rule_wins :
  (forall text position kind e,
      first_match TOKEN_TYPES text position = Some (kind, e) <->
      first_rule text position kind e) /\
  (forall text position,
      first_match TOKEN_TYPES text position = None <->
      no_rule text position) /\
  (forall text result,
      lexer text = result <-> tokenizes text 0 [] result) /\
  (re_match (lit "if") "iffy" 0 = Some 2 /\
   re_match identifier_re "iffy" 0 = Some 4 /\
   first_rule "iffy" 0 "IF" 2 /\
   lexer "iffy" = Raise (LexerError 2)) /\
  (first_rule "importer" 0 "IDENTIFIER" 8 /\
   lexer "importer" = Return [("IDENTIFIER", "importer")]).
Proof.
  split; [|split; [|split; [|split]]].
  - intros text position kind e. apply first_match_first.
  - intros text position. apply first_match_no_rule.
  - intros text result. split.
    + intros H. apply (loop_tokenizes _ _ _ _ _ H).
      rewrite <- H. apply lexer_terminates.
    + intros H. apply (tokenizes_loop _ _ _ _ H). lia.
  - split; [reflexivity|]. split; [reflexivity|].
    split; [|vm_compute; reflexivity].
    exists (firstn 4 TOKEN_TYPES), (lit "if"), (skipn 5 TOKEN_TYPES).
    split; [reflexivity|]. split; [repeat constructor|reflexivity].
  - split; [|vm_compute; reflexivity].
    exists (firstn 8 TOKEN_TYPES), identifier_re, (skipn 9 TOKEN_TYPES).
    split; [reflexivity|]. split; [repeat constructor|reflexivity].
Qed.

Lemma first_matching_rule_wins_witness :
  first_match TOKEN_TYPES "importer" 0 = Some ("IDENTIFIER", 8) /\
  tokenizes "importer" 0 [] (Return [("IDENTIFIER", "importer")]).
Proof.
  destruct first_matching_rule_wins as [H1 [_ [H3 [_ [R L]]]]].
  split; [apply H1; exact R|apply H3; exact L].
Defined.

Lemma scan_quoted_a_b : forall p tokens,
    scan (quoted "a b") p tokens -> p = 0 \/ p = 5.
Proof.
  intros p tokens H. induction H as [|p tokens kind e H IH Hlt Hm].
  - left. reflexivity.
  - right. destruct IH as [->| ->].
    + vm_compute in Hm. injection Hm as _ <-. reflexivity.
    + vm_compute in Hlt. lia.
Qed.

(** C3, as stated, fails: the blank of the text made of a quote, [a b]
    and a quote lies in no lexeme of a composite rule, and [lexer]
    returns the text as one STRING token. *)
Lemma blank_in_string_literal_is_accepted :
  String.get 2 (quoted "a b") = Some " "%char /\
  is_space " "%char = true /\
  ~ in_composite_lexeme (quoted "a b") 2 /\
  lexer (quoted "a b") = Return [("STRING", quoted "a b")].
Proof.
  repeat split; try reflexivity.
  intros [p [tokens [kind [e [Hs [Hlt [Hm [Hin _]]]]]]]].
  destruct (scan_quoted_a_b _ _ Hs) as [->| ->].
  - vm_compute in Hm. injection Hm as <- _.
    unfold composite_kinds in Hin. simpl in Hin. intuition discriminate.
  - vm_compute in Hlt. lia.
Qed.

(** C3, amended. No rule matches at a whitespace character and the loop
    skips nothing: when the scan reaches a whitespace character, which
    is when no earlier match took it into its lexeme, [lexer] raises the
    lexical error at the position of that character. *)
Theorem whitespace_under_cursor_fails : forall text position tokens c,
    scan text position tokens ->
    String.get position text = Some c ->
    is_space c = true ->
    first_match TOKEN_TYPES text position = None /\
    lexer text = Raise (LexerError position).
Proof.
  intros text position tokens c Hs G Hc.
  assert (Hm : first_match TOKEN_TYPES text position = None)
    by (eapply first_match_none; [exact G|apply no_rule_at_space, Hc]).
  split; [exact Hm|].
  eapply scan_stuck; [exact Hs| |exact Hm].
  eapply get_some_lt. exact G.
Qed.

Lemma whitespace_under_cursor_fails_witness :
  scan "if x" 2 [("IF", "if")] /\
  String.get 2 "if x" = Some " "%char /\
  is_space " "%char = true /\
  first_match TOKEN_TYPES "if x" 2 = None /\
  lexer "if x" = Raise (LexerError 2).
Proof.
  assert (S : scan "if x" 2 [("IF", "if")]).
  { apply (scan_next "if x" 0 [] "IF" 2);
      [constructor | simpl; lia | reflexivity]. }
  destruct (whitespace_under_cursor_fails "if x" 2 [("IF", "if")] " "%char
              S eq_refl eq_refl) as [H1 H2].
  repeat split; assumption.
Defined.

(** C5, as stated, fails: the sample text holds a blank after [;], at
    offset 17, where no rule matches; tokenizing it raises and yields no
    token sequence at all. *)
Lemma comment_sample_is_not_tokenized :
  lexer decl_with_comment = Raise (LexerError 17) /\
  ~ exists tokens, lexer decl_with_comment = Return tokens.
Proof.
  assert (E : lexer decl_with_comment = Raise (LexerError 17))
    by (vm_compute; reflexivity).
  split; [exact E|]. intros [tokens H]. rewrite E in H. discriminate.
Qed.

(** C5, amended. A match of the COMMENT rule appends nothing, and no
    token [lexer] returns has kind COMMENT.  The sample text and the same
    text without its comment have the same result, the lexical error at
    offset 17 (the blank after [;]); written with no blank and no line
    feed after [;], the two texts give the same two tokens. *)
Theorem comments_are_dropped :
  (forall text position e tokens,
      emit text position e "COMMENT" tokens = tokens) /\
  (forall text tokens,
      lexer text = Return tokens ->
      Forall (fun t => fst t <> "COMMENT") tokens) /\
  (lexer decl_with_comment = lexer decl_without_comment /\
   lexer decl_without_comment = Raise (LexerError 17)) /\
  (lexer dense_with_comment = lexer dense_without_comment /\
   lexer dense_without_comment =
   Return [("VARIABLE", decl); ("SEMICOLON", ";")]).
Proof.
  split; [|split; [|split; split]]; try (vm_compute; reflexivity).
  intros text tokens H. apply lexer_return_scan in H.
  eapply scan_no_comment. exact H.
Qed.

Lemma comments_are_dropped_witness :
  lexer dense_with_comment =
  Return [("VARIABLE", decl); ("SEMICOLON", ";")]
  /\
  Forall (fun t => fst t <> "COMMENT")
    [("VARIABLE", decl); ("SEMICOLON", ";")].
Proof.
  assert (E : lexer dense_with_comment =
              Return [("VARIABLE", decl);
                      ("SEMICOLON", ";")]) by (vm_compute; reflexivity).
  split; [exact E|].
  destruct comments_are_dropped as [_ [H _]].
  exact (H dense_with_comment _ E).
Defined.

(* ================================================================= *)
(** ** Determinism *)

Lemma lexer_run_unique : forall text r,
    lexer_run text r -> r = lexer text.
Proof.
  intros text r [Hr [fuel H]]. subst r. unfold lexer.
  apply lexer_loop_agree; [exact Hr|apply lexer_terminates].
Qed.

Lemma parse_run_unique : forall tokens r,
    parse_run tokens r -> r = parse tokens.
Proof.
  intros tokens r [Hr [fuel H]]. subst r.
  apply parse_fuel_irrelevant. exact Hr.
Qed.

(** C10. Every text has a run of the tokenizer that ends, and any two
    runs end alike, with the same tokens or the same error; every token
    sequence has a run of the parser that ends, and any two runs end
    alike, with the same nodes or the same error. *)
Theorem front_end_is_deterministic : forall text tokens,
    lexer_run text (lexer text) /\
    (forall r1 r2, lexer_run text r1 -> lexer_run text r2 -> r1 = r2) /\
    parse_run tokens (parse tokens) /\
    (forall r1 r2, parse_run tokens r1 -> parse_run tokens r2 -> r1 = r2).
Proof.
  intros text tokens. repeat split.
  - apply lexer_terminates.
  - exists (S (String.length text)). reflexivity.
  - intros r1 r2 H1 H2.
    rewrite (lexer_run_unique _ _ H1), (lexer_run_unique _ _ H2).
    reflexivity.
  - apply parse_terminates.
  - exists (enough tokens). reflexivity.
  - intros r1 r2 H1 H2.
    rewrite (parse_run_unique _ _ H1), (parse_run_unique _ _ H2).
    reflexivity.
Qed.

Lemma front_end_is_deterministic_witness :
  lexer_loop 3 "if@" 0 [] = lexer_loop 40 "if@" 0 [] /\
  parse_fuel 7 [("IF", "if"); ("IDENTIFIER", "x"); ("LBRACE", "{")] =
  parse_fuel 90 [("IF", "if"); ("IDENTIFIER", "x"); ("LBRACE", "{")].
Proof.
  destruct (front_end_is_deterministic "if@"
              [("IF", "if"); ("IDENTIFIER", "x"); ("LBRACE", "{")])
    as [_ [HL [_ HP]]].
  split.
  - apply HL; (split; [vm_compute; discriminate|eexists; reflexivity]).
  - apply HP; (split; [vm_compute; discriminate|eexists; reflexivity]).
Defined.

(* ================================================================= *)
(** ** The parser: properties *)

Lemma nth_error_middle : forall (before : list token) tok rest,
    nth_error (before ++ tok :: rest) (length before) = Some tok.
Proof.
  intros before tok rest. rewrite nth_error_app2 by lia.
  rewrite Nat.sub_diag. reflexivity.
Qed.

(** What [consume] does, case by case. *)
Lemma consume_spec : forall tokens token_type i,
    consume tokens token_type i =
    match nth_error tokens i with
    | Some tok =>
        if String.eqb (fst tok) token_type
        then Return (tok, S i)
        else Raise (ParserExpected token_type (Some tok))
    | None => Raise (ParserExpected token_type None)
    end.
Proof.
  intros tokens token_type i. unfold consume, bind, peek.
  destruct (nth_error tokens i) as [tok|]; [|reflexivity].
  destruct (String.eqb (fst tok) token_type); reflexivity.
Qed.

(** C2. [peek] is defined without a parameter: called as [peek()] it
    returns the token under the cursor, and [None] past the end; the
    call [peek(1)] that [parse_statement] makes on a statement that
    begins with an identifier is a [TypeError], whatever the tokens
    are.  [consume] returns the token under the cursor and moves one
    token forward when its kind is the expected one, and raises
    otherwise. *)
Theorem peek_offset_is_a_type_error :
  (forall tokens x args i,
      call_peek tokens (x :: args) i =
      Raise (TypeErrorPeekArgs (S (length args)))) /\
  (forall tokens i,
      call_peek tokens [] i = Return (nth_error tokens i, i)) /\
  (forall before name rest fuel,
      parse_statement (before ++ ("IDENTIFIER", name) :: rest) (S fuel)
        (length before) = Raise (TypeErrorPeekArgs 1)) /\
  (forall tokens token_type i,
      consume tokens token_type i =
      match nth_error tokens i with
      | Some tok =>
          if String.eqb (fst tok) token_type
          then Return (tok, S i)
          else Raise (ParserExpected token_type (Some tok))
      | None => Raise (ParserExpected token_type None)
      end) /\
  lexer call_in_body =
    Return [("IF", "if"); ("STRING", quoted "c"); ("LBRACE", "{");
            ("IDENTIFIER", "say"); ("LPAREN", "("); ("RPAREN", ")");
            ("RBRACE", "}")] /\
  front_end call_in_body = Raise (TypeErrorPeekArgs 1).
Proof.
  repeat split; try (vm_compute; reflexivity).
  - intros before name rest fuel. simpl. unfold bind, peek.
    rewrite nth_error_middle. reflexivity.
  - exact consume_spec.
Qed.

(** C1. What the code does with a variable declaration.  The tokenizer
    turns the text of a declaration into one VARIABLE token, and [parse]
    then asks for an IDENTIFIER that is not there.  On the tokens
    [parse_variable] asks for, the top-level path returns the VARIABLE
    node with the payload (name, annotation, value), and
    [parse_assignment] returns an ASSIGNMENT node around it and needs the
    SEMICOLON.  In a body, a statement that begins with an identifier
    never reaches [parse_assignment]: [parse_statement] raises a
    [TypeError] first, and [parse_assignment] itself would raise on the
    identifier, since it asks for a VARIABLE token. *)
Theorem variable_declaration_paths :
  (lexer decl = Return [("VARIABLE", decl)] /\
   front_end decl = Raise (ParserExpected "IDENTIFIER" None)) /\
  (forall name value,
      parse (declaration_tokens name value) =
      Return [mkNode "VARIABLE" [] (VarValue name None (VStr value))]) /\
  (forall name type value,
      parse [("VARIABLE", "variable"); ("IDENTIFIER", name);
             ("ARROW", "->"); ("IDENTIFIER", type); ("EQUALS", "=");
             ("STRING", value)] =
      Return [mkNode "VARIABLE" []
                (VarValue name (Some type) (VStr value))]) /\
  (forall name value,
      parse_assignment
        (declaration_tokens name value ++ [("SEMICOLON", ";")]) 0 =
      Return (mkNode "ASSIGNMENT"
                [mkNode "VARIABLE" [] (VarValue name None (VStr value))]
                NoValue, 5) /\
      parse_assignment (declaration_tokens name value) 0 =
      Raise (ParserExpected "SEMICOLON" None)) /\
  (forall name value,
      parse (assignment_in_body name value) =
      Raise (TypeErrorPeekArgs 1)) /\
  (forall before name rest,
      parse_assignment (before ++ ("IDENTIFIER", name) :: rest)
        (length before) =
      Raise (ParserExpected "VARIABLE" (Some ("IDENTIFIER", name)))) /\
  front_end declaration_in_body =
  Raise (ParserUnexpectedToken ("VARIABLE", decl)).
Proof.
  repeat split; try (vm_compute; reflexivity).
  intros before name rest.
  unfold parse_assignment, parse_variable, bind at 1 2.
  rewrite consume_spec, nth_error_middle. reflexivity.
Qed.

(** *** The rule for calls *)

Lemma bind_run : forall A B (m : M A) (k : A -> M B) i a j,
    m i = Return (a, j) -> bind m k i = k a j.
Proof. intros A B m k i a j H. unfold bind. rewrite H. reflexivity. Qed.

Lemma skipn_cons : forall (l : list token) i x r,
    skipn i l = x :: r -> nth_error l i = Some x /\ skipn (S i) l = r.
Proof.
  induction l as [|y l IH]; intros [|i] x r H; simpl in H;
    try discriminate.
  - injection H as -> ->. split; reflexivity.
  - apply IH in H. exact H.
Qed.

Lemma peek_run : forall (tokens : list token) i t,
    nth_error tokens i = Some t -> peek tokens i = Return (Some t, i).
Proof. intros tokens i t H. unfold peek. rewrite H. reflexivity. Qed.

Lemma item0_run : forall (t : token) i,
    item0 (Some t) i = Return (fst t, i).
Proof. reflexivity. Qed.

Lemma consume_run : forall (tokens : list token) i kind lexeme,
    nth_error tokens i = Some (kind, lexeme) ->
    consume tokens kind i = Return ((kind, lexeme), S i).
Proof.
  intros tokens i kind lexeme H. rewrite consume_spec, H. simpl.
  rewrite String.eqb_refl. reflexivity.
Qed.

Lemma parse_expression_run : forall (tokens : list token) i t,
    nth_error tokens i = Some t ->
    is_expression_token t = true ->
    parse_expression tokens i = Return (expression_node t, S i).
Proof.
  intros tokens i [k v] Hn H. unfold is_expression_token in H.
  simpl in H. unfold parse_expression.
  rewrite (bind_run _ _ _ _ _ _ _ (peek_run _ _ _ Hn)).
  rewrite (bind_run _ _ _ _ _ _ _ (item0_run _ _)). cbn [fst].
  destruct (String.eqb k "IDENTIFIER") eqn:E.
  - apply String.eqb_eq in E. subst k. cbv iota.
    unfold parse_identifier.
    rewrite (bind_run _ _ _ _ _ _ _ (consume_run _ _ _ _ Hn)).
    reflexivity.
  - simpl in H. rewrite H. apply String.eqb_eq in H. subst k.
    cbv iota. unfold parse_string.
    rewrite (bind_run _ _ _ _ _ _ _ (consume_run _ _ _ _ Hn)).
    reflexivity.
Qed.

Lemma more_arguments_length : forall args,
    length (more_arguments args) = 2 * length args.
Proof.
  unfold more_arguments.
  induction args as [|a args IH]; simpl; [reflexivity|].
  rewrite IH. lia.
Qed.

(** The loop over the further arguments takes them all, in order. *)
Lemma parse_arguments_loop_all : forall args tokens i acc fuel rest,
    skipn i tokens = more_arguments args ++ ("RPAREN", ")") :: rest ->
    forallb is_expression_token args = true ->
    length args < fuel ->
    parse_arguments_loop tokens fuel acc i =
    Return (acc ++ map expression_node args, i + 2 * length args).
Proof.
  induction args as [|a args IH]; intros tokens i acc fuel rest Hs Hall Hf;
    (destruct fuel as [|fuel]; [simpl in Hf; lia|]).
  - simpl in Hs. apply skipn_cons in Hs. destruct Hs as [Hn _].
    simpl parse_arguments_loop.
    rewrite (bind_run _ _ _ _ _ _ _ (peek_run _ _ _ Hn)).
    rewrite (bind_run _ _ _ _ _ _ _ (item0_run _ _)). cbn [fst].
    simpl. rewrite app_nil_r, Nat.add_0_r. reflexivity.
  - simpl in Hall. apply andb_true_iff in Hall. destruct Hall as [Ha Hall].
    change (more_arguments (a :: args))
      with (("SEMICOLON", ";") :: a :: more_arguments args) in Hs.
    simpl in Hs. apply skipn_cons in Hs. destruct Hs as [Hn Hs].
    apply skipn_cons in Hs. destruct Hs as [Hn' Hs].
    simpl parse_arguments_loop.
    rewrite (bind_run _ _ _ _ _ _ _ (peek_run _ _ _ Hn)).
    rewrite (bind_run _ _ _ _ _ _ _ (item0_run _ _)). cbn [fst].
    rewrite String.eqb_refl. cbv iota.
    rewrite (bind_run _ _ _ _ _ _ _ (consume_run _ _ _ _ Hn)).
    rewrite (bind_run _ _ _ _ _ _ _ (parse_expression_run _ _ _ Hn' Ha)).
    rewrite (IH tokens (S (S i)) _ fuel rest Hs Hall)
      by (simpl in Hf; lia).
    rewrite <- app_assoc. simpl. f_equal. f_equal. lia.
Qed.

(** What [parse_function_call] returns on a call with any number of
    arguments: the FUNCTION_CALL node whose children are the IDENTIFIER
    node of the name and the nodes of the arguments, in order. *)
Lemma parse_function_call_all : forall name args rest fuel,
    forallb is_expression_token args = true ->
    length args <= fuel ->
    parse_function_call (call_with name args ++ rest) fuel 0 =
    Return (mkNode "FUNCTION_CALL"
              (mkNode "IDENTIFIER" [] (StrValue name)
               :: map expression_node args) NoValue,
            length (call_with name args)).
Proof.
  intros name [|a args] rest fuel Hall Hf.
  - reflexivity.
  - simpl in Hall. apply andb_true_iff in Hall. destruct Hall as [Ha Hall].
    assert (Hk : String.eqb (fst a) "RPAREN" = false).
    { unfold is_expression_token in Ha.
      destruct (String.eqb (fst a) "IDENTIFIER") eqn:E.
      - apply String.eqb_eq in E. rewrite E. reflexivity.
      - simpl in Ha. apply String.eqb_eq in Ha. rewrite Ha. reflexivity. }
    set (tokens := call_with name (a :: args) ++ rest).
    assert (H0 : nth_error tokens 0 = Some ("IDENTIFIER", name))
      by reflexivity.
    assert (H1 : nth_error tokens 1 = Some ("LPAREN", "("))
      by reflexivity.
    assert (H2 : nth_error tokens 2 = Some a) by reflexivity.
    assert (H3 : skipn 3 tokens =
                 more_arguments args ++ ("RPAREN", ")") :: rest).
    { unfold tokens, call_with. simpl. rewrite <- app_assoc.
      reflexivity. }
    assert (H4 : nth_error tokens (3 + 2 * length args) =
                 Some ("RPAREN", ")")).
    { rewrite <- nth_error_skipn, H3, <- more_arguments_length.
      apply nth_error_middle. }
    unfold parse_function_call.
    rewrite (bind_run _ _ _ _ _ _ _ (consume_run _ _ _ _ H0)).
    rewrite (bind_run _ _ _ _ _ _ _ (consume_run _ _ _ _ H1)).
    rewrite (bind_run _ _ _ _ _ _ _ (peek_run _ _ _ H2)).
    rewrite (bind_run _ _ _ _ _ _ _ (item0_run _ _)). cbn [fst].
    rewrite Hk. simpl negb. cbv iota.
    assert (Hargs :
              (arg <- parse_expression tokens ;;
               parse_arguments_loop tokens fuel ([] ++ [arg])) 2 =
              Return (map expression_node (a :: args),
                      3 + 2 * length args)).
    { rewrite (bind_run _ _ _ _ _ _ _
                 (parse_expression_run _ _ _ H2 Ha)).
      rewrite (parse_arguments_loop_all args tokens 3 _ fuel rest H3 Hall)
        by (simpl in Hf; lia).
      reflexivity. }
    rewrite (bind_run _ _ _ _ _ _ _ Hargs).
    rewrite (bind_run _ _ _ _ _ _ _ (consume_run _ _ _ _ H4)).
    unfold ret, new_Node, call_with. simpl.
    rewrite length_app, more_arguments_length. simpl.
    f_equal. f_equal. lia.
Qed.

(** C4, as stated, fails: the text of the call holds a blank after [;],
    at offset 9, where no rule matches; it is not tokenized and nothing
    is parsed. *)
Lemma say_call_is_not_tokenized :
  lexer say_call = Raise (LexerError 9) /\
  front_end say_call = Raise (LexerError 9) /\
  ~ exists ast, front_end say_call = Return ast.
Proof.
  assert (E : front_end say_call = Raise (LexerError 9))
    by (vm_compute; reflexivity).
  split; [vm_compute; reflexivity|]. split; [exact E|].
  intros [ast H]. rewrite E in H. discriminate.
Qed.

(** C4, amended. Written with no blank after [;], the call is tokenized
    into IDENTIFIER, LPAREN, STRING, SEMICOLON, STRING, RPAREN.  The rule
    for calls, [parse_function_call], run on the tokens of a call with
    any number of arguments separated by semicolons, each an identifier
    or a string, returns a FUNCTION_CALL node whose children are the
    IDENTIFIER node of the name and then the nodes of the arguments, in
    order; for the tokens of the call of [say] these are the IDENTIFIER
    node of [say] and the STRING nodes of the two arguments, whose
    lexemes keep their quotes.  With the blank the text is not tokenized
    (lexical error at offset 9), and at top level a token sequence that
    begins with an identifier is an unexpected token. *)
Theorem function_call_rule_on_say :
  lexer dense_say_call = Return say_tokens /\
  (forall name args rest fuel,
      forallb is_expression_token args = true ->
      length args <= fuel ->
      parse_function_call (call_with name args ++ rest) fuel 0 =
      Return (mkNode "FUNCTION_CALL"
                (mkNode "IDENTIFIER" [] (StrValue name)
                 :: map expression_node args) NoValue,
              length (call_with name args))) /\
  (forall fuel,
      parse_function_call say_tokens (S (S fuel)) 0 =
      Return (mkNode "FUNCTION_CALL"
                [ mkNode "IDENTIFIER" [] (StrValue "say");
                  mkNode "STRING" [] (StrValue (quoted "hi"));
                  mkNode "STRING" [] (StrValue (quoted "there")) ]
                NoValue, 6)) /\
  lexer say_call = Raise (LexerError 9) /\
  (forall name args,
      parse (call_with name args) =
      Raise (ParserUnexpectedToken ("IDENTIFIER", name))).
Proof.
  split; [vm_compute; reflexivity|].
  split; [exact parse_function_call_all|].
  split; [intros fuel; vm_compute; reflexivity|].
  split; [vm_compute; reflexivity|].
  intros name args. reflexivity.
Qed.

Lemma function_call_rule_on_say_witness :
  forallb is_expression_token
    [("STRING", quoted "hi"); ("STRING", quoted "there")] = true /\
  parse_function_call say_tokens 2 0 =
  Return (mkNode "FUNCTION_CALL"
            [ mkNode "IDENTIFIER" [] (StrValue "say");
              mkNode "STRING" [] (StrValue (quoted "hi"));
              mkNode "STRING" [] (StrValue (quoted "there")) ]
            NoValue, 6).
Proof.
  split; [reflexivity|].
  destruct function_call_rule_on_say as [_ [H _]].
  exact (H "say" [("STRING", quoted "hi"); ("STRING", quoted "there")]
           [] 2 eq_refl (le_n 2)).
Defined.

(** C6, as stated, fails on its sample: the text [if x { ] is refused
    by the tokenizer, at the blank at offset 2, so what is raised is the
    lexical error and not a parse error. *)
Lemma unterminated_sample_fails_in_lexer :
  lexer "if x { " = Raise (LexerError 2) /\
  front_end "if x { " = Raise (LexerError 2).
Proof. split; vm_compute; reflexivity. Qed.

(** A body that returns has consumed a closing brace after its opening
    brace. *)
Lemma parse_body_return : forall tokens fuel i node k,
    parse_body tokens fuel i = Return (node, k) ->
    exists j tok, i < j /\ nth_error tokens j = Some tok /\
                  fst tok = "RBRACE".
Proof.
  intros tokens [|fuel] i node k H; [discriminate|]. simpl in H.
  apply bind_return in H. destruct H as [t [i1 [H1 H]]].
  apply consume_return in H1. destruct H1 as [_ [_ ->]].
  apply bind_return in H. destruct H as [sts [i2 [H2 H]]].
  apply adv_parse_body_loop in H2.
  apply bind_return in H. destruct H as [t' [i3 [H3 _]]].
  apply consume_return in H3. destruct H3 as [H3 [H4 _]].
  exists i2, t'. repeat split; [lia|exact H3|exact H4].
Qed.

(** C6, amended. When the tokens run out inside a body before a closing
    brace, parsing fails and returns no tree: [parse] raises on every
    token sequence that holds more opening than closing braces; a body
    with no RBRACE token after its opening brace raises; and when the
    loop over the statements of the body stops at the end of the tokens,
    what is raised is the parse error that expected RBRACE and found
    nothing.  The text [if x { ] never succeeds: the tokenizer refuses
    it at offset 2; its tokens without blanks, IF, IDENTIFIER, LBRACE,
    fail with that parse error. *)
Theorem unterminated_body_fails :
  (forall tokens,
      count_kind "RBRACE" tokens < count_kind "LBRACE" tokens ->
      exists e, parse tokens = Raise e) /\
  (forall tokens fuel i,
      (forall j tok, i < j -> nth_error tokens j = Some tok ->
                     fst tok <> "RBRACE") ->
      2 * (length tokens - i) + 4 <= fuel ->
      exists e, parse_body tokens fuel i = Raise e) /\
  (forall tokens fuel i statements j,
      parse_body_loop tokens fuel [] (S i) = Return (statements, j) ->
      length tokens <= j ->
      (exists tok, nth_error tokens i = Some tok /\ fst tok = "LBRACE") ->
      parse_body tokens (S fuel) i = Raise (ParserExpected "RBRACE" None))
  /\
  parse [("IF", "if"); ("IDENTIFIER", "x"); ("LBRACE", "{")] =
    Raise (ParserExpected "RBRACE" None) /\
  (forall ast, front_end "if x { " <> Return ast).
Proof.
  split; [|split; [|split; [|split]]].
  - intros tokens H. pose proof (parse_terminates tokens) as T.
    destruct (parse tokens) as [ast|e|] eqn:E.
    + apply parse_return_balanced in E. lia.
    + exists e. reflexivity.
    + exfalso. apply T. reflexivity.
  - intros tokens fuel i Hno Hf.
    pose proof (proj1 (proj2 (proj2 (safe_mutual tokens fuel))) i Hf)
      as Hsafe.
    destruct (parse_body tokens fuel i) as [[node k]|e|] eqn:E.
    + exfalso. apply parse_body_return in E.
      destruct E as [j [tok [Hlt [Hn Hk]]]].
      exact (Hno j tok Hlt Hn Hk).
    + exists e. reflexivity.
    + exfalso. apply Hsafe. reflexivity.
  - intros tokens fuel i statements j Hloop Hend [tok [Hn Hk]].
    simpl. unfold bind at 1. rewrite consume_spec, Hn.
    apply String.eqb_eq in Hk. rewrite Hk.
    unfold bind at 1. rewrite Hloop.
    unfold bind at 1. rewrite consume_spec.
    assert (Hnone : nth_error tokens j = None)
      by (apply nth_error_None; exact Hend).
    rewrite Hnone. reflexivity.
  - vm_compute. reflexivity.
  - intros ast. vm_compute. discriminate.
Qed.

Lemma unterminated_body_fails_witness :
  (exists e,
      parse [("IF", "if"); ("STRING", "c"); ("LBRACE", "{");
             ("IF", "if")] = Raise e) /\
  (exists e,
      parse_body [("IF", "if"); ("IDENTIFIER", "x"); ("LBRACE", "{")]
        10 2 = Raise e) /\
  parse_body [("IF", "if"); ("IDENTIFIER", "x"); ("LBRACE", "{")] 10 2 =
  Raise (ParserExpected "RBRACE" None).
Proof.
  destruct unterminated_body_fails as [H0 [H1 [H2 _]]].
  split; [|split].
  - apply H0. vm_compute. lia.
  - apply H1.
    + intros j tok Hlt Hn.
      destruct j as [|[|[|j]]]; try lia;
        destruct j; simpl in Hn; discriminate.
    + simpl. lia.
  - apply (H2 _ 9 2 [] 3).
    + reflexivity.
    + simpl. lia.
    + eexists. split; reflexivity.
Defined.

(* ================================================================= *)
(** ** Further properties of the front end *)

Lemma first_match_kind : forall text position kind e,
    first_match TOKEN_TYPES text position = Some (kind, e) ->
    In kind (map fst TOKEN_TYPES).
Proof.
  intros text position kind e H.
  destruct (first_match_in _ _ _ _ _ H) as [pattern [Hin _]].
  change kind with (fst (kind, pattern)). apply in_map. exact Hin.
Qed.

Lemma emit_kinds : forall text position e kind tokens,
    In kind (map fst TOKEN_TYPES) ->
    Forall (fun t => In (fst t) emitted_kinds) tokens ->
    Forall (fun t => In (fst t) emitted_kinds)
           (emit text position e kind tokens).
Proof.
  intros text position e kind tokens Hk Ht. unfold emit.
  set (value := substring position (e - position) text).
  destruct (String.eqb kind "IDENTIFIER"
            && existsb (String.eqb value) KEYWORDS) eqn:E.
  - apply andb_true_iff in E. destruct E as [_ E].
    apply existsb_exists in E. destruct E as [k [Hin Hv]].
    apply String.eqb_eq in Hv.
    destruct (negb (String.eqb (upper value) "COMMENT")); [|exact Ht].
    apply Forall_app. split; [exact Ht|]. constructor; [|constructor].
    simpl fst. unfold emitted_kinds. apply in_or_app. right.
    rewrite Hv. apply in_map. exact Hin.
  - destruct (negb (String.eqb kind "COMMENT")) eqn:C; [|exact Ht].
    apply Forall_app. split; [exact Ht|]. constructor; [|constructor].
    simpl fst. unfold emitted_kinds. apply in_or_app. left.
    apply filter_In. split; [exact Hk|exact C].
Qed.

Lemma scan_kinds : forall text position tokens,
    scan text position tokens ->
    Forall (fun t => In (fst t) emitted_kinds) tokens.
Proof.
  intros text position tokens H. induction H; [constructor|].
  apply emit_kinds; [|assumption].
  eapply first_match_kind. eassumption.
Qed.

(** A declaration that [parse_variable] returns has consumed a token of
    kind EQUALS. *)
Lemma parse_variable_return : forall tokens i node j,
    parse_variable tokens i = Return (node, j) ->
    exists k tok, nth_error tokens k = Some tok /\ fst tok = "EQUALS".
Proof.
  intros tokens i node j H. unfold parse_variable in H.
  apply bind_return in H. destruct H as [t1 [i1 [_ H]]].
  apply bind_return in H. destruct H as [t2 [i2 [_ H]]].
  apply bind_return in H. destruct H as [t3 [i3 [_ H]]].
  apply bind_return in H. destruct H as [t4 [i4 [_ H]]].
  apply bind_return in H. destruct H as [t5 [i5 [_ H]]].
  apply bind_return in H. destruct H as [t6 [i6 [H _]]].
  apply consume_return in H. destruct H as [H1 [H2 _]].
  exists i5, t6. split; assumption.
Qed.

(** X1. The tokenizer always ends: it returns tokens or raises the
    lexical error of some position, and nothing else. *)
Theorem lexer_returns_or_raises : forall text,
    (exists tokens, lexer text = Return tokens) \/
    (exists position, lexer text = Raise (LexerError position)).
Proof.
  intros text. unfold lexer.
  assert (G : forall fuel position tokens,
             String.length text - position < fuel ->
             (exists r, lexer_loop fuel text position tokens = Return r)
             \/ (exists p, lexer_loop fuel text position tokens =
                           Raise (LexerError p))).
  { induction fuel as [|fuel IH]; intros position tokens H; [lia|].
    rewrite lexer_loop_unfold.
    destruct (position <? String.length text) eqn:L; [|eauto].
    apply Nat.ltb_lt in L.
    destruct (first_match TOKEN_TYPES text position) as [[kind e]|] eqn:E;
      [|eauto].
    apply IH. apply first_match_advances in E. lia. }
  apply G. lia.
Qed.

(** X2. The parser always ends: on every token sequence [parse] returns
    nodes or raises. *)
Theorem parse_returns_or_raises : forall tokens,
    (exists ast, parse tokens = Return ast) \/
    (exists e, parse tokens = Raise e).
Proof.
  intros tokens. pose proof (parse_terminates tokens) as H.
  destruct (parse tokens) as [ast|e|]; eauto. exfalso. apply H.
  reflexivity.
Qed.

(** X3. The kinds of the tokens [lexer] returns are the kinds of the
    table but COMMENT and the upper-cased reserved words; none is EQUALS,
    which [parse_variable] asks for: on the tokens of any text,
    [parse_variable] returns no declaration, wherever it is run. *)
Theorem no_declaration_parses_after_lexer : forall text tokens,
    lexer text = Return tokens ->
    Forall (fun t => In (fst t) emitted_kinds) tokens /\
    forall i node j, parse_variable tokens i <> Return (node, j).
Proof.
  intros text tokens H. apply lexer_return_scan in H.
  apply scan_kinds in H. split; [exact H|].
  intros i node j E. apply parse_variable_return in E.
  destruct E as [k [tok [Hn Hk]]]. apply nth_error_In in Hn.
  rewrite Forall_forall in H. specialize (H tok Hn). rewrite Hk in H.
  vm_compute in H. intuition discriminate.
Qed.

Lemma no_declaration_parses_after_lexer_witness :
  lexer decl = Return [("VARIABLE", decl)] /\
  forall i node j,
    parse_variable [("VARIABLE", decl)] i <> Return (node, j).
Proof.
  assert (E : lexer decl = Return [("VARIABLE", decl)])
    by (vm_compute; reflexivity).
  split; [exact E|].
  exact (proj2 (no_declaration_parses_after_lexer decl _ E)).
Defined.

(* ================================================================= *)
(** ** The tokenizer: lexemes *)

Lemma append_assoc : forall a b c : string,
    ((a ++ b) ++ c)%string = (a ++ (b ++ c))%string.
Proof.
  induction a as [|x a IH]; intros b c; simpl; [reflexivity|].
  rewrite IH. reflexivity.
Qed.

Lemma append_empty : forall a : string, (a ++ "")%string = a.
Proof.
  induction a as [|x a IH]; simpl; [reflexivity|]. rewrite IH.
  reflexivity.
Qed.

Lemma lexemes_app : forall l1 l2,
    lexemes (l1 ++ l2) = (lexemes l1 ++ lexemes l2)%string.
Proof.
  induction l1 as [|t l1 IH]; intros l2; simpl; [reflexivity|].
  rewrite IH, append_assoc. reflexivity.
Qed.

Lemma substring_whole : forall s, substring 0 (String.length s) s = s.
Proof.
  induction s as [|c s IH]; simpl; [reflexivity|]. rewrite IH.
  reflexivity.
Qed.

Lemma substring_split : forall s p e,
    p <= e -> e <= String.length s ->
    (substring 0 p s ++ substring p (e - p) s)%string = substring 0 e s.
Proof.
  induction s as [|c s IH]; intros p e Hpe He.
  - simpl in He. assert (e = 0) by lia. subst e.
    assert (p = 0) by lia. subst p. reflexivity.
  - destruct p as [|p].
    + rewrite Nat.sub_0_r. reflexivity.
    + destruct e as [|e]; [lia|]. simpl in He.
      change (substring 0 (S p) (String c s))
        with (String c (substring 0 p s)).
      change (substring (S p) (S e - S p) (String c s))
        with (substring p (e - p) s).
      change (substring 0 (S e) (String c s))
        with (String c (substring 0 e s)).
      simpl. rewrite IH by lia. reflexivity.
Qed.

Lemma substring_length : forall s p n,
    p + n <= String.length s -> String.length (substring p n s) = n.
Proof.
  induction s as [|c s IH]; intros p n H; simpl in H.
  - assert (p = 0) by lia. assert (n = 0) by lia. subst. reflexivity.
  - destruct p as [|p].
    + destruct n as [|n]; [reflexivity|]. simpl. rewrite IH by lia.
      reflexivity.
    + simpl. apply IH. lia.
Qed.

Lemma kept_app : forall l1 l2, kept (l1 ++ l2) = kept l1 ++ kept l2.
Proof. intros l1 l2. apply filter_app. Qed.

(* ================================================================= *)
(** ** The tokenizer: identifier tokens *)

Lemma first_match_split : forall before kind pattern rest text p e,
    first_match (before ++ (kind, pattern) :: rest) text p
    = Some (kind, e) ->
    ~ In kind (map fst before) ->
    ~ In kind (map fst rest) ->
    Forall (fun rule => re_match (snd rule) text p = None) before /\
    re_match pattern text p = Some e.
Proof.
  induction before as [|[k r] before IH];
    intros kind pattern rest text p e H Hb Hr; simpl in H.
  - split; [constructor|].
    destruct (re_match pattern text p) as [e'|]; [congruence|].
    exfalso. apply Hr.
    destruct (first_match_in _ _ _ _ _ H) as [q [Hin _]].
    change kind with (fst (kind, q)). apply in_map. exact Hin.
  - destruct (re_match r text p) as [e'|] eqn:E.
    + exfalso. apply Hb. injection H as -> _. left. reflexivity.
    + destruct (IH kind pattern rest text p e H) as [H1 H2].
      * intros Hin. apply Hb. right. exact Hin.
      * exact Hr.
      * split; [constructor; [exact E|exact H1]|exact H2].
Qed.

(** What it takes for the IDENTIFIER rule to be the first that matches:
    the rules IF, NOT and ELSE before it do not match. *)
Lemma first_match_identifier : forall text p e,
    first_match TOKEN_TYPES text p = Some ("IDENTIFIER", e) ->
    re_match (lit "if") text p = None /\
    re_match (lit "not") text p = None /\
    re_match (Alt (lit "but if") (lit "otherwise")) text p = None /\
    re_match identifier_re text p = Some e.
Proof.
  intros text p e H.
  assert (T : TOKEN_TYPES =
              firstn 8 TOKEN_TYPES ++ ("IDENTIFIER", identifier_re)
              :: skipn 9 TOKEN_TYPES) by reflexivity.
  rewrite T in H. apply first_match_split in H.
  - destruct H as [Hb Hm]. rewrite Forall_forall in Hb.
    split; [|split; [|split]]; [| | |exact Hm].
    + apply (Hb ("IF", lit "if")). unfold TOKEN_TYPES. cbn [firstn In].
      do 4 right. left. reflexivity.
    + apply (Hb ("NOT", lit "not")). unfold TOKEN_TYPES. cbn [firstn In].
      do 5 right. left. reflexivity.
    + apply (Hb ("ELSE", Alt (lit "but if") (lit "otherwise"))).
      unfold TOKEN_TYPES. cbn [firstn In].
      do 6 right. left. reflexivity.
  - unfold TOKEN_TYPES. cbn [firstn map fst In].
    intuition discriminate.
  - unfold TOKEN_TYPES. cbn [skipn map fst In].
    intuition discriminate.
Qed.

Lemma substring_cons : forall text p n a r,
    substring p n text = String a r ->
    String.get p text = Some a /\
    exists n', n = S n' /\ r = substring (S p) n' text.
Proof.
  induction text as [|c text IH]; intros p n a r H.
  - destruct p, n; discriminate.
  - destruct p as [|p].
    + destruct n as [|n]; [discriminate|]. simpl in H.
      injection H as -> <-. split; [reflexivity|].
      exists n. split; reflexivity.
    + simpl in H. apply IH in H. destruct H as [Hg [n' [-> ->]]].
      split; [exact Hg|]. exists n'. split; reflexivity.
Qed.

Lemma substring_head : forall text p n c,
    String.get p text = Some c ->
    exists rest, substring p (S n) text = String c rest.
Proof.
  induction text as [|d text IH]; intros p n c H.
  - destruct p; discriminate.
  - destruct p as [|p].
    + simpl in H. injection H as ->. simpl. eauto.
    + simpl in H. simpl. apply IH. exact H.
Qed.

(** A lexeme that begins with the word [w] is matched by the pattern of
    the word. *)
Lemma lit_matches_prefix : forall w text p n,
    prefix w (substring p n text) = true ->
    rmatch text (lit w) p = [p + String.length w].
Proof.
  intros w. induction w as [|a w IH]; intros text p n H.
  - simpl. rewrite Nat.add_0_r. reflexivity.
  - destruct (substring p n text) as [|b r] eqn:E; [discriminate|].
    simpl in H. destruct (ascii_dec a b) as [Hab|]; [subst b|discriminate].
    apply substring_cons in E. destruct E as [Hg [n' [-> ->]]].
    simpl. rewrite Hg, Ascii.eqb_refl. simpl.
    rewrite (IH _ _ _ H), app_nil_r. f_equal. lia.
Qed.

Lemma no_lit_match_no_prefix : forall w text p n,
    re_match (lit w) text p = None ->
    prefix w (substring p n text) = false.
Proof.
  intros w text p n H.
  destruct (prefix w (substring p n text)) eqn:E; [|reflexivity].
  unfold re_match in H. rewrite (lit_matches_prefix _ _ _ _ E) in H.
  discriminate.
Qed.

(** An IDENTIFIER token the loop has appended is the lexeme of a match
    of the IDENTIFIER rule, and no reserved word. *)
Lemma scan_identifiers : forall text position tokens,
    scan text position tokens ->
    Forall (fun t =>
              fst t = "IDENTIFIER" ->
              existsb (String.eqb (snd t)) KEYWORDS = false /\
              exists p e,
                p < e /\
                first_match TOKEN_TYPES text p = Some ("IDENTIFIER", e) /\
                snd t = substring p (e - p) text)
           tokens.
Proof.
  intros text position tokens H.
  induction H as [|position tokens kind e H IH Hlt Hm]; [constructor|].
  unfold emit.
  set (value := substring position (e - position) text).
  destruct (String.eqb kind "IDENTIFIER"
            && existsb (String.eqb value) KEYWORDS) eqn:E.
  - apply andb_true_iff in E. destruct E as [_ E].
    apply existsb_exists in E. destruct E as [k [Hin Hv]].
    apply String.eqb_eq in Hv.
    destruct (negb (String.eqb (upper value) "COMMENT")); [|exact IH].
    apply Forall_app. split; [exact IH|]. constructor; [|constructor].
    simpl. intros Hu. exfalso. rewrite Hv in Hu.
    simpl in Hin.
    repeat (destruct Hin as [<-|Hin]; [vm_compute in Hu; discriminate|]).
    exact Hin.
  - destruct (negb (String.eqb kind "COMMENT")); [|exact IH].
    apply Forall_app. split; [exact IH|]. constructor; [|constructor].
    simpl. intros ->. simpl in E. split; [exact E|].
    exists position, e. split; [|split; [exact Hm|reflexivity]].
    apply first_match_advances in Hm. lia.
Qed.

(** X5. An IDENTIFIER token that [lexer] returns is never a reserved
    word, and its lexeme begins with a letter or an underscore. *)
Theorem identifier_tokens_are_not_reserved : forall text tokens lexeme,
    lexer text = Return tokens ->
    In ("IDENTIFIER", lexeme) tokens ->
    ~ In lexeme KEYWORDS /\
    exists c rest, lexeme = String c rest /\ is_ident_start c = true.
Proof.
  intros text tokens lexeme H Hin. apply lexer_return_scan in H.
  apply scan_identifiers in H. rewrite Forall_forall in H.
  destruct (H _ Hin eq_refl) as [Hk [p [e [Hlt [Hm Hl]]]]].
  cbn [snd] in Hk, Hl. split.
  - intros K. assert (X : existsb (String.eqb lexeme) KEYWORDS = true).
    { apply existsb_exists. exists lexeme. split; [exact K|].
      apply String.eqb_refl. }
    rewrite X in Hk. discriminate.
  - destruct (first_match_identifier _ _ _ Hm) as [_ [_ [_ Hr]]].
    destruct (re_match_shaped _ _ _ _ Hr) as [_ [_ H3]].
    destruct (H3 Hlt) as [_ [c [Hg Hf]]].
    destruct (substring_head text p (e - p - 1) c Hg) as [rest Hs].
    replace (S (e - p - 1)) with (e - p) in Hs by lia.
    exists c, rest. split; [congruence|].
    simpl in Hf. rewrite orb_false_r in Hf. exact Hf.
Qed.

Lemma identifier_tokens_are_not_reserved_witness :
  lexer "importer" = Return [("IDENTIFIER", "importer")] /\
  In ("IDENTIFIER", "importer") [("IDENTIFIER", "importer")] /\
  ~ In "importer" KEYWORDS /\
  exists c rest, "importer" = String c rest /\ is_ident_start c = true.
Proof.
  assert (E : lexer "importer" = Return [("IDENTIFIER", "importer")])
    by (vm_compute; reflexivity).
  assert (I : In ("IDENTIFIER", "importer") [("IDENTIFIER", "importer")])
    by (left; reflexivity).
  split; [exact E|]. split; [exact I|].
  exact (identifier_tokens_are_not_reserved _ _ _ E I).
Defined.

(** X6. The first rule that matches wins, so the rules IF, NOT and ELSE
    shadow the IDENTIFIER rule: no IDENTIFIER token that [lexer] returns
    has a lexeme that begins with [if], [not] or [otherwise]; a name
    such as [iffy] or [nothing] is never one token. *)
Theorem identifier_tokens_do_not_begin_with_keywords :
  forall text tokens lexeme,
    lexer text = Return tokens ->
    In ("IDENTIFIER", lexeme) tokens ->
    prefix "if" lexeme = false /\
    prefix "not" lexeme = false /\
    prefix "otherwise" lexeme = false.
Proof.
  intros text tokens lexeme H Hin. apply lexer_return_scan in H.
  apply scan_identifiers in H. rewrite Forall_forall in H.
  destruct (H _ Hin eq_refl) as [_ [p [e [Hlt [Hm Hl]]]]].
  cbn [snd] in Hl. subst lexeme.
  destruct (first_match_identifier _ _ _ Hm) as [Hif [Hnot [Helse _]]].
  split; [|split].
  - apply no_lit_match_no_prefix. exact Hif.
  - apply no_lit_match_no_prefix. exact Hnot.
  - apply no_lit_match_no_prefix. unfold re_match in *.
    change (rmatch text (Alt (lit "but if") (lit "otherwise")) p)
      with (rmatch text (lit "but if") p
            ++ rmatch text (lit "otherwise") p) in Helse.
    destruct (rmatch text (lit "but if") p); [exact Helse|discriminate].
Qed.

Lemma identifier_tokens_do_not_begin_with_keywords_witness :
  lexer "importer" = Return [("IDENTIFIER", "importer")] /\
  prefix "if" "importer" = false /\
  prefix "not" "importer" = false /\
  prefix "otherwise" "importer" = false.
Proof.
  assert (E : lexer "importer" = Return [("IDENTIFIER", "importer")])
    by (vm_compute; reflexivity).
  split; [exact E|].
  apply (identifier_tokens_do_not_begin_with_keywords _ _ _ E).
  left. reflexivity.
Defined.

(* ================================================================= *)
(** ** The parser: the trees it returns *)

Lemma yields_bind : forall A B (P : A -> Prop) (Q : B -> Prop)
    (m : M A) (k : A -> M B),
    yields P m -> (forall a, P a -> yields Q (k a)) ->
    yields Q (bind m k).
Proof.
  intros A B P Q m k Hm Hk i b j H.
  apply bind_return in H. destruct H as [a [i' [H1 H2]]].
  exact (Hk a (Hm _ _ _ H1) _ _ _ H2).
Qed.

Lemma yields_bind_any : forall A B (Q : B -> Prop) (m : M A)
    (k : A -> M B),
    (forall a, yields Q (k a)) -> yields Q (bind m k).
Proof.
  intros A B Q m k Hk.
  apply (yields_bind _ _ (fun _ => True)); [intros i a j _; exact I|].
  intros a _. apply Hk.
Qed.

Lemma yields_bind_raise : forall A B (Q : B -> Prop) e (k : A -> M B),
    yields Q (bind (raise e) k).
Proof. intros A B Q e k i b j H. discriminate. Qed.

Lemma yields_ret : forall A (P : A -> Prop) a, P a -> yields P (ret a).
Proof. intros A P a H i b j E. injection E as <- _. exact H. Qed.

Lemma yields_raise : forall A (P : A -> Prop) e, yields P (raise e).
Proof. intros A P e i a j H. discriminate. Qed.

Lemma yields_out_of_fuel : forall A (P : A -> Prop),
    yields P out_of_fuel.
Proof. intros A P i a j H. discriminate. Qed.

Ltac split_yields :=
  repeat first
    [ apply yields_raise | apply yields_out_of_fuel
    | apply yields_bind_raise
    | assumption
    | apply yields_bind_any; intro
    | match goal with
      | |- yields _ (if ?b then _ else _) => destruct b
      | |- yields _ (match ?x with _ => _ end) => destruct x
      end ].

Lemma yields_parse_expression : forall tokens,
    yields expression_shape (parse_expression tokens).
Proof.
  intros tokens. unfold parse_expression, parse_identifier, parse_string.
  split_yields; apply yields_ret; constructor.
Qed.

Lemma yields_parse_import : forall tokens fuel (P : Node -> Prop),
    (forall v, P (mkNode "IMPORT" [] (StrValue v))) ->
    yields P (parse_import tokens fuel).
Proof.
  intros tokens fuel P H. unfold parse_import.
  split_yields. apply yields_ret. apply H.
Qed.

(** An induction principle for the statements the parser returns: what
    holds of the YEET and IMPORT leaves, and of an IF node as soon as it
    holds of the statements of its body, holds of every statement. *)
Section Statements.
Variable tokens : list token.
Variable P : Node -> Prop.
Hypothesis P_yeet : forall v, P (mkNode "YEET" [] (StrValue v)).
Hypothesis P_import : forall v, P (mkNode "IMPORT" [] (StrValue v)).
Hypothesis P_if : forall condition statements,
    expression_shape condition ->
    Forall P statements ->
    P (mkNode "IF" [condition; mkNode "BODY" statements NoValue] NoValue).

Lemma new_body : forall statements,
    new_Node "BODY" (Some statements) NoValue =
    mkNode "BODY" statements NoValue.
Proof. intros [|x l]; reflexivity. Qed.

Lemma yields_mutual : forall fuel,
    yields P (parse_statement tokens fuel) /\
    yields (fun node => exists condition statements,
                node = mkNode "IF"
                         [condition; mkNode "BODY" statements NoValue]
                         NoValue /\
                expression_shape condition /\
                Forall P statements)
           (parse_if tokens fuel) /\
    yields (fun body => exists statements,
                body = mkNode "BODY" statements NoValue /\
                Forall P statements)
           (parse_body tokens fuel) /\
    forall acc, Forall P acc ->
                yields (Forall P) (parse_body_loop tokens fuel acc).
Proof.
  induction fuel as [|fuel [IHs [IHi [IHb IHl]]]].
  - split; [|split; [|split]]; intros; apply yields_out_of_fuel.
  - split; [|split; [|split]]; [| | |intros acc Hacc]; simpl.
    + unfold parse_yeet. split_yields;
        first [ apply yields_ret; first [apply P_yeet|apply P_import]
              | intros i n j E;
                destruct (IHi _ _ _ E) as [c [st [-> [Hc Hs]]]];
                apply P_if; assumption ].
    + apply yields_bind_any. intro.
      apply (yields_bind _ _ expression_shape);
        [apply yields_parse_expression|]. intros c Hc.
      apply (yields_bind _ _ _ _ _ _ IHb).
      intros b [statements [-> Hs]]. apply yields_ret.
      exists c, statements. split; [reflexivity|]. split; assumption.
    + apply yields_bind_any. intro.
      apply (yields_bind _ _ _ _ _ _ (IHl [] (Forall_nil P))).
      intros statements Hs. apply yields_bind_any. intro.
      apply yields_ret. exists statements. split; [apply new_body|].
      exact Hs.
    + apply yields_bind_any. intros [tok|].
      * destruct (negb (String.eqb (fst tok) "RBRACE")).
        -- apply (yields_bind _ _ _ _ _ _ IHs). intros st Hst.
           apply IHl. apply Forall_app. split; [exact Hacc|].
           constructor; [exact Hst|constructor].
        -- apply yields_ret. exact Hacc.
      * apply yields_ret. exact Hacc.
Qed.

End Statements.

Lemma yields_parse_if : forall tokens fuel,
    yields top_shape (parse_if tokens fuel).
Proof.
  intros tokens fuel.
  destruct (yields_mutual tokens statement_shape yeet_shape import_shape
              if_shape fuel) as [_ [H _]].
  intros i a j E. destruct (H _ _ _ E) as [c [st [-> [Hc Hs]]]].
  apply top_if_shape; assumption.
Qed.

Lemma yields_parse_loop : forall tokens fuel ast,
    Forall top_shape ast ->
    yields (Forall top_shape) (parse_loop tokens fuel ast).
Proof.
  intros tokens. induction fuel as [|fuel IH]; intros ast Hast.
  - apply yields_out_of_fuel.
  - simpl. apply yields_bind_any. intros [tok|].
    + assert (G : forall (m : M Node),
                 yields top_shape m ->
                 yields (Forall top_shape)
                        (n <- m ;; parse_loop tokens fuel (ast ++ [n]))).
      { intros m Hm. apply (yields_bind _ _ _ _ _ _ Hm). intros n Hn.
        apply IH. apply Forall_app. split; [exact Hast|].
        constructor; [exact Hn|constructor]. }
      repeat match goal with
             | |- yields _ (if ?b then _ else _) => destruct b
             end.
      * apply yields_bind_any. intro. apply IH. exact Hast.
      * apply G. unfold parse_class. split_yields. apply yields_ret.
        constructor.
      * apply G. unfold parse_variable. split_yields;
          apply yields_ret; constructor.
      * apply G. unfold parse_function. split_yields. apply yields_ret.
        constructor.
      * apply G. apply yields_parse_if.
      * apply yields_bind_any. intro. apply IH. exact Hast.
      * apply G. apply yields_parse_import. constructor.
      * apply yields_raise.
    + apply yields_ret. exact Hast.
Qed.

Lemma parse_return_shapes : forall tokens ast,
    parse tokens = Return ast -> Forall top_shape ast.
Proof.
  intros tokens ast H. unfold parse, parse_fuel in H.
  destruct (parse_loop tokens (enough tokens) [] 0) as [[a j]| |] eqn:E;
    try discriminate.
  injection H as <-.
  exact (yields_parse_loop tokens _ [] (Forall_nil _) _ _ _ E).
Qed.

(** X7. The shape of what [parse] returns, on every token sequence: each
    node of the top level is a CLASS, FUNCTION, VARIABLE or IMPORT leaf,
    or an IF node with exactly two children, an IDENTIFIER or STRING
    leaf and a BODY; the statements of a body are YEET and IMPORT leaves
    and IF nodes of the same shape.  No FUNCTION_CALL and no ASSIGNMENT
    node is ever returned. *)
Theorem parse_returns_shaped_trees : forall tokens ast,
    parse tokens = Return ast -> Forall top_shape ast.
Proof. exact parse_return_shapes. Qed.

Lemma parse_returns_shaped_trees_witness :
  parse [("IF", "if"); ("STRING", "c"); ("LBRACE", "{");
         ("YEET", "yeet"); ("STRING", "boom"); ("SEMICOLON", ";");
         ("RBRACE", "}")] =
  Return [mkNode "IF"
            [mkNode "STRING" [] (StrValue "c");
             mkNode "BODY" [mkNode "YEET" [] (StrValue "boom")] NoValue]
            NoValue] /\
  Forall top_shape
    [mkNode "IF"
       [mkNode "STRING" [] (StrValue "c");
        mkNode "BODY" [mkNode "YEET" [] (StrValue "boom")] NoValue]
       NoValue].
Proof.
  assert (E : parse [("IF", "if"); ("STRING", "c"); ("LBRACE", "{");
                     ("YEET", "yeet"); ("STRING", "boom");
                     ("SEMICOLON", ";"); ("RBRACE", "}")] =
              Return [mkNode "IF"
                        [mkNode "STRING" [] (StrValue "c");
                         mkNode "BODY"
                           [mkNode "YEET" [] (StrValue "boom")] NoValue]
                        NoValue]) by (vm_compute; reflexivity).
  split; [exact E|]. exact (parse_returns_shaped_trees _ _ E).
Defined.

(** Induction on the shape of a statement, the statements of the body of
    an IF node included. *)
Lemma statement_shape_induction : forall P : Node -> Prop,
    (forall v, P (mkNode "YEET" [] (StrValue v))) ->
    (forall v, P (mkNode "IMPORT" [] (StrValue v))) ->
    (forall condition statements,
        expression_shape condition ->
        Forall P statements ->
        P (mkNode "IF" [condition; mkNode "BODY" statements NoValue]
             NoValue)) ->
    forall n, statement_shape n -> P n.
Proof.
  intros P Hy Hi Hif. fix IH 2. intros n H.
  destruct H as [v|v|c statements Hc Hs].
  - apply Hy.
  - apply Hi.
  - apply Hif; [exact Hc|].
    induction Hs as [|x l Hx Hl IHl]; constructor;
      [apply IH; exact Hx|exact IHl].
Qed.

(* ================================================================= *)
(** ** [compile_file] *)

Lemma report_node_top : forall node said,
    top_shape node ->
    report_node node said =
    (said,
     (if String.eqb (node_type node) "IMPORT"
      then [fstring "Importing: " (node_value node) ""] else [],
      Finished)).
Proof.
  intros node said H. destruct H; unfold report_node; simpl;
    rewrite orb_false_r; reflexivity.
Qed.

Lemma report_loop_top : forall ast said,
    Forall top_shape ast ->
    report_loop ast said = (said, (import_lines ast, Finished)).
Proof.
  induction ast as [|node ast IH]; intros said H; [reflexivity|].
  inversion H as [|x l Hn Hl]; subst. simpl.
  rewrite (report_node_top _ _ Hn), (IH said Hl). reflexivity.
Qed.

Lemma import_lines_are_imports : forall ast line,
    Forall top_shape ast ->
    In line (import_lines ast) ->
    exists module_name,
      In (mkNode "IMPORT" [] (StrValue module_name)) ast /\
      line = Line ("Importing: " ++ module_name).
Proof.
  intros ast line H Hin. unfold import_lines in Hin.
  apply in_flat_map in Hin. destruct Hin as [node [Hn Hl]].
  rewrite Forall_forall in H. specialize (H node Hn).
  destruct H; simpl in Hl; try contradiction.
  destruct Hl as [<-|[]]. exists v. split; [exact Hn|].
  unfold fstring. rewrite append_empty. reflexivity.
Qed.

Lemma compile_file_formula : forall text,
    compile_file text =
    match front_end text with
    | Return ast =>
        (import_lines ast ++ [Line "Contents of the file:"; Line text],
         Finished)
    | Raise e => ([], Faulted (FrontEnd e))
    | OutOfFuel => ([], Unfinished)
    end.
Proof.
  intros text. unfold compile_file, front_end.
  destruct (lexer text) as [tokens|e|]; try reflexivity.
  destruct (parse tokens) as [ast|e|] eqn:P; try reflexivity.
  rewrite (report_loop_top ast false (parse_return_shapes _ _ P)).
  reflexivity.
Qed.

(** X8. What [compile_file] prints, for every text.  When the tokenizer
    or the parser raises, nothing is printed.  Otherwise it prints one
    line [Importing: name] for each IMPORT node of the top level, in
    order, and then always [Contents of the file:] and the text: no
    tree the parser returns holds a call at top level, so the branch
    that reports a call of [say] is never taken. *)
Theorem compile_file_never_reports_say : forall text,
    compile_file text =
    match front_end text with
    | Return ast =>
        (import_lines ast ++ [Line "Contents of the file:"; Line text],
         Finished)
    | Raise e => ([], Faulted (FrontEnd e))
    | OutOfFuel => ([], Unfinished)
    end /\
    forall line,
      In line (fst (compile_file text)) ->
      line = Line "Contents of the file:" \/ line = Line text \/
      exists module_name, line = Line ("Importing: " ++ module_name).
Proof.
  intros text. split; [apply compile_file_formula|].
  intros line Hin. rewrite compile_file_formula in Hin.
  unfold front_end in Hin.
  destruct (lexer text) as [tokens|e|]; try contradiction.
  destruct (parse tokens) as [ast|e|] eqn:P; try contradiction.
  simpl in Hin. apply in_app_or in Hin. destruct Hin as [Hin|Hin].
  - right. right.
    destruct (import_lines_are_imports _ _
                (parse_return_shapes _ _ P) Hin) as [m [_ Hm]].
    exists m. exact Hm.
  - destruct Hin as [<-|[<-|[]]]; auto.
Qed.

Lemma compile_file_never_reports_say_witness :
  In (Line "Importing: x") (fst (compile_file "import/**/x;")) /\
  (Line "Importing: x" = Line "Contents of the file:" \/
   Line "Importing: x" = Line "import/**/x;" \/
   exists module_name,
     Line "Importing: x" = Line ("Importing: " ++ module_name)).
Proof.
  assert (I : In (Line "Importing: x") (fst (compile_file "import/**/x;")))
    by (vm_compute; left; reflexivity).
  split; [exact I|].
  exact (proj2 (compile_file_never_reports_say "import/**/x;") _ I).
Defined.

(* ================================================================= *)
(** ** The executor *)

(** On an IF node, a turn of the loop of [execute_ast] is
    [execute_if_statement]. *)
Lemma execute_node_if : forall children value,
    execute_node (mkNode "IF" children value) =
    execute_if_statement (mkNode "IF" children value).
Proof.
  intros [|condition [|[t statements v] rest]] value; reflexivity.
Qed.

Lemma execute_ast_finishes : forall ast,
    Forall (fun n => snd (execute_node n) = Finished) ast ->
    snd (execute_ast ast) = Finished.
Proof.
  induction ast as [|n ast IH]; intros H; [reflexivity|].
  inversion H as [|x l Hn Hl]; subst. simpl.
  destruct (execute_node n) as [out ending]. simpl in Hn. subst ending.
  simpl. apply IH. exact Hl.
Qed.

Lemma statement_finishes : forall n,
    statement_shape n -> snd (execute_node n) = Finished.
Proof.
  apply statement_shape_induction; try reflexivity.
  intros condition statements Hc Hs. rewrite execute_node_if.
  unfold execute_if_statement. simpl.
  destruct (payload_is (node_value condition) "true"); [|reflexivity].
  apply execute_ast_finishes. exact Hs.
Qed.

(** X9. The executor never fails on what the parser returns: for every
    token sequence on which [parse] returns, [execute_ast] runs to its
    end, with no index out of range and without the exception of
    [execute_function_call]. *)
Theorem execute_ast_finishes_on_parsed : forall tokens ast,
    parse tokens = Return ast -> snd (execute_ast ast) = Finished.
Proof.
  intros tokens ast H. apply parse_return_shapes in H.
  apply execute_ast_finishes.
  eapply Forall_impl; [|exact H]. intros n Hn.
  destruct Hn; try reflexivity.
  apply statement_finishes. constructor; assumption.
Qed.

Lemma execute_ast_finishes_on_parsed_witness :
  parse [("IF", "if"); ("IDENTIFIER", "true"); ("LBRACE", "{");
         ("YEET", "yeet"); ("STRING", "boom"); ("SEMICOLON", ";");
         ("IF", "if"); ("STRING", "c"); ("LBRACE", "{"); ("RBRACE", "}");
         ("RBRACE", "}"); ("CLASS", "class A"); ("IDENTIFIER", "B")] =
    Return [mkNode "IF"
              [mkNode "IDENTIFIER" [] (StrValue "true");
               mkNode "BODY"
                 [mkNode "YEET" [] (StrValue "boom");
                  mkNode "IF"
                    [mkNode "STRING" [] (StrValue "c");
                     mkNode "BODY" [] NoValue]
                    NoValue]
                 NoValue]
              NoValue;
            mkNode "CLASS" [] (StrValue "B")] /\
  snd (execute_ast
         [mkNode "IF"
            [mkNode "IDENTIFIER" [] (StrValue "true");
             mkNode "BODY"
               [mkNode "YEET" [] (StrValue "boom");
                mkNode "IF"
                  [mkNode "STRING" [] (StrValue "c");
                   mkNode "BODY" [] NoValue]
                  NoValue]
               NoValue]
            NoValue;
          mkNode "CLASS" [] (StrValue "B")]) = Finished.
Proof.
  assert (E : parse [("IF", "if"); ("IDENTIFIER", "true"); ("LBRACE", "{");
                     ("YEET", "yeet"); ("STRING", "boom");
                     ("SEMICOLON", ";");
                     ("IF", "if"); ("STRING", "c"); ("LBRACE", "{");
                     ("RBRACE", "}");
                     ("RBRACE", "}"); ("CLASS", "class A");
                     ("IDENTIFIER", "B")] =
              Return [mkNode "IF"
                        [mkNode "IDENTIFIER" [] (StrValue "true");
                         mkNode "BODY"
                           [mkNode "YEET" [] (StrValue "boom");
                            mkNode "IF"
                              [mkNode "STRING" [] (StrValue "c");
                               mkNode "BODY" [] NoValue]
                              NoValue]
                           NoValue]
                        NoValue;
                      mkNode "CLASS" [] (StrValue "B")])
    by (vm_compute; reflexivity).
  split; [exact E|]. exact (execute_ast_finishes_on_parsed _ _ E).
Defined.

(* ================================================================= *)
(** ** A call, as the two callers see it *)

(** X10. The node that [parse_function_call] builds for a call
    [name(arg; ...)], given to the executor: a call of [say] with one
    argument prints [Saying:] and the lexeme of the argument, be it a
    string or an identifier; with no or several arguments it raises;
    a call of another name prints that the function is unknown. *)
Theorem executed_call : forall name args rest fuel,
    forallb is_expression_token args = true ->
    length args <= fuel ->
    exists node j,
      parse_function_call (call_with name args ++ rest) fuel 0 =
      Return (node, j) /\
      execute_function_call node =
      if String.eqb name "say" then
        match args with
        | [argument] =>
            ([Line ("Saying: " ++ snd argument)], Finished)
        | _ => ([], Faulted SayArguments)
        end
      else
        ([Line ("Error: Unknown function '" ++ name ++ "'")], Finished).
Proof.
  intros name args rest fuel Hall Hf.
  eexists. eexists. split.
  - apply parse_function_call_all; assumption.
  - unfold execute_function_call. simpl.
    destruct (String.eqb name "say"); [|reflexivity].
    destruct args as [|a [|b args]]; try reflexivity.
    simpl. unfold fstring. simpl. rewrite append_empty. reflexivity.
Qed.

Lemma executed_call_witness :
  exists node j,
    parse_function_call
      (call_with "say" [("STRING", quoted "hi")] ++ []) 1 0 =
    Return (node, j) /\
    execute_function_call node =
    ([Line ("Saying: " ++ quoted "hi")], Finished).
Proof.
  exact (executed_call "say" [("STRING", quoted "hi")] [] 1
           eq_refl (le_n 1)).
Defined.

(* ================================================================= *)
(** ** Imports *)

Lemma more_parts_length : forall names,
    length (more_parts names) = 2 * length names.
Proof.
  unfold more_parts.
  induction names as [|n names IH]; simpl; [reflexivity|].
  rewrite IH. lia.
Qed.

Lemma nth_error_head_skipn : forall (l : list token) i,
    nth_error l i = hd_error (skipn i l).
Proof.
  induction l as [|x l IH]; intros [|i]; try reflexivity. apply IH.
Qed.

(** The loop of [parse_import] takes every part that a dot announces and
    stops at the first token that is no dot, or at the end. *)
Lemma parse_import_loop_all : forall names tokens i acc fuel tail,
    skipn i tokens = more_parts names ++ tail ->
    head_is_not "DOT" tail ->
    length names < fuel ->
    parse_import_loop tokens fuel acc i =
    Return (dotted acc names, i + 2 * length names).
Proof.
  induction names as [|n names IH]; intros tokens i acc fuel tail Hs Ht Hf;
    (destruct fuel as [|fuel]; [simpl in Hf; lia|]).
  - simpl in Hs. simpl parse_import_loop. unfold bind, peek.
    rewrite nth_error_head_skipn, Hs.
    destruct tail as [|t tail]; simpl.
    + rewrite Nat.add_0_r. reflexivity.
    + simpl in Ht. rewrite Ht, Nat.add_0_r. reflexivity.
  - change (more_parts (n :: names))
      with (("DOT", ".") :: ("IDENTIFIER", n) :: more_parts names) in Hs.
    simpl in Hs. apply skipn_cons in Hs. destruct Hs as [Hn Hs].
    apply skipn_cons in Hs. destruct Hs as [Hn' Hs].
    simpl parse_import_loop.
    rewrite (bind_run _ _ _ _ _ _ _ (peek_run _ _ _ Hn)).
    simpl fst. rewrite String.eqb_refl.
    rewrite (bind_run _ _ _ _ _ _ _ (consume_run _ _ _ _ Hn)).
    rewrite (bind_run _ _ _ _ _ _ _ (consume_run _ _ _ _ Hn')).
    rewrite (IH tokens (S (S i)) _ fuel tail Hs Ht)
      by (simpl in Hf; lia).
    simpl. f_equal. f_equal. lia.
Qed.

(** X11. [parse_import] on an import of a dotted name: the parts are
    joined by dots into the value of one IMPORT node, whatever their
    number, when a SEMICOLON ends the import; without it, at the end of
    the tokens or before another token, the parse error is the one that
    expected SEMICOLON. *)
Theorem import_joins_dotted_name :
  forall lexeme first names tail fuel,
    head_is_not "DOT" tail ->
    length names < fuel ->
    parse_import
      (("IMPORT", lexeme) :: ("IDENTIFIER", first)
       :: more_parts names ++ tail) fuel 0 =
    match tail with
    | t :: _ =>
        if String.eqb (fst t) "SEMICOLON"
        then Return (mkNode "IMPORT" [] (StrValue (dotted first names)),
                     3 + 2 * length names)
        else Raise (ParserExpected "SEMICOLON" (Some t))
    | [] => Raise (ParserExpected "SEMICOLON" None)
    end.
Proof.
  intros lexeme first names tail fuel Ht Hf.
  set (tokens := ("IMPORT", lexeme) :: ("IDENTIFIER", first)
                 :: more_parts names ++ tail).
  assert (H0 : nth_error tokens 0 = Some ("IMPORT", lexeme))
    by reflexivity.
  assert (H1 : nth_error tokens 1 = Some ("IDENTIFIER", first))
    by reflexivity.
  assert (H2 : skipn 2 tokens = more_parts names ++ tail) by reflexivity.
  assert (H3 : @nth_error token tokens (2 + 2 * length names)
               = nth_error tail 0).
  { change (nth_error (more_parts names ++ tail) (2 * length names)
            = nth_error tail 0).
    rewrite nth_error_app2 by (rewrite more_parts_length; lia).
    rewrite more_parts_length, Nat.sub_diag. reflexivity. }
  unfold parse_import.
  rewrite (bind_run _ _ _ _ _ _ _ (consume_run _ _ _ _ H0)).
  rewrite (bind_run _ _ _ _ _ _ _ (consume_run _ _ _ _ H1)).
  rewrite (bind_run _ _ _ _ _ _ _
             (parse_import_loop_all names tokens 2 first fuel tail
                H2 Ht Hf)).
  unfold bind at 1. rewrite consume_spec, H3.
  destruct tail as [|t tail]; [reflexivity|]. simpl.
  destruct (String.eqb (fst t) "SEMICOLON"); reflexivity.
Qed.

Lemma import_joins_dotted_name_witness :
  parse_import
    [("IMPORT", "import"); ("IDENTIFIER", "a"); ("DOT", ".");
     ("IDENTIFIER", "b"); ("DOT", "."); ("IDENTIFIER", "c");
     ("SEMICOLON", ";")] 3 0 =
  Return (mkNode "IMPORT" [] (StrValue "a.b.c"), 7).
Proof.
  exact (import_joins_dotted_name "import" "a" ["b"; "c"]
           [("SEMICOLON", ";")] 3 eq_refl (le_n 3)).
Defined.

(* ================================================================= *)
(** ** [str.endswith] *)

Lemma string_length_app : forall a b : string,
    String.length (a ++ b) = String.length a + String.length b.
Proof.
  induction a as [|x a IH]; intros b; simpl; [reflexivity|].
  rewrite IH. reflexivity.
Qed.

Lemma substring_after : forall a b : string,
    substring (String.length a) (String.length b) (a ++ b) = b.
Proof.
  induction a as [|x a IH]; intros b; simpl.
  - apply substring_whole.
  - apply IH.
Qed.

(** [endswith] holds of the strings that are a text followed by the
    suffix. *)
Lemma endswith_spec : forall s suffix,
    endswith s suffix = true <-> exists before, s = (before ++ suffix)%string.
Proof.
  intros s suffix. unfold endswith. split.
  - intros H. apply andb_true_iff in H. destruct H as [L E].
    apply Nat.leb_le in L. apply String.eqb_eq in E.
    exists (substring 0 (String.length s - String.length suffix) s).
    pose proof (substring_split s
                  (String.length s - String.length suffix)
                  (String.length s)) as X.
    replace (String.length s - (String.length s - String.length suffix))
      with (String.length suffix) in X by lia.
    rewrite E, substring_whole in X. symmetry. apply X; lia.
  - intros [before ->]. rewrite string_length_app.
    apply andb_true_iff. split; [apply Nat.leb_le; lia|].
    replace (String.length before + String.length suffix
             - String.length suffix) with (String.length before) by lia.
    rewrite substring_after. apply String.eqb_refl.
Qed.

(* ================================================================= *)
(** ** [compile_files_in_directory] *)

Lemma and_then_finished : forall out next,
    and_then (out, Finished) next = (out ++ fst next, snd next).
Proof. reflexivity. Qed.

Lemma and_then_assoc : forall a b c,
    and_then (and_then a b) c = and_then a (and_then b c).
Proof.
  intros [out [|e|]] [out' [|e'|]] [out'' ending]; simpl;
    try reflexivity; rewrite app_assoc; reflexivity.
Qed.

Lemma and_then_nothing : forall next,
    and_then ([], Finished) next = next.
Proof. intros [out ending]. reflexivity. Qed.

Lemma compile_each_app : forall read a b,
    compile_each read (a ++ b) =
    and_then (compile_each read a) (compile_each read b).
Proof.
  intros read a b. induction a as [|p a IH]; simpl.
  - symmetry. apply and_then_nothing.
  - rewrite IH. symmetry. apply and_then_assoc.
Qed.

(** The two nested loops compile the sources of the walk in order. *)
Lemma compile_files_each : forall join read root files,
    compile_files join read root files =
    compile_each read
      (map (join root) (filter (fun file => endswith file ".ms") files)).
Proof.
  intros join read root files. induction files as [|file files IH];
    [reflexivity|].
  simpl. destruct (endswith file ".ms"); simpl; rewrite IH; reflexivity.
Qed.

Lemma compile_walk_each : forall join read walk,
    compile_files_in_directory join read walk =
    compile_each read (sources join walk).
Proof.
  intros join read walk. induction walk as [|[root files] walk IH];
    [reflexivity|].
  simpl. unfold sources in *. simpl.
  rewrite compile_each_app, compile_files_each, IH. reflexivity.
Qed.

(** A file whose front end returns is compiled to the end; one whose
    front end raises prints nothing. *)
Lemma compile_file_returns : forall text ast,
    front_end text = Return ast -> snd (compile_file text) = Finished.
Proof.
  intros text ast H. rewrite compile_file_formula, H. reflexivity.
Qed.

Lemma compile_file_raises : forall text e,
    front_end text = Raise e ->
    compile_file text = ([], Faulted (FrontEnd e)).
Proof.
  intros text e H. rewrite compile_file_formula, H. reflexivity.
Qed.

Lemma front_end_terminates : forall text, front_end text <> OutOfFuel.
Proof.
  intros text. unfold front_end.
  pose proof (lexer_terminates text) as L.
  destruct (lexer text) as [tokens|e|]; try discriminate.
  - apply parse_terminates.
  - exfalso. apply L. reflexivity.
Qed.

Lemma compile_each_finishes : forall read paths,
    (forall path, In path paths ->
                  exists ast, front_end (read path) = Return ast) ->
    compile_each read paths = (outputs read paths, Finished).
Proof.
  intros read paths. induction paths as [|p paths IH]; intros H;
    [reflexivity|].
  simpl. destruct (H p (or_introl eq_refl)) as [ast Hp].
  pose proof (compile_file_returns _ _ Hp) as F.
  destruct (compile_file (read p)) as [out ending]. simpl in F.
  subst ending. rewrite IH by (intros q Hq; apply H; right; exact Hq).
  reflexivity.
Qed.

Lemma compile_each_stops : forall read before path after e,
    (forall p, In p before ->
               exists ast, front_end (read p) = Return ast) ->
    front_end (read path) = Raise e ->
    compile_each read (before ++ path :: after) =
    (outputs read before, Faulted (FrontEnd e)).
Proof.
  intros read before path after e Hb Hp.
  rewrite compile_each_app, (compile_each_finishes _ _ Hb). simpl.
  rewrite (compile_file_raises _ _ Hp). simpl.
  rewrite app_nil_r. reflexivity.
Qed.

Lemma compile_each_finished_all : forall read paths,
    snd (compile_each read paths) = Finished ->
    forall path, In path paths ->
                 exists ast, front_end (read path) = Return ast.
Proof.
  intros read paths. induction paths as [|p paths IH]; intros H path Hin;
    [contradiction|].
  simpl in H. rewrite compile_file_formula in H.
  pose proof (front_end_terminates (read p)) as T.
  destruct (front_end (read p)) as [ast|e|] eqn:E;
    [|discriminate|contradiction].
  destruct Hin as [<-|Hin]; [eauto|].
  apply IH; [|exact Hin]. simpl in H. exact H.
Qed.

(** X12. A batch stops at the first file whose front end raises: the
    files before it, in the order of the walk and those only whose name
    ends in [.ms], have printed their lines, the failing file prints
    nothing, and whatever comes after it in the walk, in the same
    directory or a later one, is not compiled. *)
Theorem batch_stops_at_first_error :
  forall join read walk before path after e,
    sources join walk = before ++ path :: after ->
    (forall p, In p before ->
               exists ast, front_end (read p) = Return ast) ->
    front_end (read path) = Raise e ->
    compile_files_in_directory join read walk =
    (outputs read before, Faulted (FrontEnd e)).
Proof.
  intros join read walk before path after e Hs Hb Hp.
  rewrite compile_walk_each, Hs. apply compile_each_stops; assumption.
Qed.

Lemma batch_stops_at_first_error_witness :
  compile_files_in_directory sample_join sample_read sample_walk =
  ([Line "Contents of the file:"; Line ""],
   Faulted (FrontEnd (LexerError 0))).
Proof.
  apply (batch_stops_at_first_error sample_join sample_read sample_walk
           ["d/a.ms"] "d/b.ms" ["d/c.ms"] (LexerError 0)).
  - vm_compute. reflexivity.
  - intros p [<-|[]]. exists []. vm_compute. reflexivity.
  - vm_compute. reflexivity.
Defined.

(** X13. A batch runs to its end exactly when the front end returns on
    every file of the walk whose name ends in [.ms]; it has then printed
    the lines of each of them, in the order of the walk, and nothing for
    the other files. *)
Theorem batch_finishes_when_all_parse : forall join read walk,
    (snd (compile_files_in_directory join read walk) = Finished <->
     forall path, In path (sources join walk) ->
                  exists ast, front_end (read path) = Return ast) /\
    (snd (compile_files_in_directory join read walk) = Finished ->
     fst (compile_files_in_directory join read walk) =
     outputs read (sources join walk)).
Proof.
  intros join read walk. rewrite compile_walk_each.
  assert (G : snd (compile_each read (sources join walk)) = Finished ->
              forall path, In path (sources join walk) ->
                exists ast, front_end (read path) = Return ast)
    by apply compile_each_finished_all.
  split; [split; [exact G|]|].
  - intros H. rewrite (compile_each_finishes _ _ H). reflexivity.
  - intros H. rewrite (compile_each_finishes _ _ (G H)). reflexivity.
Qed.

(* ================================================================= *)
(** ** The parser: token sequences put one after the other *)

(** *** A run on a sequence and on the sequence with more tokens after
    it *)

Lemma ext_bind : forall n A B (m m' : M A) (k k' : A -> M B),
    ext n m m' -> (forall a, ext n (k a) (k' a)) ->
    ext n (bind m k) (bind m' k').
Proof.
  intros n A B m m' k k' Hm Hk i b j L H.
  apply bind_return in H. destruct H as [a [i' [H1 H2]]].
  destruct (Hm _ _ _ L H1) as [L' E1].
  destruct (Hk a _ _ _ L' H2) as [L'' E2].
  split; [exact L''|]. unfold bind. rewrite E1. exact E2.
Qed.

Lemma ext_in_bind : forall n A B (m m' : M A) (k k' : A -> M B),
    ext n m m' -> (forall a, ext_in n (k a) (k' a)) ->
    ext_in n (bind m k) (bind m' k').
Proof.
  intros n A B m m' k k' Hm Hk i b j L H.
  apply bind_return in H. destruct H as [a [i' [H1 H2]]].
  destruct (Hm _ _ _ L H1) as [L' E1].
  destruct (Hk a _ _ _ L' H2) as [L'' E2].
  split; [exact L''|]. intros Hj. unfold bind. rewrite E1. auto.
Qed.

Lemma ext_bind_strict : forall n A B (m m' : M A) (k k' : A -> M B),
    ext_in n m m' -> (forall a, ext n (k a) (k' a)) ->
    (forall a, strict n (k a)) ->
    ext n (bind m k) (bind m' k').
Proof.
  intros n A B m m' k k' Hm Hk Hs i b j L H.
  apply bind_return in H. destruct H as [a [i' [H1 H2]]].
  destruct (Hm _ _ _ L H1) as [L' E1].
  destruct (Hk a _ _ _ L' H2) as [L'' E2].
  split; [exact L''|]. unfold bind.
  rewrite (E1 (Hs a _ _ _ H2)). exact E2.
Qed.

Lemma ext_ext_in : forall n A (m m' : M A), ext n m m' -> ext_in n m m'.
Proof.
  intros n A m m' H i a j L E. destruct (H _ _ _ L E) as [L' E'].
  split; [exact L'|]. intros _. exact E'.
Qed.

Lemma ext_ret : forall n A (a : A), ext n (ret a) (ret a).
Proof.
  intros n A a i b j L H. injection H as <- <-. split; [exact L|].
  reflexivity.
Qed.

Lemma ext_raise : forall n A e (m' : M A), ext n (raise e) m'.
Proof. intros n A e m' i a j L H. discriminate. Qed.

Lemma ext_out_of_fuel : forall n A (m' : M A), ext n out_of_fuel m'.
Proof. intros n A m' i a j L H. discriminate. Qed.

Lemma ext_in_out_of_fuel : forall n A (m' : M A),
    ext_in n out_of_fuel m'.
Proof. intros n A m' i a j L H. discriminate. Qed.

Lemma ext_bind_raise : forall n A B e (k : A -> M B) (m' : M B),
    ext n (bind (raise e) k) m'.
Proof. intros n A B e k m' i a j L H. discriminate. Qed.

Lemma strict_bind : forall n A B (m : M A) (k : A -> M B),
    strict n m -> strict n (bind m k).
Proof.
  intros n A B m k H i b j E. apply bind_return in E.
  destruct E as [a [i' [E _]]]. exact (H _ _ _ E).
Qed.

Section Extension.
Variable tokens more : list token.

Lemma nth_error_extension : forall i (t : token),
    nth_error tokens i = Some t -> nth_error (tokens ++ more) i = Some t.
Proof.
  intros i t H. rewrite nth_error_app1; [exact H|].
  apply nth_error_Some. congruence.
Qed.

Lemma ext_item0 : forall t, ext (length tokens) (item0 t) (item0 t).
Proof.
  intros [t|] i a j L H; [|discriminate].
  injection H as <- <-. split; [exact L|]. reflexivity.
Qed.

(** [peek] and what follows it, when this raises at the end of the
    tokens. *)
Lemma ext_peek : forall A (k k' : option token -> M A),
    (forall t, ext (length tokens) (k (Some t)) (k' (Some t))) ->
    (forall i a j, k None i <> Return (a, j)) ->
    ext (length tokens) (bind (peek tokens) k)
        (bind (peek (tokens ++ more)) k').
Proof.
  intros A k k' Hk Hn i a j L H. unfold bind, peek in *.
  destruct (nth_error tokens i) as [t|] eqn:E.
  - rewrite (nth_error_extension _ _ E). exact (Hk t _ _ _ L H).
  - exfalso. exact (Hn _ _ _ H).
Qed.

(** The same when what follows returns at the end of the tokens, as the
    loops do. *)
Lemma ext_in_peek : forall A (k k' : option token -> M A),
    (forall t, ext_in (length tokens) (k (Some t)) (k' (Some t))) ->
    (forall i a j, k None i = Return (a, j) -> j = i) ->
    ext_in (length tokens) (bind (peek tokens) k)
           (bind (peek (tokens ++ more)) k').
Proof.
  intros A k k' Hk Hn i a j L H. unfold bind, peek in *.
  destruct (nth_error tokens i) as [t|] eqn:E.
  - rewrite (nth_error_extension _ _ E). exact (Hk t _ _ _ L H).
  - apply Hn in H. subst j. apply nth_error_None in E.
    split; [exact L|]. lia.
Qed.

Lemma ext_consume : forall kind,
    ext (length tokens) (consume tokens kind)
        (consume (tokens ++ more) kind).
Proof.
  intros kind i a j L H. rewrite consume_spec in *.
  destruct (nth_error tokens i) as [t|] eqn:E; [|discriminate].
  rewrite (nth_error_extension _ _ E).
  destruct (String.eqb (fst t) kind); [|discriminate].
  injection H as <- <-. split; [|reflexivity].
  assert (i < length tokens) by (apply nth_error_Some; congruence). lia.
Qed.

Lemma strict_consume : forall kind,
    strict (length tokens) (consume tokens kind).
Proof.
  intros kind i a j H. rewrite consume_spec in H.
  destruct (nth_error tokens i) as [t|] eqn:E; [|discriminate].
  apply nth_error_Some. congruence.
Qed.

Ltac never_returns :=
  let H := fresh in
  intros ? ? ? H; unfold bind in H; simpl in H; discriminate H.

Ltac split_ext :=
  repeat first
    [ apply ext_raise | apply ext_out_of_fuel | apply ext_bind_raise
    | apply ext_ret | apply ext_item0 | apply ext_consume
    | assumption
    | apply ext_peek; [intro|never_returns]
    | apply ext_bind; [|intro]
    | match goal with
      | |- ext _ (if ?b then _ else _) _ => destruct b
      | |- ext _ (match ?x with _ => _ end) _ => destruct x
      end ].

Lemma ext_parse_expression :
  ext (length tokens) (parse_expression tokens)
      (parse_expression (tokens ++ more)).
Proof. unfold parse_expression. split_ext. Qed.

Lemma ext_parse_class :
  ext (length tokens) (parse_class tokens) (parse_class (tokens ++ more)).
Proof. unfold parse_class. split_ext. Qed.

Lemma ext_parse_function :
  ext (length tokens) (parse_function tokens)
      (parse_function (tokens ++ more)).
Proof. unfold parse_function. split_ext. Qed.

Lemma ext_parse_folder :
  ext (length tokens) (parse_folder tokens)
      (parse_folder (tokens ++ more)).
Proof. unfold parse_folder. split_ext. Qed.

Lemma ext_parse_variable :
  ext (length tokens) (parse_variable tokens)
      (parse_variable (tokens ++ more)).
Proof. unfold parse_variable, parse_value. split_ext. Qed.

Lemma ext_parse_yeet :
  ext (length tokens) (parse_yeet tokens) (parse_yeet (tokens ++ more)).
Proof. unfold parse_yeet. split_ext. Qed.

Lemma ext_in_parse_import_loop : forall fuel name,
    ext_in (length tokens) (parse_import_loop tokens fuel name)
           (parse_import_loop (tokens ++ more) fuel name).
Proof.
  induction fuel as [|fuel IH]; intros name;
    [apply ext_in_out_of_fuel|].
  simpl. apply ext_in_peek.
  - intros t. destruct (String.eqb (fst t) "DOT").
    + apply ext_in_bind; [apply ext_consume|]. intro.
      apply ext_in_bind; [apply ext_consume|]. intro. apply IH.
    + apply ext_ext_in. apply ext_ret.
  - intros i a j H. injection H as _ <-. reflexivity.
Qed.

Lemma ext_parse_import : forall fuel,
    ext (length tokens) (parse_import tokens fuel)
        (parse_import (tokens ++ more) fuel).
Proof.
  intros fuel. unfold parse_import.
  apply ext_bind; [apply ext_consume|]. intro.
  apply ext_bind; [apply ext_consume|]. intro.
  apply ext_bind_strict.
  - apply ext_in_parse_import_loop.
  - intro. split_ext.
  - intro. apply strict_bind. apply strict_consume.
Qed.

Lemma ext_mutual : forall fuel,
    ext (length tokens) (parse_statement tokens fuel)
        (parse_statement (tokens ++ more) fuel) /\
    ext (length tokens) (parse_if tokens fuel)
        (parse_if (tokens ++ more) fuel) /\
    ext (length tokens) (parse_body tokens fuel)
        (parse_body (tokens ++ more) fuel) /\
    forall statements,
      ext_in (length tokens) (parse_body_loop tokens fuel statements)
             (parse_body_loop (tokens ++ more) fuel statements).
Proof.
  induction fuel as [|fuel [IHs [IHi [IHb IHl]]]].
  - split; [|split; [|split]]; intros;
      first [apply ext_out_of_fuel|apply ext_in_out_of_fuel].
  - pose proof (ext_parse_import fuel) as Him.
    pose proof ext_parse_expression as Hex.
    pose proof ext_parse_yeet as Hy.
    split; [|split; [|split]]; [| | |intros statements]; simpl.
    + split_ext.
    + split_ext.
    + apply ext_bind; [apply ext_consume|]. intro.
      apply ext_bind_strict.
      * apply IHl.
      * intro. split_ext.
      * intro. apply strict_bind. apply strict_consume.
    + apply ext_in_peek.
      * intros t. destruct (negb (String.eqb (fst t) "RBRACE")).
        -- apply ext_in_bind; [exact IHs|]. intro. apply IHl.
        -- apply ext_ext_in. apply ext_ret.
      * intros i a j H. injection H as _ <-. reflexivity.
Qed.

Lemma ext_parse_if : forall fuel,
    ext (length tokens) (parse_if tokens fuel)
        (parse_if (tokens ++ more) fuel).
Proof. intros fuel. apply ext_mutual. Qed.

End Extension.

(** *** A run on a sequence and on the sequence with tokens before it *)

Lemma shifted_bind : forall n A B (m m' : M A) (k k' : A -> M B),
    shifted n m m' -> (forall a, shifted n (k a) (k' a)) ->
    shifted n (bind m k) (bind m' k').
Proof.
  intros n A B m m' k k' Hm Hk i. unfold bind. rewrite (Hm i).
  destruct (m i) as [[a j]| |]; simpl; [apply Hk| |]; reflexivity.
Qed.

Lemma shifted_ret : forall n A (a : A), shifted n (ret a) (ret a).
Proof. intros n A a i. reflexivity. Qed.

Lemma shifted_raise : forall n A e, shifted n (@raise A e) (raise e).
Proof. intros n A e i. reflexivity. Qed.

Lemma shifted_out_of_fuel : forall n A,
    shifted n (@out_of_fuel A) out_of_fuel.
Proof. intros n A i. reflexivity. Qed.

Lemma shifted_item0 : forall n t, shifted n (item0 t) (item0 t).
Proof. intros n [t|] i; reflexivity. Qed.

Lemma shifted_step : forall n,
    shifted n (fun index => Return (tt, index + 1))
              (fun index => Return (tt, index + 1)).
Proof. intros n i. simpl. f_equal. f_equal. lia. Qed.

Section Shift.
Variable before more : list token.

Lemma shifted_peek :
  shifted (length before) (peek more) (peek (before ++ more)).
Proof.
  intros i. unfold peek. simpl. rewrite nth_error_app2 by lia.
  replace (length before + i - length before) with i by lia.
  reflexivity.
Qed.

Lemma shifted_call_peek : forall args,
    shifted (length before) (call_peek more args)
            (call_peek (before ++ more) args).
Proof.
  intros [|a args]; [apply shifted_peek|apply shifted_raise].
Qed.

Lemma shifted_consume : forall kind,
    shifted (length before) (consume more kind)
            (consume (before ++ more) kind).
Proof.
  intros kind i. rewrite !consume_spec.
  rewrite nth_error_app2 by lia.
  replace (length before + i - length before) with i by lia.
  destruct (nth_error more i) as [t|]; [|reflexivity].
  destruct (String.eqb (fst t) kind); [|reflexivity].
  simpl. f_equal. f_equal. lia.
Qed.

Ltac split_shifted :=
  repeat first
    [ apply shifted_ret | apply shifted_raise | apply shifted_out_of_fuel
    | apply shifted_item0 | apply shifted_consume | apply shifted_peek
    | apply shifted_call_peek | apply shifted_step
    | solve [auto 1]
    | apply shifted_bind; [|intro]
    | match goal with
      | |- shifted _ (if ?b then _ else _) _ => destruct b
      | |- shifted _ (match ?x with _ => _ end) _ => destruct x
      end ].

Lemma shifted_parse_import_loop : forall fuel name,
    shifted (length before) (parse_import_loop more fuel name)
            (parse_import_loop (before ++ more) fuel name).
Proof.
  induction fuel as [|fuel IH]; intros name;
    [apply shifted_out_of_fuel|].
  simpl. split_shifted.
Qed.

Lemma shifted_parse_import : forall fuel,
    shifted (length before) (parse_import more fuel)
            (parse_import (before ++ more) fuel).
Proof.
  intros fuel. unfold parse_import.
  pose proof (shifted_parse_import_loop fuel). split_shifted.
Qed.

Lemma shifted_parse_expression :
  shifted (length before) (parse_expression more)
          (parse_expression (before ++ more)).
Proof. unfold parse_expression, parse_identifier, parse_string.
       split_shifted. Qed.

Lemma shifted_parse_arguments_loop : forall fuel arguments,
    shifted (length before) (parse_arguments_loop more fuel arguments)
            (parse_arguments_loop (before ++ more) fuel arguments).
Proof.
  pose proof shifted_parse_expression.
  induction fuel as [|fuel IH]; intros arguments;
    [apply shifted_out_of_fuel|].
  simpl. split_shifted.
Qed.

Lemma shifted_parse_function_call : forall fuel,
    shifted (length before) (parse_function_call more fuel)
            (parse_function_call (before ++ more) fuel).
Proof.
  intros fuel. unfold parse_function_call.
  pose proof shifted_parse_expression.
  pose proof (shifted_parse_arguments_loop fuel). split_shifted.
Qed.

Lemma shifted_parse_variable :
  shifted (length before) (parse_variable more)
          (parse_variable (before ++ more)).
Proof. unfold parse_variable, parse_value. split_shifted. Qed.

Lemma shifted_mutual : forall fuel,
    shifted (length before) (parse_statement more fuel)
            (parse_statement (before ++ more) fuel) /\
    shifted (length before) (parse_if more fuel)
            (parse_if (before ++ more) fuel) /\
    shifted (length before) (parse_body more fuel)
            (parse_body (before ++ more) fuel) /\
    forall statements,
      shifted (length before) (parse_body_loop more fuel statements)
              (parse_body_loop (before ++ more) fuel statements).
Proof.
  induction fuel as [|fuel [IHs [IHi [IHb IHl]]]].
  - split; [|split; [|split]]; intros; apply shifted_out_of_fuel.
  - pose proof (shifted_parse_import fuel).
    pose proof shifted_parse_expression.
    pose proof (shifted_parse_function_call fuel).
    pose proof shifted_parse_variable.
    split; [|split; [|split]]; [| | |intros statements]; simpl.
    + unfold parse_assignment, parse_yeet. split_shifted.
    + split_shifted.
    + split_shifted.
    + split_shifted.
Qed.

Lemma shifted_parse_loop : forall fuel ast,
    shifted (length before) (parse_loop more fuel ast)
            (parse_loop (before ++ more) fuel ast).
Proof.
  induction fuel as [|fuel IH]; intros ast;
    [apply shifted_out_of_fuel|].
  destruct (shifted_mutual fuel) as [_ [Hif _]].
  pose proof (shifted_parse_import fuel).
  pose proof shifted_parse_variable.
  simpl. unfold parse_folder, parse_class, parse_function.
  split_shifted.
Qed.

End Shift.

(** *** The loop of [parse] *)

Lemma bind_peek : forall tokens A (k : option token -> M A) i,
    bind (peek tokens) k i = k (nth_error tokens i) i.
Proof. reflexivity. Qed.

(** The nodes the loop starts with stay in front of those it adds. *)
Lemma parse_loop_after : forall tokens fuel first ast i,
    parse_loop tokens fuel (first ++ ast) i =
    after_nodes first (parse_loop tokens fuel ast i).
Proof.
  intros tokens. induction fuel as [|fuel IH]; intros first ast i;
    [reflexivity|].
  assert (G : forall (m : M Node) i,
             (n <- m ;; parse_loop tokens fuel ((first ++ ast) ++ [n])) i =
             after_nodes first
               ((n <- m ;; parse_loop tokens fuel (ast ++ [n])) i)).
  { intros m i0. unfold bind. destruct (m i0) as [[n j]| |];
      [|reflexivity|reflexivity].
    rewrite <- app_assoc. apply IH. }
  assert (G' : forall (m : M unit) i,
             (m >> parse_loop tokens fuel (first ++ ast)) i =
             after_nodes first ((m >> parse_loop tokens fuel ast) i)).
  { intros m i0. unfold bind. destruct (m i0) as [[n j]| |];
      [|reflexivity|reflexivity]. apply IH. }
  simpl. rewrite !bind_peek.
  destruct (nth_error tokens i) as [tok|]; [|reflexivity].
  repeat match goal with
         | |- (if ?b then _ else _) _ = _ => destruct b
         end;
    first [apply G|apply G'|reflexivity].
Qed.

Lemma ext_below : forall n A (m m1 m2 : M A),
    ext n m m1 -> below m1 m2 -> ext n m m2.
Proof.
  intros n A m m1 m2 H B i a j L E. destruct (H _ _ _ L E) as [L1 E1].
  split; [exact L1|]. rewrite (B i); [exact E1|]. rewrite E1.
  discriminate.
Qed.

Section Concatenation.
Variable tokens more : list token.

(** The loop on [tokens], when it returns, has reached the end of
    [tokens]; with [more] after them, it is then where the loop on
    [more] starts. *)
Lemma parse_loop_extension : forall fuel ast i nodes j,
    parse_loop tokens fuel ast i = Return (nodes, j) ->
    i <= length tokens ->
    j = length tokens /\
    forall fuel' result,
      parse_loop (tokens ++ more) fuel' nodes (length tokens) = result ->
      result <> OutOfFuel ->
      parse_loop (tokens ++ more) (fuel + fuel') ast i = result.
Proof.
  induction fuel as [|fuel IH]; intros ast i nodes j H L; [discriminate|].
  simpl in H. rewrite bind_peek in H.
  destruct (nth_error tokens i) as [tok|] eqn:E.
  - assert (Li : i < length tokens)
      by (apply nth_error_Some; congruence).
    assert (K : forall A (m : M A) (m' : nat -> M A)
                       (k : A -> list Node),
               (forall fuel' a i',
                   m i = Return (a, i') ->
                   i' <= length tokens /\ m' fuel' i = Return (a, i')) ->
               (a <- m ;; parse_loop tokens fuel (k a)) i
               = Return (nodes, j) ->
               j = length tokens /\
               forall fuel' result,
                 parse_loop (tokens ++ more) fuel' nodes (length tokens)
                 = result ->
                 result <> OutOfFuel ->
                 (a <- m' fuel' ;;
                  parse_loop (tokens ++ more) (fuel + fuel') (k a)) i
                 = result).
    { intros A m m' k Hm Hb. apply bind_return in Hb.
      destruct Hb as [a [i' [H1 H2]]].
      destruct (Hm 0 _ _ H1) as [L' _].
      destruct (IH _ _ _ _ H2 L') as [Hj Hr].
      split; [exact Hj|]. intros fuel' result R N.
      destruct (Hm fuel' _ _ H1) as [_ E1].
      rewrite (bind_run _ _ _ _ _ _ _ E1). apply Hr; assumption. }
    assert (X : forall A (m m' : M A) a i',
               ext (length tokens) m m' ->
               m i = Return (a, i') ->
               i' <= length tokens /\ m' i = Return (a, i'))
      by (intros A m m' a i' Hm R; exact (Hm _ _ _ L R)).
    simpl. unfold bind at 1. unfold peek at 1.
    rewrite (nth_error_extension _ _ _ _ E).
    destruct (String.eqb (fst tok) "FOLDER").
    { apply (K _ (parse_folder tokens)
               (fun _ => parse_folder (tokens ++ more))
               (fun _ => ast)); [|exact H].
      intros fuel' a i'. apply X. apply ext_parse_folder. }
    destruct (String.eqb (fst tok) "CLASS").
    { apply (K _ (parse_class tokens)
               (fun _ => parse_class (tokens ++ more))
               (fun n => ast ++ [n])); [|exact H].
      intros fuel' a i'. apply X. apply ext_parse_class. }
    destruct (String.eqb (fst tok) "VARIABLE").
    { apply (K _ (parse_variable tokens)
               (fun _ => parse_variable (tokens ++ more))
               (fun n => ast ++ [n])); [|exact H].
      intros fuel' a i'. apply X. apply ext_parse_variable. }
    destruct (String.eqb (fst tok) "FUNCTION").
    { apply (K _ (parse_function tokens)
               (fun _ => parse_function (tokens ++ more))
               (fun n => ast ++ [n])); [|exact H].
      intros fuel' a i'. apply X. apply ext_parse_function. }
    destruct (String.eqb (fst tok) "IF").
    { apply (K _ (parse_if tokens fuel)
               (fun fuel' => parse_if (tokens ++ more) (fuel + fuel'))
               (fun n => ast ++ [n])); [|exact H].
      intros fuel' a i'. apply X.
      apply (ext_below _ _ _ _ _ (ext_parse_if tokens more fuel)).
      apply below_mutual. lia. }
    destruct (String.eqb (fst tok) "COMMENT").
    { apply (K _ (fun index => Return (tt, index + 1))
               (fun _ index => Return (tt, index + 1))
               (fun _ => ast)); [|exact H].
      intros fuel' a i' R. injection R as <- <-.
      split; [lia|reflexivity]. }
    destruct (String.eqb (fst tok) "IMPORT"); [|discriminate].
    apply (K _ (parse_import tokens fuel)
             (fun fuel' => parse_import (tokens ++ more) (fuel + fuel'))
             (fun n => ast ++ [n])); [|exact H].
    intros fuel' a i'. apply X.
    apply (ext_below _ _ _ _ _ (ext_parse_import tokens more fuel)).
    apply below_parse_import. lia.
  - injection H as <- <-. apply nth_error_None in E.
    split; [lia|]. intros fuel' result R N.
    replace i with (length tokens) by lia.
    rewrite (below_parse_loop (tokens ++ more) fuel' (S fuel + fuel')
               ast (Nat.le_add_l _ _) (length tokens)); [exact R|].
    rewrite R. exact N.
Qed.

(** [parse] on a sequence on which it returns, with [more] after it. *)
Lemma parse_app : forall ast,
    parse tokens = Return ast ->
    parse (tokens ++ more) = followed_by ast (parse more).
Proof.
  intros ast H. unfold parse, parse_fuel in H.
  destruct (parse_loop tokens (enough tokens) [] 0) as [[nodes j]| |] eqn:E;
    try discriminate.
  injection H as ->.
  destruct (parse_loop_extension _ _ _ _ _ E (Nat.le_0_l _)) as [_ X].
  assert (S : parse_loop (tokens ++ more) (enough more) ast (length tokens)
              = lift (length tokens)
                  (after_nodes ast (parse_loop more (enough more) [] 0))).
  { rewrite <- (Nat.add_0_r (length tokens)) at 1.
    rewrite (shifted_parse_loop tokens more (enough more) ast 0).
    rewrite <- (app_nil_r ast) at 1. rewrite parse_loop_after.
    reflexivity. }
  assert (N : parse_loop more (enough more) [] 0 <> OutOfFuel)
    by (apply safe_parse_loop; unfold enough; lia).
  specialize (X (enough more) _ S).
  rewrite <- (parse_fuel_irrelevant (tokens ++ more)
                (enough tokens + enough more)).
  - unfold parse_fuel. rewrite X.
    + unfold parse, parse_fuel.
      destruct (parse_loop more (enough more) [] 0) as [[a k]| |];
        reflexivity.
    + destruct (parse_loop more (enough more) [] 0) as [[a k]| |];
        [discriminate|discriminate|contradiction].
  - unfold parse_fuel. rewrite X.
    + destruct (parse_loop more (enough more) [] 0) as [[a k]| |];
        [discriminate|discriminate|contradiction].
    + destruct (parse_loop more (enough more) [] 0) as [[a k]| |];
        [discriminate|discriminate|contradiction].
Qed.

End Concatenation.

(** X14. Top-level items do not depend on what follows them: when
    [parse] returns on a token sequence, then with any tokens put after
    it [parse] gives these nodes followed by the nodes of the added
    tokens, or the error of the added tokens. *)
Theorem parse_concatenation : forall tokens more ast,
    parse tokens = Return ast ->
    parse (tokens ++ more) = followed_by ast (parse more).
Proof. intros tokens more ast H. apply parse_app. exact H. Qed.

Lemma parse_concatenation_witness :
  parse [("CLASS", "class A"); ("IDENTIFIER", "B")] =
    Return [mkNode "CLASS" [] (StrValue "B")] /\
  parse ([("CLASS", "class A"); ("IDENTIFIER", "B")]
         ++ [("FUNCTION", "function f"); ("IDENTIFIER", "g")]) =
    followed_by [mkNode "CLASS" [] (StrValue "B")]
      (parse [("FUNCTION", "function f"); ("IDENTIFIER", "g")]).
Proof.
  assert (E : parse [("CLASS", "class A"); ("IDENTIFIER", "B")] =
              Return [mkNode "CLASS" [] (StrValue "B")])
    by (vm_compute; reflexivity).
  split; [exact E|].
  exact (parse_concatenation _
           [("FUNCTION", "function f"); ("IDENTIFIER", "g")] _ E).
Defined.

Lemma followed_by_nothing : forall r, followed_by [] r = r.
Proof. intros [ast|e|]; reflexivity. Qed.

Ltac compare_kinds :=
  repeat match goal with
         | |- context [String.eqb ?a ?b] =>
             let r := eval vm_compute in (String.eqb a b) in
             change (String.eqb a b) with r
         end;
  cbv iota.

Lemma declaration_needs_name : forall kind lexeme next rest,
    kind = "CLASS" \/ kind = "FUNCTION" ->
    String.eqb (fst next) "IDENTIFIER" = false ->
    parse ((kind, lexeme) :: next :: rest) =
    Raise (ParserExpected "IDENTIFIER" (Some next)).
Proof.
  intros kind lexeme [k v] rest Hk Hn. cbn [fst] in Hn.
  assert (E : parse_fuel 1 ((kind, lexeme) :: (k, v) :: rest) =
              Raise (ParserExpected "IDENTIFIER" (Some (k, v)))).
  { assert (C : forall A (a : token -> A),
               (name <- consume ((kind, lexeme) :: (k, v) :: rest)
                          "IDENTIFIER" ;;
                ret (a name)) 1
               = Raise (ParserExpected "IDENTIFIER" (Some (k, v)))).
    { intros A a. unfold bind. rewrite consume_spec.
      cbn [nth_error fst]. rewrite Hn. reflexivity. }
    unfold parse_fuel. simpl parse_loop. rewrite bind_peek.
    cbn [nth_error fst].
    destruct Hk as [->| ->]; compare_kinds;
      unfold parse_class, parse_function; unfold bind at 1;
      (erewrite bind_run; [|apply consume_run; reflexivity]);
      rewrite C; reflexivity. }
  rewrite <- (parse_fuel_irrelevant _ 1); rewrite E;
    [reflexivity|discriminate].
Qed.

(** X15. The items of the top level that are one or two tokens.  A
    FOLDER token and a COMMENT token add no node.  A CLASS or FUNCTION
    token followed by an IDENTIFIER token adds one CLASS or FUNCTION
    node, whose value is the lexeme of the IDENTIFIER token, whatever the
    lexeme of the CLASS or FUNCTION token holds; followed by another
    token, or by none, it is the parse error that expected IDENTIFIER,
    whatever comes later. *)
Theorem top_level_items : forall lexeme name rest,
    parse (("FOLDER", lexeme) :: rest) = parse rest /\
    parse (("COMMENT", lexeme) :: rest) = parse rest /\
    parse (("CLASS", lexeme) :: ("IDENTIFIER", name) :: rest) =
      followed_by [mkNode "CLASS" [] (StrValue name)] (parse rest) /\
    parse (("FUNCTION", lexeme) :: ("IDENTIFIER", name) :: rest) =
      followed_by [mkNode "FUNCTION" [] (StrValue name)] (parse rest) /\
    (forall kind,
        kind = "CLASS" \/ kind = "FUNCTION" ->
        parse [(kind, lexeme)] = Raise (ParserExpected "IDENTIFIER" None) /\
        forall next,
          String.eqb (fst next) "IDENTIFIER" = false ->
          parse ((kind, lexeme) :: next :: rest) =
          Raise (ParserExpected "IDENTIFIER" (Some next))).
Proof.
  intros lexeme name rest.
  split; [|split; [|split; [|split]]].
  - rewrite <- (followed_by_nothing (parse rest)).
    apply (parse_app [("FOLDER", lexeme)] rest []). reflexivity.
  - rewrite <- (followed_by_nothing (parse rest)).
    apply (parse_app [("COMMENT", lexeme)] rest []). reflexivity.
  - apply (parse_app [("CLASS", lexeme); ("IDENTIFIER", name)] rest).
    reflexivity.
  - apply (parse_app [("FUNCTION", lexeme); ("IDENTIFIER", name)] rest).
    reflexivity.
  - intros kind Hk. split.
    + destruct Hk as [->| ->]; reflexivity.
    + intros next Hn. apply declaration_needs_name; assumption.
Qed.

(* ================================================================= *)
(** ** The grammar of the parser *)

(** *** Every sequence of the grammar is parsed *)

Lemma parts_tokens_length : forall parts,
    length (parts_tokens parts) = 2 * length parts.
Proof.
  unfold parts_tokens.
  induction parts as [|p parts IH]; simpl; [reflexivity|].
  rewrite IH. lia.
Qed.

Lemma parse_import_loop_parts : forall parts tokens i acc fuel tail,
    skipn i tokens = parts_tokens parts ++ tail ->
    head_is_not "DOT" tail ->
    length parts < fuel ->
    parse_import_loop tokens fuel acc i =
    Return (dotted acc (map snd parts), i + 2 * length parts).
Proof.
  induction parts as [|p parts IH]; intros tokens i acc fuel tail Hs Ht Hf;
    (destruct fuel as [|fuel]; [simpl in Hf; lia|]).
  - simpl in Hs. simpl parse_import_loop. unfold bind, peek.
    rewrite nth_error_head_skipn, Hs.
    destruct tail as [|t tail]; simpl.
    + rewrite Nat.add_0_r. reflexivity.
    + simpl in Ht. rewrite Ht, Nat.add_0_r. reflexivity.
  - change (parts_tokens (p :: parts))
      with (("DOT", fst p) :: ("IDENTIFIER", snd p) :: parts_tokens parts)
      in Hs.
    simpl in Hs. apply skipn_cons in Hs. destruct Hs as [Hn Hs].
    apply skipn_cons in Hs. destruct Hs as [Hn' Hs].
    simpl parse_import_loop.
    rewrite (bind_run _ _ _ _ _ _ _ (peek_run _ _ _ Hn)).
    simpl fst. rewrite String.eqb_refl.
    rewrite (bind_run _ _ _ _ _ _ _ (consume_run _ _ _ _ Hn)).
    rewrite (bind_run _ _ _ _ _ _ _ (consume_run _ _ _ _ Hn')).
    rewrite (IH tokens (S (S i)) _ fuel tail Hs Ht)
      by (simpl in Hf; lia).
    simpl. f_equal. f_equal. lia.
Qed.

Lemma import_parses : forall l first parts sc fuel,
    length parts < fuel ->
    parse_import
      (("IMPORT", l) :: ("IDENTIFIER", first)
       :: parts_tokens parts ++ [("SEMICOLON", sc)]) fuel 0 =
    Return (mkNode "IMPORT" [] (StrValue (dotted first (map snd parts))),
            3 + 2 * length parts).
Proof.
  intros l first parts sc fuel Hf.
  set (tokens := ("IMPORT", l) :: ("IDENTIFIER", first)
                 :: parts_tokens parts ++ [("SEMICOLON", sc)]).
  assert (H0 : nth_error tokens 0 = Some ("IMPORT", l)) by reflexivity.
  assert (H1 : nth_error tokens 1 = Some ("IDENTIFIER", first))
    by reflexivity.
  assert (H2 : skipn 2 tokens = parts_tokens parts ++ [("SEMICOLON", sc)])
    by reflexivity.
  assert (H3 : @nth_error token tokens (2 + 2 * length parts)
               = Some ("SEMICOLON", sc)).
  { change (nth_error (parts_tokens parts ++ [("SEMICOLON", sc)])
                      (2 * length parts) = Some ("SEMICOLON", sc)).
    rewrite nth_error_app2 by (rewrite parts_tokens_length; lia).
    rewrite parts_tokens_length, Nat.sub_diag. reflexivity. }
  unfold parse_import.
  rewrite (bind_run _ _ _ _ _ _ _ (consume_run _ _ _ _ H0)).
  rewrite (bind_run _ _ _ _ _ _ _ (consume_run _ _ _ _ H1)).
  rewrite (bind_run _ _ _ _ _ _ _
             (parse_import_loop_parts parts tokens 2 first fuel _
                H2 eq_refl Hf)).
  rewrite (bind_run _ _ _ _ _ _ _ (consume_run _ _ _ _ H3)).
  reflexivity.
Qed.

(** A statement begins with a YEET, IMPORT or IF token. *)
Lemma statement_first_token : forall ts n,
    statement_of ts n ->
    exists t rest, ts = t :: rest /\
                   (fst t = "YEET" \/ fst t = "IMPORT" \/ fst t = "IF").
Proof.
  intros ts n H. destruct H; eexists; eexists; (split; [reflexivity|]);
    simpl; auto.
Qed.

Lemma more_fuel_statement : forall tokens fuel fuel' i n j,
    parse_statement tokens fuel i = Return (n, j) -> fuel <= fuel' ->
    parse_statement tokens fuel' i = Return (n, j).
Proof.
  intros tokens fuel fuel' i n j H L.
  destruct (below_mutual tokens fuel fuel' L) as [B _].
  rewrite (B i); [exact H|]. rewrite H. discriminate.
Qed.

Lemma more_fuel_body_loop : forall tokens fuel fuel' acc i ns j,
    parse_body_loop tokens fuel acc i = Return (ns, j) -> fuel <= fuel' ->
    parse_body_loop tokens fuel' acc i = Return (ns, j).
Proof.
  intros tokens fuel fuel' acc i ns j H L.
  destruct (below_mutual tokens fuel fuel' L) as [_ [_ [_ B]]].
  rewrite (B acc i); [exact H|]. rewrite H. discriminate.
Qed.

Lemma parse_loop_at_end : forall tokens fuel ast,
    parse_loop tokens (S fuel) ast (length tokens) =
    Return (ast, length tokens).
Proof.
  intros tokens fuel ast. simpl. rewrite bind_peek.
  replace (nth_error tokens (length tokens)) with (@None token);
    [reflexivity|].
  symmetry. apply nth_error_None. lia.
Qed.

Lemma parse_loop_import : forall tokens fuel ast i lexeme,
    nth_error tokens i = Some ("IMPORT", lexeme) ->
    parse_loop tokens (S fuel) ast i =
    (n <- parse_import tokens fuel ;; parse_loop tokens fuel (ast ++ [n])) i.
Proof.
  intros tokens fuel ast i lexeme H. simpl.
  rewrite (bind_run _ _ _ _ _ _ _ (peek_run _ _ _ H)). reflexivity.
Qed.

Lemma parse_loop_if : forall tokens fuel ast i lexeme,
    nth_error tokens i = Some ("IF", lexeme) ->
    parse_loop tokens (S fuel) ast i =
    (n <- parse_if tokens fuel ;; parse_loop tokens fuel (ast ++ [n])) i.
Proof.
  intros tokens fuel ast i lexeme H. simpl.
  rewrite (bind_run _ _ _ _ _ _ _ (peek_run _ _ _ H)). reflexivity.
Qed.

Lemma statements_parse :
  (forall ts n,
      statement_of ts n ->
      exists fuel,
        parse_statement ts fuel 0 = Return (n, length ts) /\
        (node_type n <> "YEET" ->
         forall ast, parse_loop ts (S fuel) ast 0 =
                     Return (ast ++ [n], length ts))) /\
  (forall ts ns,
      statements_of ts ns ->
      exists fuel, forall acc rb,
        parse_body_loop (ts ++ [("RBRACE", rb)]) fuel acc 0 =
        Return (acc ++ ns, length ts)).
Proof.
  apply statement_mutual_ind.
  - intros y s sc. exists 1. split; [reflexivity|].
    intros N. exfalso. apply N. reflexivity.
  - intros l first parts sc. exists (S (S (length parts))).
    set (tokens := ("IMPORT", l) :: ("IDENTIFIER", first)
                   :: parts_tokens parts ++ [("SEMICOLON", sc)]).
    assert (L : 3 + 2 * length parts = length tokens).
    { unfold tokens. simpl. rewrite length_app, parts_tokens_length.
      simpl. lia. }
    assert (HI : forall fuel,
               length parts < fuel ->
               parse_import tokens fuel 0 =
               Return (mkNode "IMPORT" []
                         (StrValue (dotted first (map snd parts))),
                       length tokens)).
    { intros fuel Hf. rewrite <- L. apply import_parses. exact Hf. }
    assert (H0 : nth_error tokens 0 = Some ("IMPORT", l)) by reflexivity.
    split.
    + simpl parse_statement.
      rewrite (bind_run _ _ _ _ _ _ _ (peek_run _ _ _ H0)).
      rewrite (bind_run _ _ _ _ _ _ _ (item0_run _ _)). cbn [fst].
      compare_kinds. apply HI. lia.
    + intros _ ast. rewrite (parse_loop_import _ _ _ _ _ H0).
      rewrite (bind_run _ _ _ _ _ _ _
                 (HI (S (S (length parts))) (Nat.lt_lt_succ_r _ _
                                               (Nat.lt_succ_diag_r _)))).
      apply parse_loop_at_end.
  - intros l c lb body rb nodes Hc _ [fuel IH].
    exists (S (S (S fuel))).
    set (tokens := ("IF", l) :: c :: ("LBRACE", lb)
                   :: body ++ [("RBRACE", rb)]).
    assert (H0 : nth_error tokens 0 = Some ("IF", l)) by reflexivity.
    assert (H1 : nth_error tokens 1 = Some c) by reflexivity.
    assert (H2 : nth_error tokens 2 = Some ("LBRACE", lb)) by reflexivity.
    assert (H3 : @nth_error token tokens (3 + length body)
                 = Some ("RBRACE", rb)).
    { change (nth_error (body ++ [("RBRACE", rb)]) (length body)
              = Some ("RBRACE", rb)).
      rewrite nth_error_app2 by lia. rewrite Nat.sub_diag. reflexivity. }
    assert (HL : parse_body_loop tokens fuel [] 3 =
                 Return (nodes, 3 + length body)).
    { destruct (shifted_mutual [("IF", l); c; ("LBRACE", lb)]
                  (body ++ [("RBRACE", rb)]) fuel) as [_ [_ [_ S]]].
      specialize (S [] 0).
      transitivity (lift 3 (parse_body_loop (body ++ [("RBRACE", rb)])
                              fuel [] 0)); [exact S|].
      rewrite (IH [] rb). reflexivity. }
    assert (HB : parse_body tokens (S fuel) 2 =
                 Return (mkNode "BODY" nodes NoValue, length tokens)).
    { simpl parse_body.
      rewrite (bind_run _ _ _ _ _ _ _ (consume_run _ _ _ _ H2)).
      rewrite (bind_run _ _ _ _ _ _ _ HL).
      rewrite (bind_run _ _ _ _ _ _ _ (consume_run _ _ _ _ H3)).
      unfold ret. f_equal. f_equal.
      - destruct nodes; reflexivity.
      - unfold tokens. simpl. rewrite length_app. simpl. lia. }
    assert (HI : parse_if tokens (S (S fuel)) 0 =
                 Return (mkNode "IF"
                           [expression_node c;
                            mkNode "BODY" nodes NoValue] NoValue,
                         length tokens)).
    { change (parse_if tokens (S (S fuel)))
        with (consume tokens "IF" >>
              condition <- parse_expression tokens ;;
              body <- parse_body tokens (S fuel) ;;
              ret (new_Node "IF" (Some [condition; body]) NoValue)).
      rewrite (bind_run _ _ _ _ _ _ _ (consume_run _ _ _ _ H0)).
      rewrite (bind_run _ _ _ _ _ _ _ (parse_expression_run _ _ _ H1 Hc)).
      rewrite (bind_run _ _ _ _ _ _ _ HB). reflexivity. }
    change (parse_statement tokens (S (S (S fuel))))
      with (token <- peek tokens ;;
            kind <- item0 token ;;
            if String.eqb kind "IF" then parse_if tokens (S (S fuel))
            else if String.eqb kind "IDENTIFIER" then
              next <- call_peek tokens [1] ;;
              if match next with
                 | Some tok => String.eqb (fst tok) "LPAREN"
                 | None => false
                 end
              then parse_function_call tokens (S (S fuel))
              else parse_assignment tokens
            else if String.eqb kind "YEET" then parse_yeet tokens
            else if String.eqb kind "IMPORT"
                 then parse_import tokens (S (S fuel))
            else match token with
                 | Some tok => raise (ParserUnexpectedToken tok)
                 | None => raise TypeErrorNoneSubscript
                 end).
    split.
    + rewrite (bind_run _ _ _ _ _ _ _ (peek_run _ _ _ H0)).
      rewrite (bind_run _ _ _ _ _ _ _ (item0_run _ _)). cbn [fst].
      compare_kinds. exact HI.
    + intros _ ast. rewrite (parse_loop_if _ _ _ _ _ H0).
      assert (HI' : parse_if tokens (S (S (S fuel))) 0 =
                    parse_if tokens (S (S fuel)) 0).
      { destruct (below_mutual tokens (S (S fuel)) (S (S (S fuel)))
                    (Nat.le_succ_diag_r _)) as [_ [B _]].
        apply B. rewrite HI. discriminate. }
      rewrite HI in HI'.
      rewrite (bind_run _ _ _ _ _ _ _ HI'). apply parse_loop_at_end.
  - exists 1. intros acc rb. simpl. rewrite app_nil_r. reflexivity.
  - intros ts n ts' ns Hs [f1 [IH1 _]] _ [f2 IH2].
    exists (S (Nat.max f1 f2)). intros acc rb.
    destruct (statement_first_token _ _ Hs) as [t [rest [E K]]].
    assert (Hk : negb (String.eqb (fst t) "RBRACE") = true).
    { destruct K as [->|[->| ->]]; reflexivity. }
    assert (H0 : nth_error ((ts ++ ts') ++ [("RBRACE", rb)]) 0 = Some t).
    { rewrite E. reflexivity. }
    assert (H1 : parse_statement ((ts ++ ts') ++ [("RBRACE", rb)])
                   (Nat.max f1 f2) 0 = Return (n, length ts)).
    { rewrite <- app_assoc.
      destruct (ext_mutual ts (ts' ++ [("RBRACE", rb)]) (Nat.max f1 f2))
        as [X _].
      apply (X 0 n (length ts) (Nat.le_0_l _)).
      apply (more_fuel_statement _ f1); [exact IH1|lia]. }
    assert (H2 : parse_body_loop ((ts ++ ts') ++ [("RBRACE", rb)])
                   (Nat.max f1 f2) (acc ++ [n]) (length ts) =
                 Return (acc ++ n :: ns, length (ts ++ ts'))).
    { rewrite <- app_assoc.
      destruct (shifted_mutual ts (ts' ++ [("RBRACE", rb)])
                  (Nat.max f1 f2)) as [_ [_ [_ S]]].
      specialize (S (acc ++ [n]) 0). rewrite Nat.add_0_r in S.
      transitivity (lift (length ts)
                      (parse_body_loop (ts' ++ [("RBRACE", rb)])
                         (Nat.max f1 f2) (acc ++ [n]) 0)); [exact S|].
      rewrite (more_fuel_body_loop _ f2 _ _ _ _ _ (IH2 _ rb))
        by lia.
      simpl. rewrite <- app_assoc, length_app. reflexivity. }
    simpl parse_body_loop.
    rewrite (bind_run _ _ _ _ _ _ _ (peek_run _ _ _ H0)).
    rewrite Hk.
    rewrite (bind_run _ _ _ _ _ _ _ H1). exact H2.
Qed.

Lemma statement_item_parses : forall ts n,
    statement_of ts n -> node_type n <> "YEET" -> parse ts = Return [n].
Proof.
  intros ts n H N.
  destruct (proj1 statements_parse _ _ H) as [fuel [_ X]].
  rewrite <- (parse_fuel_irrelevant ts (S fuel)); unfold parse_fuel;
    rewrite (X N []); [reflexivity|discriminate].
Qed.

Lemma variable_item_parses : forall l name annotation e value,
    is_expression_token value = true ->
    parse (("VARIABLE", l) :: ("IDENTIFIER", name)
           :: annotation_tokens annotation ++ [("EQUALS", e); value]) =
    Return [mkNode "VARIABLE" []
              (VarValue name (option_map snd annotation)
                        (VStr (snd value)))].
Proof.
  intros l name [[a t]|] e [k v] H; unfold is_expression_token in H;
    simpl in H; apply orb_true_iff in H; destruct H as [H|H];
    apply String.eqb_eq in H; subst k; reflexivity.
Qed.

Lemma items_parse : forall ts ns,
    items_of ts ns -> parse ts = Return ns.
Proof.
  intros ts ns H. induction H as
      [ | l ts ns H IH | l ts ns H IH | l name ts ns H IH
      | l name ts ns H IH | l name annotation e value ts ns Hv H IH
      | ts n ts' ns Hs Hn H IH ].
  - reflexivity.
  - etransitivity; [apply (parse_app [("FOLDER", l)] ts [] eq_refl)|].
    rewrite IH. reflexivity.
  - etransitivity; [apply (parse_app [("COMMENT", l)] ts [] eq_refl)|].
    rewrite IH. reflexivity.
  - etransitivity;
      [apply (parse_app [("CLASS", l); ("IDENTIFIER", name)] ts _
                eq_refl)|].
    rewrite IH. reflexivity.
  - etransitivity;
      [apply (parse_app [("FUNCTION", l); ("IDENTIFIER", name)] ts _
                eq_refl)|].
    rewrite IH. reflexivity.
  - replace (("VARIABLE", l) :: ("IDENTIFIER", name)
             :: annotation_tokens annotation ++ ("EQUALS", e) :: value :: ts)
      with ((("VARIABLE", l) :: ("IDENTIFIER", name)
             :: annotation_tokens annotation ++ [("EQUALS", e); value])
            ++ ts)
      by (simpl; rewrite <- app_assoc; reflexivity).
    rewrite (parse_app _ ts _ (variable_item_parses _ _ _ _ _ Hv)), IH.
    reflexivity.
  - rewrite (parse_app ts ts' _ (statement_item_parses _ _ Hs Hn)), IH.
    reflexivity.
Qed.

(** *** Every sequence that is parsed is one of the grammar *)

Lemma skipn_after : forall (tokens : list token) i ts rest,
    skipn i tokens = ts ++ rest ->
    skipn (i + length ts) tokens = rest.
Proof.
  intros tokens i ts rest H. rewrite Nat.add_comm, <- skipn_skipn, H.
  rewrite skipn_app, Nat.sub_diag, skipn_all. reflexivity.
Qed.

Lemma reads_bind : forall tokens A B R1 R2 (m : M A) (k : A -> M B),
    reads tokens R1 m -> (forall a, reads tokens (R2 a) (k a)) ->
    reads tokens
      (fun ts rest b =>
         exists a ts1 ts2,
           ts = ts1 ++ ts2 /\ R1 ts1 (ts2 ++ rest) a /\ R2 a ts2 rest b)
      (bind m k).
Proof.
  intros tokens A B R1 R2 m k Hm Hk i b j H.
  apply bind_return in H. destruct H as [a [i' [H1 H2]]].
  destruct (Hm _ _ _ H1) as [ts1 [rest1 [S1 [-> P1]]]].
  destruct (Hk a _ _ _ H2) as [ts2 [rest2 [S2 [-> P2]]]].
  rewrite (skipn_after _ _ _ _ S1) in S2. subst rest1.
  exists (ts1 ++ ts2), rest2. split; [|split].
  - rewrite <- app_assoc. exact S1.
  - rewrite length_app. lia.
  - exists a, ts1, ts2. auto.
Qed.

Lemma reads_weaken : forall tokens A (R R' : _ -> _ -> A -> Prop) m,
    reads tokens R m ->
    (forall ts rest a, R ts rest a -> R' ts rest a) ->
    reads tokens R' m.
Proof.
  intros tokens A R R' m H W i a j E.
  destruct (H _ _ _ E) as [ts [rest [S [J P]]]]. eauto 6.
Qed.

Lemma reads_ret : forall tokens A (a : A),
    reads tokens (fun ts rest b => ts = [] /\ b = a) (ret a).
Proof.
  intros tokens A a i b j H. injection H as <- <-.
  exists [], (skipn i tokens). auto.
Qed.

Lemma reads_raise : forall tokens A e,
    reads tokens (fun _ _ (_ : A) => False) (raise e).
Proof. intros tokens A e i a j H. discriminate. Qed.

Lemma reads_out_of_fuel : forall tokens A (R : _ -> _ -> A -> Prop),
    reads tokens R out_of_fuel.
Proof. intros tokens A R i a j H. discriminate. Qed.

Lemma reads_peek : forall tokens,
    reads tokens (fun ts rest a => ts = [] /\ a = hd_error rest)
          (peek tokens).
Proof.
  intros tokens i a j H. injection H as <- <-.
  exists [], (skipn i tokens). split; [reflexivity|]. split; [simpl; lia|].
  split; [reflexivity|]. apply nth_error_head_skipn.
Qed.

Lemma reads_call_peek : forall tokens arg,
    reads tokens (fun _ _ _ => False) (call_peek tokens [arg]).
Proof. intros tokens arg i a j H. discriminate. Qed.

Lemma reads_item0 : forall tokens t,
    reads tokens
      (fun ts rest kind =>
         ts = [] /\ exists tok, t = Some tok /\ kind = fst tok)
      (item0 t).
Proof.
  intros tokens [tok|] i a j H; [|discriminate]. injection H as <- <-.
  exists [], (skipn i tokens). split; [reflexivity|]. split; [simpl; lia|].
  eauto.
Qed.

Lemma reads_consume : forall tokens kind,
    reads tokens (fun ts rest a => ts = [a] /\ fst a = kind)
          (consume tokens kind).
Proof.
  intros tokens kind i a j H. rewrite consume_spec in H.
  destruct (nth_error tokens i) as [t|] eqn:E; [|discriminate].
  destruct (String.eqb (fst t) kind) eqn:K; [|discriminate].
  injection H as <- <-. apply String.eqb_eq in K.
  destruct (skipn_nth _ _ _ E) as [rest S].
  exists [t], rest. split; [exact S|]. split; [simpl; lia|]. auto.
Qed.

Lemma reads_if : forall tokens A R1 R2 (b : bool) (m1 m2 : M A),
    reads tokens R1 m1 -> reads tokens R2 m2 ->
    reads tokens
      (fun ts rest a =>
         (b = true /\ R1 ts rest a) \/ (b = false /\ R2 ts rest a))
      (if b then m1 else m2).
Proof.
  intros tokens A R1 R2 [|] m1 m2 H1 H2 i a j E.
  - destruct (H1 _ _ _ E) as [ts [rest [S [J P]]]]. eauto 8.
  - destruct (H2 _ _ _ E) as [ts [rest [S [J P]]]]. eauto 8.
Qed.

Lemma reads_option : forall tokens A B R1 R2 (t : option B)
    (m1 : B -> M A) (m2 : M A),
    (forall x, reads tokens (R1 x) (m1 x)) -> reads tokens R2 m2 ->
    reads tokens
      (fun ts rest a =>
         (exists x, t = Some x /\ R1 x ts rest a)
         \/ (t = None /\ R2 ts rest a))
      (match t with Some x => m1 x | None => m2 end).
Proof.
  intros tokens A B R1 R2 [x|] m1 m2 H1 H2 i a j E.
  - destruct (H1 x _ _ _ E) as [ts [rest [S [J P]]]]. eauto 9.
  - destruct (H2 _ _ _ E) as [ts [rest [S [J P]]]]. eauto 9.
Qed.

Ltac read_steps :=
  repeat first
    [ apply reads_ret | apply reads_raise | apply reads_peek
    | apply reads_call_peek | apply reads_item0 | apply reads_consume
    | apply reads_out_of_fuel
    | match goal with
      | H : reads _ _ _ |- _ => apply H
      | H : forall _, reads _ _ _ |- _ => apply H
      end
    | eapply reads_bind; [|intro]
    | eapply reads_if
    | eapply reads_option; [intro|] ].

Ltac take_apart :=
  repeat match goal with
         | H : exists _, _ |- _ => destruct H
         | H : _ /\ _ |- _ => destruct H
         | H : _ \/ _ |- _ => destruct H
         | H : False |- _ => contradiction
         | H : Some _ = Some _ |- _ => injection H as H
         | H : Some _ = None |- _ => discriminate H
         | H : None = Some _ |- _ => discriminate H
         | H : true = false |- _ => discriminate H
         | H : false = true |- _ => discriminate H
         | H : String.eqb _ _ = true |- _ => apply String.eqb_eq in H
         end;
  subst.

Ltac name_tokens :=
  repeat match goal with
         | H : fst ?t = _ |- _ =>
             is_var t; destruct t; cbn [fst snd] in *; subst
         | H : _ = fst ?t |- _ =>
             is_var t; destruct t; cbn [fst snd] in *; subst
         end.

Section Sound.
Variable tokens : list token.

Lemma reads_parse_yeet :
  reads tokens (fun ts rest n => statement_of ts n) (parse_yeet tokens).
Proof.
  unfold parse_yeet. eapply reads_weaken; [read_steps|].
  cbv beta. intros ts rest n H. take_apart. name_tokens.
  apply yeet_statement.
Qed.

Lemma reads_parse_expression :
  reads tokens
    (fun ts rest n =>
       exists c, ts = [c] /\ is_expression_token c = true /\
                 n = expression_node c)
    (parse_expression tokens).
Proof.
  unfold parse_expression, parse_identifier, parse_string.
  eapply reads_weaken; [read_steps|].
  cbv beta. intros ts rest n H. take_apart; name_tokens;
    eexists; (split; [reflexivity|]); split; reflexivity.
Qed.

Lemma reads_parse_class :
  reads tokens
    (fun ts rest n =>
       exists l name, ts = [("CLASS", l); ("IDENTIFIER", name)] /\
                      n = mkNode "CLASS" [] (StrValue name))
    (parse_class tokens).
Proof.
  unfold parse_class. eapply reads_weaken; [read_steps|].
  cbv beta. intros ts rest n H. take_apart. name_tokens.
  do 2 eexists. split; reflexivity.
Qed.

Lemma reads_parse_function :
  reads tokens
    (fun ts rest n =>
       exists l name, ts = [("FUNCTION", l); ("IDENTIFIER", name)] /\
                      n = mkNode "FUNCTION" [] (StrValue name))
    (parse_function tokens).
Proof.
  unfold parse_function. eapply reads_weaken; [read_steps|].
  cbv beta. intros ts rest n H. take_apart. name_tokens.
  do 2 eexists. split; reflexivity.
Qed.

Lemma reads_parse_folder :
  reads tokens (fun ts rest (_ : unit) => exists l, ts = [("FOLDER", l)])
        (parse_folder tokens).
Proof.
  unfold parse_folder. eapply reads_weaken; [read_steps|].
  cbv beta. intros ts rest n H. take_apart. name_tokens.
  eexists. reflexivity.
Qed.

Lemma reads_parse_import_loop : forall fuel name,
    reads tokens
      (fun ts rest r =>
         exists parts,
           ts = parts_tokens parts /\ r = dotted name (map snd parts))
      (parse_import_loop tokens fuel name).
Proof.
  induction fuel as [|fuel IH]; intros name; [apply reads_out_of_fuel|].
  simpl. eapply reads_weaken; [read_steps|].
  cbv beta. intros ts rest n H. take_apart; name_tokens.
  all: first
         [ match goal with
           | |- context [[("DOT", ?d)] ++ [("IDENTIFIER", ?x)]
                         ++ parts_tokens ?p] =>
               exists ((d, x) :: p)
           end; split; reflexivity
         | exists []; split; reflexivity ].
Qed.

Lemma reads_parse_import : forall fuel,
    reads tokens (fun ts rest n => statement_of ts n)
          (parse_import tokens fuel).
Proof.
  intros fuel. unfold parse_import.
  pose proof (reads_parse_import_loop fuel) as L.
  eapply reads_weaken; [read_steps|].
  cbv beta. intros ts rest n H. take_apart. name_tokens.
  apply import_statement.
Qed.

Lemma reads_parse_variable :
  reads tokens
    (fun ts rest n =>
       (exists l name annotation e value,
           ts = ("VARIABLE", l) :: ("IDENTIFIER", name)
                :: annotation_tokens annotation
                ++ [("EQUALS", e); value] /\
           is_expression_token value = true /\
           n = mkNode "VARIABLE" []
                 (VarValue name (option_map snd annotation)
                           (VStr (snd value))))
       \/ (exists t rest', rest = t :: rest' /\ fst t = "BOOLEAN"))
    (parse_variable tokens).
Proof.
  unfold parse_variable, parse_value.
  eapply reads_weaken; [read_steps|].
  cbv beta. intros ts rest n H. take_apart; name_tokens;
    first
      [ right;
        match goal with
        | H : hd_error _ = Some ("BOOLEAN", ?v) |- _ =>
            simpl in H; destruct rest as [|t rest']; [discriminate H|];
            simpl in H; injection H as ->; exists ("BOOLEAN", v), rest';
            split; reflexivity
        end
      | match goal with
        | |- context [[("ARROW", ?a)] ++ [("IDENTIFIER", ?t)] ++ []] =>
            left; do 2 eexists; exists (Some (a, t)); do 2 eexists;
            split; [reflexivity|split; reflexivity]
        end
      | left; do 2 eexists; exists None; do 2 eexists;
        split; [reflexivity|split; reflexivity] ].
Qed.

Lemma reads_mutual : forall fuel,
    reads tokens (fun ts rest n => statement_of ts n)
          (parse_statement tokens fuel) /\
    reads tokens (fun ts rest n => statement_of ts n)
          (parse_if tokens fuel) /\
    reads tokens
      (fun ts rest b =>
         exists lb body rb nodes,
           ts = ("LBRACE", lb) :: body ++ [("RBRACE", rb)] /\
           statements_of body nodes /\
           b = mkNode "BODY" nodes NoValue)
      (parse_body tokens fuel) /\
    forall acc,
      reads tokens
        (fun ts rest r =>
           exists nodes, statements_of ts nodes /\ r = acc ++ nodes)
        (parse_body_loop tokens fuel acc).
Proof.
  induction fuel as [|fuel [IHs [IHi [IHb IHl]]]].
  - split; [|split; [|split]]; intros; apply reads_out_of_fuel.
  - pose proof (reads_parse_import fuel) as Him.
    pose proof reads_parse_expression as Hex.
    pose proof reads_parse_yeet as Hy.
    split; [|split; [|split]]; [| | |intros acc]; simpl.
    + eapply reads_weaken; [read_steps|].
      cbv beta. intros ts rest n H. take_apart; assumption.
    + eapply reads_weaken; [read_steps|].
      cbv beta. intros ts rest n H. take_apart. name_tokens.
      simpl. rewrite app_nil_r. apply if_statement; assumption.
    + eapply reads_weaken; [read_steps|].
      cbv beta. intros ts rest n H. take_apart. name_tokens.
      simpl. do 4 eexists. split; [reflexivity|]. split; [eassumption|].
      apply new_body.
    + eapply reads_weaken; [read_steps|].
      cbv beta. intros ts rest n H. take_apart; name_tokens.
      * simpl. eexists. split; [apply more_statements; eassumption|].
        rewrite <- app_assoc. reflexivity.
      * exists []. split; [constructor|]. symmetry. apply app_nil_r.
      * exists []. split; [constructor|]. symmetry. apply app_nil_r.
Qed.

(** The loop of [parse] does not return from a BOOLEAN token. *)
Lemma parse_loop_boolean : forall fuel ast i t nodes j,
    nth_error tokens i = Some t -> fst t = "BOOLEAN" ->
    parse_loop tokens fuel ast i <> Return (nodes, j).
Proof.
  intros [|fuel] ast i [k v] nodes j H K; [discriminate|].
  simpl in K. subst k. simpl.
  rewrite (bind_run _ _ _ _ _ _ _ (peek_run _ _ _ H)). discriminate.
Qed.

Lemma parse_loop_items : forall fuel ast i nodes j,
    parse_loop tokens fuel ast i = Return (nodes, j) ->
    exists ns, nodes = ast ++ ns /\ items_of (skipn i tokens) ns.
Proof.
  induction fuel as [|fuel IH]; intros ast i nodes j H; [discriminate|].
  simpl in H. rewrite bind_peek in H.
  destruct (nth_error tokens i) as [tok|] eqn:E.
  - destruct (skipn_nth _ _ _ E) as [rest0 S0].
    assert (K : forall A (R : _ -> _ -> A -> Prop) (m : M A)
                       (k : A -> list Node),
               reads tokens R m ->
               (a <- m ;; parse_loop tokens fuel (k a)) i
               = Return (nodes, j) ->
               exists a ts rest ns,
                 skipn i tokens = ts ++ rest /\ R ts rest a /\
                 nodes = k a ++ ns /\ items_of rest ns /\
                 parse_loop tokens fuel (k a) (i + length ts)
                 = Return (nodes, j)).
    { intros A R m k Hm Hb. apply bind_return in Hb.
      destruct Hb as [a [i' [H1 H2]]].
      destruct (Hm _ _ _ H1) as [ts [rest [S [-> P]]]].
      destruct (IH _ _ _ _ H2) as [ns [Hn Hi]].
      rewrite (skipn_after _ _ _ _ S) in Hi.
      exists a, ts, rest, ns. auto. }
    destruct (String.eqb (fst tok) "FOLDER").
    { destruct (K _ _ _ (fun _ => ast) reads_parse_folder H)
        as [a [ts [rest [ns [S [[l ->] [-> [I _]]]]]]]].
      exists ns. split; [reflexivity|]. rewrite S.
      apply folder_item. exact I. }
    destruct (String.eqb (fst tok) "CLASS").
    { destruct (K _ _ _ (fun n => ast ++ [n]) reads_parse_class H)
        as [a [ts [rest [ns [S [[l [name [-> ->]]] [-> [I _]]]]]]]].
      exists (mkNode "CLASS" [] (StrValue name) :: ns).
      split; [rewrite <- app_assoc; reflexivity|]. rewrite S.
      apply class_item. exact I. }
    destruct (String.eqb (fst tok) "VARIABLE").
    { destruct (K _ _ _ (fun n => ast ++ [n]) reads_parse_variable H)
        as [a [ts [rest [ns [S [V [-> [I L]]]]]]]].
      destruct V as [[l [name [annotation [e [value [-> [Hv ->]]]]]]]
                    |[t [rest' [-> Hb]]]].
      - eexists. split; [rewrite <- app_assoc; reflexivity|]. rewrite S.
        simpl. rewrite <- app_assoc. simpl.
        apply variable_item; assumption.
      - exfalso. apply skipn_after in S.
        apply (parse_loop_boolean fuel _ (i + length ts) t _ _) in L;
          [exact L| |exact Hb].
        rewrite nth_error_head_skipn, S. reflexivity. }
    destruct (String.eqb (fst tok) "FUNCTION").
    { destruct (K _ _ _ (fun n => ast ++ [n]) reads_parse_function H)
        as [a [ts [rest [ns [S [[l [name [-> ->]]] [-> [I _]]]]]]]].
      exists (mkNode "FUNCTION" [] (StrValue name) :: ns).
      split; [rewrite <- app_assoc; reflexivity|]. rewrite S.
      apply function_item. exact I. }
    destruct (String.eqb (fst tok) "IF") eqn:Kif.
    { destruct (reads_mutual fuel) as [_ [Hif _]].
      destruct (K _ _ _ (fun n => ast ++ [n]) Hif H)
        as [a [ts [rest [ns [S [Hs [-> [I _]]]]]]]].
      exists (a :: ns).
      split; [rewrite <- app_assoc; reflexivity|]. rewrite S.
      apply statement_item; [exact Hs| |exact I].
      rewrite S0 in S. apply String.eqb_eq in Kif.
      destruct Hs; simpl; try discriminate.
      simpl in S. injection S as -> _. discriminate Kif. }
    destruct (String.eqb (fst tok) "COMMENT") eqn:Kc.
    { apply bind_return in H. destruct H as [[] [i' [H1 H2]]].
      injection H1 as <-.
      destruct (IH _ _ _ _ H2) as [ns [Hn Hi]].
      exists ns. split; [exact Hn|]. rewrite S0.
      apply skipn_cons in S0. destruct S0 as [_ S0].
      replace (i + 1) with (S i) in Hi by lia. rewrite S0 in Hi.
      apply String.eqb_eq in Kc. destruct tok as [k v]. simpl in Kc.
      subst k. apply comment_item. exact Hi. }
    destruct (String.eqb (fst tok) "IMPORT") eqn:Ki; [|discriminate].
    destruct (K _ _ _ (fun n => ast ++ [n]) (reads_parse_import fuel) H)
      as [a [ts [rest [ns [S [Hs [-> [I _]]]]]]]].
    exists (a :: ns).
    split; [rewrite <- app_assoc; reflexivity|]. rewrite S.
    apply statement_item; [exact Hs| |exact I].
    rewrite S0 in S. apply String.eqb_eq in Ki.
    destruct Hs; simpl; try discriminate.
    simpl in S. injection S as -> _. discriminate Ki.
  - injection H as <- _. exists []. split; [symmetry; apply app_nil_r|].
    rewrite skipn_all2 by (apply nth_error_None; exact E). constructor.
Qed.

End Sound.

Lemma parse_items : forall tokens ns,
    parse tokens = Return ns -> items_of tokens ns.
Proof.
  intros tokens ns H. unfold parse, parse_fuel in H.
  destruct (parse_loop tokens (enough tokens) [] 0) as [[nodes j]| |] eqn:E;
    try discriminate.
  injection H as ->.
  destruct (parse_loop_items _ _ _ _ _ _ E) as [ns' [-> I]]. exact I.
Qed.

(** *** The grammar, both ways *)

(** X16. The token sequences on which [parse] returns, when the depth of
    the calls is not what stops it, are exactly those of the grammar of
    top-level items, with exactly its nodes: FOLDER and COMMENT tokens;
    CLASS or FUNCTION and an IDENTIFIER; VARIABLE, IDENTIFIER, an
    optional ARROW and IDENTIFIER, EQUALS and a STRING or IDENTIFIER
    value; imports of dotted names ended by SEMICOLON; and if statements
    whose bodies hold yeet statements, imports and if statements.  The
    fuel of a run bounds the rounds of its loops and the calls of
    [parse_statement], [parse_if] and [parse_body] inside one another;
    Python bounds the latter by its recursion limit.  Some run returns
    nodes exactly when the sequence is one of the grammar with these
    nodes; on such a sequence a run returns these nodes or is stopped by
    its bound, and raises none of the errors of the parser; and some run
    raises one of these errors exactly when the sequence is none of the
    grammar. *)
Theorem parse_accepts_the_grammar : forall tokens,
    (forall ns,
        (exists fuel, parse_fuel fuel tokens = Return ns) <->
        items_of tokens ns) /\
    (forall ns fuel,
        items_of tokens ns ->
        parse_fuel fuel tokens = Return ns \/
        parse_fuel fuel tokens = OutOfFuel) /\
    ((forall ns, ~ items_of tokens ns) <->
     exists fuel e, parse_fuel fuel tokens = Raise e).
Proof.
  intros tokens.
  assert (G : forall ns, parse tokens = Return ns <-> items_of tokens ns).
  { intros ns. split; [apply parse_items|apply items_parse]. }
  assert (F : forall fuel r,
             parse_fuel fuel tokens = r -> r <> OutOfFuel ->
             parse tokens = r).
  { intros fuel r E N. subst r. symmetry.
    apply parse_fuel_irrelevant. exact N. }
  split; [|split; [|split]].
  - intros ns. split.
    + intros [fuel E]. apply G. apply (F fuel); [exact E|discriminate].
    + intros I. exists (enough tokens). apply G. exact I.
  - intros ns fuel I. apply G in I.
    destruct (parse_fuel fuel tokens) as [ns'|e|] eqn:E;
      [left|exfalso|right; reflexivity].
    + rewrite <- I. symmetry. apply (F fuel); [exact E|discriminate].
    + assert (X : parse tokens = Raise e)
        by (apply (F fuel); [exact E|discriminate]).
      congruence.
  - intros N. pose proof (parse_terminates tokens) as T.
    destruct (parse tokens) as [ns|e|] eqn:E.
    + exfalso. apply (N ns). apply G. reflexivity.
    + exists (enough tokens), e. exact E.
    + contradiction.
  - intros [fuel [e E]] ns I. apply G in I.
    assert (X : parse tokens = Raise e)
      by (apply (F fuel); [exact E|discriminate]).
    congruence.
Qed.

(** X17. The statements of a body: [parse_statement], run at the start
    of a token sequence, returns exactly when the sequence begins with a
    statement of the grammar, a yeet statement, an import or an if
    statement with its body, and it returns the node of this statement
    with the cursor after it.  No call and no assignment is among them. *)
Theorem parse_statement_accepts_the_grammar : forall tokens n j,
    (exists fuel, parse_statement tokens fuel 0 = Return (n, j)) <->
    (exists ts rest,
        tokens = ts ++ rest /\ j = length ts /\ statement_of ts n).
Proof.
  intros tokens n j. split.
  - intros [fuel H]. destruct (reads_mutual tokens fuel) as [R _].
    destruct (R _ _ _ H) as [ts [rest [S [J P]]]].
    exists ts, rest. auto.
  - intros [ts [rest [-> [-> H]]]].
    destruct (proj1 statements_parse _ _ H) as [fuel [P _]].
    exists fuel. destruct (ext_mutual ts rest fuel) as [X _].
    apply (X 0 n (length ts) (Nat.le_0_l _) P).
Qed.

Lemma parse_statement_accepts_the_grammar_witness :
  exists fuel,
    parse_statement
      [("YEET", "yeet"); ("STRING", "boom"); ("SEMICOLON", ";");
       ("RBRACE", "}")] fuel 0 =
    Return (mkNode "YEET" [] (StrValue "boom"), 3).
Proof.
  apply (proj2 (parse_statement_accepts_the_grammar
                  [("YEET", "yeet"); ("STRING", "boom");
                   ("SEMICOLON", ";"); ("RBRACE", "}")]
                  (mkNode "YEET" [] (StrValue "boom")) 3)).
  exists [("YEET", "yeet"); ("STRING", "boom"); ("SEMICOLON", ";")],
         [("RBRACE", "}")].
  split; [reflexivity|]. split; [reflexivity|]. apply yeet_statement.
Defined.

(* ================================================================= *)
(** ** The tokenizer: lexemes that the kind fixes *)

Lemma substring_none : forall text p, substring p 0 text = EmptyString.
Proof.
  induction text as [|c text IH]; intros [|p]; try reflexivity.
  simpl. apply IH.
Qed.

Lemma substring_step : forall text p n c,
    String.get p text = Some c ->
    substring p (S n) text = String c (substring (S p) n text).
Proof.
  induction text as [|d text IH]; intros p n c H.
  - destruct p; discriminate.
  - destruct p as [|p].
    + simpl in H. injection H as ->. reflexivity.
    + simpl in H. simpl. apply IH. exact H.
Qed.

(** The pattern of a word matches this word only. *)
Lemma lit_match : forall word text p e,
    re_match (lit word) text p = Some e ->
    e = p + String.length word /\
    substring p (String.length word) text = word.
Proof.
  intros word. induction word as [|a word IH]; intros text p e H.
  - injection H as <-. split; [simpl; lia|apply substring_none].
  - unfold re_match in H. simpl in H.
    destruct (String.get p text) as [d|] eqn:G; [|discriminate].
    destruct (Ascii.eqb d a) eqn:D; [|discriminate].
    apply Ascii.eqb_eq in D. subst d. simpl in H.
    rewrite app_nil_r in H. destruct (IH text (S p) e H) as [-> S].
    split; [simpl; lia|]. simpl String.length.
    rewrite (substring_step _ _ _ _ G), S. reflexivity.
Qed.

Lemma lit_value : forall word text p e,
    re_match (lit word) text p = Some e ->
    substring p (e - p) text = word.
Proof.
  intros word text p e H. destruct (lit_match _ _ _ _ H) as [-> S].
  replace (p + String.length word - p) with (String.length word) by lia.
  exact S.
Qed.

Lemma char_value : forall c text p e,
    re_match (Lit c) text p = Some e ->
    substring p (e - p) text = String c EmptyString.
Proof.
  intros c text p e H. unfold re_match in H. simpl in H.
  destruct (String.get p text) as [d|] eqn:G; [|discriminate].
  destruct (Ascii.eqb d c) eqn:D; [|discriminate].
  apply Ascii.eqb_eq in D. subst d. injection H as <-.
  replace (S p - p) with 1 by lia.
  rewrite (substring_step _ _ _ _ G), substring_none. reflexivity.
Qed.

Lemma either_value : forall a b text p e,
    re_match (Alt (lit a) (lit b)) text p = Some e ->
    substring p (e - p) text = a \/ substring p (e - p) text = b.
Proof.
  intros a b text p e H. unfold re_match in H.
  change (rmatch text (Alt (lit a) (lit b)) p)
    with (rmatch text (lit a) p ++ rmatch text (lit b) p) in H.
  destruct (rmatch text (lit a) p) as [|x l] eqn:A.
  - right. apply lit_value. exact H.
  - left. apply lit_value. unfold re_match. rewrite A. exact H.
Qed.

Lemma emit_fits : forall text position e kind tokens,
    first_match TOKEN_TYPES text position = Some (kind, e) ->
    Forall lexeme_fits tokens ->
    Forall lexeme_fits (emit text position e kind tokens).
Proof.
  intros text position e kind tokens Hm Ht. unfold emit.
  set (value := substring position (e - position) text).
  destruct (String.eqb kind "IDENTIFIER"
            && existsb (String.eqb value) KEYWORDS) eqn:E.
  - apply andb_true_iff in E. destruct E as [Hk E].
    apply String.eqb_eq in Hk. subst kind.
    apply existsb_exists in E. destruct E as [k [Hin Hv]].
    apply String.eqb_eq in Hv.
    destruct (negb (String.eqb (upper value) "COMMENT")); [|exact Ht].
    apply Forall_app. split; [exact Ht|]. constructor; [|constructor].
    destruct (first_match_identifier _ _ _ Hm) as [_ [_ [Helse _]]].
    assert (O : value <> "otherwise").
    { intros V. unfold re_match in Helse.
      change (rmatch text (Alt (lit "but if") (lit "otherwise")) position)
        with (rmatch text (lit "but if") position
              ++ rmatch text (lit "otherwise") position) in Helse.
      destruct (rmatch text (lit "but if") position); [|discriminate].
      pose proof (no_lit_match_no_prefix "otherwise" text position
                    (e - position) Helse) as N.
      fold value in N. rewrite V in N. discriminate N. }
    rewrite Hv in *. unfold KEYWORDS in Hin. cbn [In] in Hin.
    unfold lexeme_fits. cbn [fst snd].
    repeat destruct Hin as [Hin|Hin]; try contradiction; subst k;
      try (exfalso; apply O; reflexivity);
      ((split; [|split; [|split]]);
       [ intros word Hw; unfold fixed_lexemes in Hw; cbn [In] in Hw;
         repeat destruct Hw as [Hw|Hw]; try contradiction;
         try discriminate Hw; injection Hw as <-; reflexivity
       | discriminate | discriminate | discriminate ]).
  - destruct (negb (String.eqb kind "COMMENT")) eqn:C; [|exact Ht].
    apply Forall_app. split; [exact Ht|]. constructor; [|constructor].
    destruct (first_match_in _ _ _ _ _ Hm) as [pattern [Hin Hp]].
    fold value. unfold lexeme_fits. cbn [fst snd].
    unfold TOKEN_TYPES in Hin. cbn [In] in Hin.
    repeat destruct Hin as [Hin|Hin]; try contradiction;
      injection Hin as <- <-;
      ((split; [|split; [|split]]);
       [ intros word Hw; unfold fixed_lexemes in Hw; cbn [In] in Hw;
         repeat destruct Hw as [Hw|Hw]; try contradiction;
         try discriminate Hw; injection Hw as <-;
         first [ exact (char_value _ _ _ _ Hp)
               | match goal with
                 | |- _ = ?word => exact (lit_value word _ _ _ Hp)
                 end ]
       | first [ discriminate
               | match goal with
                 | |- _ -> _ = ?a \/ _ = ?b =>
                     intros _; exact (either_value a b _ _ _ Hp)
                 end ]
       | first [ discriminate
               | match goal with
                 | |- _ -> _ = ?a \/ _ = ?b =>
                     intros _; exact (either_value a b _ _ _ Hp)
                 end ]
       | discriminate ]).
Qed.

Lemma scan_fits : forall text position tokens,
    scan text position tokens -> Forall lexeme_fits tokens.
Proof.
  intros text position tokens H. induction H; [constructor|].
  apply emit_fits; assumption.
Qed.

(** X18. What the kind of a token says of its lexeme, for the tokens
    [lexer] returns: a token of kind IF, NOT, BUT, YEET, LPAREN, RPAREN,
    LBRACE, RBRACE, SEMICOLON, DOT or ARROW has the one lexeme of its
    kind; an ELSE token is [but if] or [otherwise], a BOOLEAN token is
    [true] or [false]; and no token has kind OTHERWISE, although the
    word is among the reserved words, because the ELSE rule comes
    first. *)
Theorem kinds_fix_lexemes : forall text tokens t,
    lexer text = Return tokens -> In t tokens -> lexeme_fits t.
Proof.
  intros text tokens t H Hin. apply lexer_return_scan in H.
  apply scan_fits in H. rewrite Forall_forall in H. apply H. exact Hin.
Qed.

Lemma kinds_fix_lexemes_witness :
  lexer "if{}" = Return [("IF", "if"); ("LBRACE", "{"); ("RBRACE", "}")] /\
  lexeme_fits ("LBRACE", "{").
Proof.
  assert (E : lexer "if{}" =
              Return [("IF", "if"); ("LBRACE", "{"); ("RBRACE", "}")])
    by (vm_compute; reflexivity).
  split; [exact E|].
  apply (kinds_fix_lexemes _ _ _ E). right. left. reflexivity.
Defined.

(* ================================================================= *)
(** ** The parser: a token that begins no item *)

Lemma parse_unexpected : forall t rest,
    existsb (String.eqb (fst t)) item_starts = false ->
    parse (t :: rest) = Raise (ParserUnexpectedToken t).
Proof.
  intros t rest H. unfold item_starts in H. cbn [existsb] in H.
  repeat (apply orb_false_iff in H; destruct H as [? H]).
  assert (E : parse_fuel 1 (t :: rest) = Raise (ParserUnexpectedToken t)).
  { unfold parse_fuel. simpl parse_loop. rewrite bind_peek.
    cbn [nth_error].
    repeat match goal with
           | K : String.eqb (fst t) _ = false |- _ => rewrite K; clear K
           end.
    reflexivity. }
  rewrite <- (parse_fuel_irrelevant _ 1); rewrite E;
    [reflexivity|discriminate].
Qed.

(** X19. A token that begins no item of the top level is reported: when
    [parse] returns on the tokens before it, [parse] raises the error of
    the unexpected token, with this token, whatever follows it. *)
Theorem unexpected_token_is_reported : forall before t rest ast,
    parse before = Return ast ->
    existsb (String.eqb (fst t)) item_starts = false ->
    parse (before ++ t :: rest) = Raise (ParserUnexpectedToken t).
Proof.
  intros before t rest ast H K.
  rewrite (parse_app before (t :: rest) ast H).
  rewrite (parse_unexpected t rest K). reflexivity.
Qed.

Lemma unexpected_token_is_reported_witness :
  front_end ")" = Raise (ParserUnexpectedToken ("RPAREN", ")")) /\
  parse ([] ++ [("RPAREN", ")")]) =
  Raise (ParserUnexpectedToken ("RPAREN", ")")).
Proof.
  split; [vm_compute; reflexivity|].
  apply (unexpected_token_is_reported [] ("RPAREN", ")") [] []);
    reflexivity.
Defined.

(* ================================================================= *)
(** ** The tokenizer: what cannot follow a match *)

Lemma ident_start_is_word : forall c,
    is_ident_start c = true -> is_word c = true.
Proof.
  intros c H. unfold is_ident_start in H. unfold is_word. cbv zeta in *.
  apply orb_true_iff in H. destruct H as [H|H];
    [apply orb_true_iff in H; destruct H as [H|H]|];
    rewrite H; rewrite ?orb_true_r; reflexivity.
Qed.

Lemma word_is_word_or_dot : forall c,
    is_word c = true -> is_word_or_dot c = true.
Proof. intros c H. unfold is_word_or_dot. rewrite H. reflexivity. Qed.

Lemma star_iter_from : forall step fuel pos e,
    In e (star_iter step fuel pos) -> pos <= e.
Proof.
  intros step. induction fuel as [|fuel IH]; intros pos e H; simpl in H.
  - destruct H as [<-|[]]. lia.
  - apply in_app_or in H. destruct H as [H|[<-|[]]]; [|lia].
    apply in_flat_map in H. destruct H as [m [_ H]].
    destruct (pos <? m) eqn:L; [|contradiction].
    apply Nat.ltb_lt in L. apply IH in H. lia.
Qed.

Lemma star_iter_some : forall step fuel pos,
    star_iter step fuel pos <> [].
Proof.
  intros step [|fuel] pos; simpl; [discriminate|].
  intros H. apply app_eq_nil in H. destruct H as [_ H]. discriminate.
Qed.

Lemma class_step : forall text q pos,
    rmatch text (Cls q) pos =
    match String.get pos text with
    | Some d => if q d then [S pos] else []
    | None => []
    end.
Proof. reflexivity. Qed.

(** The character before the end of a run of a class is in the class. *)
Lemma star_last : forall text q fuel pos e,
    In e (star_iter (rmatch text (Cls q)) fuel pos) -> pos < e ->
    exists c, String.get (e - 1) text = Some c /\ q c = true.
Proof.
  intros text q. induction fuel as [|fuel IH]; intros pos e H L;
    simpl in H.
  - destruct H as [<-|[]]. lia.
  - apply in_app_or in H. destruct H as [H|[<-|[]]]; [|lia].
    apply in_flat_map in H. destruct H as [m [Hm H]].
    simpl in Hm.
    destruct (String.get pos text) as [d|] eqn:G; [|contradiction].
    destruct (q d) eqn:Q; [|contradiction].
    destruct Hm as [<-|[]].
    destruct (pos <? S pos); [|contradiction].
    destruct (Nat.eq_dec e (S pos)) as [->|N].
    + exists d. replace (S pos - 1) with pos by lia. auto.
    + apply IH with (pos := S pos); [exact H|].
      apply star_iter_from in H. lia.
Qed.

Lemma star_iter_round : forall step fuel pos,
    star_iter step (S fuel) pos =
    flat_map (fun e => if pos <? e then star_iter step fuel e else [])
             (step pos) ++ [pos].
Proof. reflexivity. Qed.

(** The longest run comes first: no character of the class stands at
    the end of the first run. *)
Lemma star_head : forall text q fuel pos e,
    String.length text <= pos + fuel ->
    hd_error (star_iter (rmatch text (Cls q)) fuel pos) = Some e ->
    forall c, String.get e text = Some c -> q c = false.
Proof.
  intros text q. induction fuel as [|fuel IH]; intros pos e L H c G.
  - simpl in H. injection H as <-. apply get_some_lt in G. lia.
  - rewrite star_iter_round, class_step in H.
    destruct (String.get pos text) as [d|] eqn:Gp.
    + destruct (q d) eqn:Q.
      * cbn [flat_map] in H.
        replace (pos <? S pos) with true in H
          by (symmetry; apply Nat.ltb_lt; lia).
        rewrite app_nil_r in H.
        destruct (star_iter (rmatch text (Cls q)) fuel (S pos))
          as [|x l] eqn:R; [exact (False_ind _ (star_iter_some _ _ _ R))|].
        simpl in H. injection H as ->.
        apply (IH (S pos) e); [lia|rewrite R; reflexivity|exact G].
      * simpl in H. injection H as <-. congruence.
    + simpl in H. injection H as <-. congruence.
Qed.

Lemma plus_head : forall text q pos e,
    hd_error (rmatch text (Plus (Cls q)) pos) = Some e ->
    forall c, String.get e text = Some c -> q c = false.
Proof.
  intros text q pos e H.
  change (rmatch text (Plus (Cls q)) pos)
    with (flat_map (star_iter (rmatch text (Cls q)) (String.length text))
                   (rmatch text (Cls q) pos)) in H.
  rewrite class_step in H.
  destruct (String.get pos text) as [d|]; [|discriminate].
  destruct (q d); [|discriminate].
  simpl in H. rewrite app_nil_r in H.
  apply (star_head text q (String.length text) (S pos)); [lia|exact H].
Qed.

Lemma hd_flat_map : forall (f : nat -> list nat) l e,
    hd_error (flat_map f l) = Some e ->
    exists m, In m l /\ hd_error (f m) = Some e.
Proof.
  intros f. induction l as [|x l IH]; intros e H; [discriminate|].
  simpl in H. destruct (f x) as [|y r] eqn:F.
  - destruct (IH _ H) as [m [Hm He]]. exists m. split; [right|]; auto.
  - exists x. split; [left; reflexivity|]. rewrite F. exact H.
Qed.

Lemma flat_map_unit : forall l : list nat,
    flat_map (fun x => [x]) l = l.
Proof.
  induction l as [|x l IH]; simpl; [reflexivity|]. rewrite IH.
  reflexivity.
Qed.

(** A composite rule that ends with one or more characters of a class
    takes all the characters of the class that follow. *)
Lemma composite_end : forall keyword q text p e,
    re_match (cat [lit keyword; Plus sp; Plus (Cls q)]) text p = Some e ->
    forall c, String.get e text = Some c -> q c = false.
Proof.
  intros keyword q text p e H. unfold re_match in H.
  change (rmatch text (cat [lit keyword; Plus sp; Plus (Cls q)]) p)
    with (flat_map
            (fun m =>
               flat_map
                 (fun m' =>
                    flat_map (fun x => [x])
                             (rmatch text (Plus (Cls q)) m'))
                 (rmatch text (Plus sp) m))
            (rmatch text (lit keyword) p)) in H.
  apply hd_flat_map in H. destruct H as [m [_ H]].
  apply hd_flat_map in H. destruct H as [m' [_ H]].
  rewrite flat_map_unit in H. exact (plus_head _ _ _ _ H).
Qed.

Lemma word_at_get : forall text i,
    word_at text i = true <->
    exists c, String.get i text = Some c /\ is_word c = true.
Proof.
  intros text i. unfold word_at. destruct (String.get i text) as [c|].
  - split; [eauto|]. intros [d [E W]]. injection E as ->. exact W.
  - split; [discriminate|]. intros [d [E _]]. discriminate.
Qed.

(** An identifier begins at a word boundary with a word character. *)
Lemma identifier_begins : forall text p e,
    re_match identifier_re text p = Some e ->
    at_boundary text p = true /\ word_at text p = true.
Proof.
  intros text p e H. unfold re_match in H.
  change (rmatch text identifier_re p)
    with (flat_map
            (fun m =>
               flat_map
                 (rmatch text (cat [Star w; WordB]))
                 (rmatch text (Cls is_ident_start) m))
            (if at_boundary text p then [p] else [])) in H.
  destruct (at_boundary text p); [|discriminate].
  split; [reflexivity|]. cbn [flat_map] in H. rewrite app_nil_r in H.
  rewrite class_step in H. apply word_at_get.
  destruct (String.get p text) as [d|]; [|discriminate].
  destruct (is_ident_start d) eqn:I; [|discriminate].
  exists d. split; [reflexivity|]. apply ident_start_is_word. exact I.
Qed.

(** The last character of an identifier is a word character. *)
Lemma identifier_ends : forall text p e,
    re_match identifier_re text p = Some e ->
    1 <= e /\ word_at text (e - 1) = true.
Proof.
  intros text p e H. unfold re_match in H.
  assert (I : In e (rmatch text identifier_re p)).
  { destruct (rmatch text identifier_re p); [discriminate|].
    injection H as ->. left. reflexivity. }
  clear H.
  change (rmatch text identifier_re p)
    with (flat_map
            (fun m =>
               flat_map
                 (fun m1 =>
                    flat_map
                      (fun m2 =>
                         flat_map (fun m3 => [m3])
                                  (if at_boundary text m2 then [m2]
                                   else []))
                      (star_iter (rmatch text (Cls is_word))
                                 (String.length text) m1))
                 (rmatch text (Cls is_ident_start) m))
            (if at_boundary text p then [p] else [])) in I.
  apply in_flat_map in I. destruct I as [m [Hm I]].
  destruct (at_boundary text p); [|contradiction].
  destruct Hm as [<-|[]].
  apply in_flat_map in I. destruct I as [m1 [Hm1 I]].
  rewrite class_step in Hm1.
  destruct (String.get p text) as [d|] eqn:G; [|contradiction].
  destruct (is_ident_start d) eqn:S0; [|contradiction].
  destruct Hm1 as [<-|[]].
  apply in_flat_map in I. destruct I as [m2 [Hm2 I]].
  rewrite flat_map_unit in I.
  destruct (at_boundary text m2); [|contradiction].
  destruct I as [<-|[]].
  pose proof (star_iter_from _ _ _ _ Hm2) as L.
  split; [lia|]. apply word_at_get.
  destruct (Nat.eq_dec m2 (S p)) as [->|N].
  - exists d. replace (S p - 1) with p by lia.
    split; [exact G|]. apply ident_start_is_word. exact S0.
  - apply (star_last text is_word (String.length text) (S p));
      [exact Hm2|lia].
Qed.

Lemma if_ends : forall text p e,
    re_match (lit "if") text p = Some e ->
    1 <= e /\ word_at text (e - 1) = true.
Proof.
  intros text p e H. destruct (lit_match _ _ _ _ H) as [-> S0].
  simpl String.length in *. split; [lia|].
  apply substring_cons in S0. destruct S0 as [_ [n' [E S1]]].
  injection E as <-. symmetry in S1. apply substring_cons in S1.
  destruct S1 as [G _]. apply word_at_get.
  replace (p + 2 - 1) with (S p) by lia. eexists. split; [exact G|].
  reflexivity.
Qed.

Lemma not_at_boundary : forall text e,
    1 <= e -> word_at text (e - 1) = true -> word_at text e = true ->
    at_boundary text e = false.
Proof.
  intros text [|e] L W1 W2; [lia|]. unfold at_boundary.
  replace (S e - 1) with e in W1 by lia. rewrite W1, W2. reflexivity.
Qed.

(** After a match of the CLASS, FUNCTION, IMPORT, IF or IDENTIFIER rule,
    the IDENTIFIER rule is not the one that matches. *)
Lemma identifier_cannot_follow : forall text p kind e e',
    first_match TOKEN_TYPES text p = Some (kind, e) ->
    In kind ["CLASS"; "FUNCTION"; "IMPORT"; "IF"; "IDENTIFIER"] ->
    first_match TOKEN_TYPES text e = Some ("IDENTIFIER", e') ->
    False.
Proof.
  intros text p kind e e' H K H'.
  destruct (first_match_identifier _ _ _ H') as [_ [_ [_ I]]].
  destruct (identifier_begins _ _ _ I) as [B W].
  destruct (first_match_in _ _ _ _ _ H) as [pattern [Hin Hp]].
  assert (C : forall q,
             (forall c, q c = false -> is_word c = false) ->
             (forall c, String.get e text = Some c -> q c = false) ->
             False).
  { intros q Hq Hc. apply word_at_get in W. destruct W as [c [G Wc]].
    rewrite (Hq c (Hc c G)) in Wc. discriminate. }
  assert (D : 1 <= e /\ word_at text (e - 1) = true -> False).
  { intros [L W1]. rewrite (not_at_boundary _ _ L W1 W) in B.
    discriminate. }
  unfold TOKEN_TYPES in Hin. cbn [In] in Hin, K.
  repeat destruct K as [K|K]; try contradiction; subst kind;
    repeat destruct Hin as [Hin|Hin]; try contradiction;
    try discriminate Hin; injection Hin as <-.
  - apply (C is_word); [auto|]. exact (composite_end "class" _ _ _ _ Hp).
  - apply (C is_word); [auto|].
    exact (composite_end "function" _ _ _ _ Hp).
  - apply (C is_word_or_dot).
    + intros c Q. destruct (is_word c) eqn:Wc; [|reflexivity].
      rewrite (word_is_word_or_dot _ Wc) in Q. discriminate.
    + exact (composite_end "import" _ _ _ _ Hp).
  - apply D. exact (if_ends _ _ _ Hp).
  - apply D. exact (identifier_ends _ _ _ Hp).
Qed.

(** *** Tokens that follow one another in the text *)

Lemma emit_token_of : forall text position e kind tokens,
    emit text position e kind tokens =
    if negb (String.eqb (fst (token_of text position e kind)) "COMMENT")
    then tokens ++ [token_of text position e kind]
    else tokens.
Proof. reflexivity. Qed.

Lemma kept_one : forall t,
    kept [t] = if negb (String.eqb (fst t) "COMMENT") then [t] else [].
Proof. reflexivity. Qed.

Lemma scan_cut : forall text position tokens,
    scan text position tokens ->
    exists matches, cut text position matches /\ kept matches = tokens.
Proof.
  intros text position tokens H.
  induction H as [|position tokens kind e H [matches [C K]] Hlt Hm].
  - exists []. split; [constructor|reflexivity].
  - exists (matches ++ [token_of text position e kind]).
    split; [apply cut_next; assumption|].
    rewrite emit_token_of. set (t := token_of text position e kind).
    destruct (negb (String.eqb (fst t) "COMMENT")) eqn:D;
      rewrite kept_app, K, kept_one, D; [reflexivity|apply app_nil_r].
Qed.

Lemma cut_lexemes : forall text position matches,
    cut text position matches ->
    position <= String.length text /\
    lexemes matches = substring 0 position text /\
    Forall (fun t => snd t <> EmptyString) matches.
Proof.
  intros text position matches H.
  induction H as [|position matches kind e H [L [Hl Hn]] Hlt Hm].
  - split; [lia|]. split; [destruct text; reflexivity|constructor].
  - destruct (first_match_advances _ _ _ _ Hm) as [Hpe He].
    split; [exact He|]. split.
    + rewrite lexemes_app, Hl. simpl. rewrite append_empty.
      apply substring_split; lia.
    + apply Forall_app. split; [exact Hn|]. constructor; [|constructor].
      simpl. intros E.
      assert (X : String.length (substring position (e - position) text)
                  = e - position) by (apply substring_length; lia).
      rewrite E in X. simpl in X. lia.
Qed.

Lemma kept_shorter : forall matches,
    String.length (lexemes (kept matches))
    <= String.length (lexemes matches).
Proof.
  induction matches as [|t matches IH]; [reflexivity|].
  unfold kept in *. simpl.
  destruct (negb (String.eqb (fst t) "COMMENT")); simpl;
    rewrite ?string_length_app; lia.
Qed.

Lemma append_cancel : forall a b c : string,
    (a ++ b)%string = (a ++ c)%string -> b = c.
Proof.
  induction a as [|x a IH]; intros b c H; simpl in H; [exact H|].
  injection H as H. apply IH. exact H.
Qed.

(** When the lexemes of the tokens make up the text, no match was
    dropped. *)
Lemma kept_all : forall matches,
    Forall (fun t => snd t <> EmptyString) matches ->
    lexemes (kept matches) = lexemes matches ->
    kept matches = matches.
Proof.
  induction matches as [|t matches IH]; intros Hn H; [reflexivity|].
  inversion Hn as [|x l Ht Hl]; subst.
  unfold kept in *. simpl in *.
  destruct (negb (String.eqb (fst t) "COMMENT")).
  - simpl in H. apply append_cancel in H. rewrite (IH Hl H). reflexivity.
  - exfalso. pose proof (kept_shorter matches) as K. unfold kept in K.
    rewrite H, string_length_app in K.
    destruct (snd t) as [|c r]; [apply Ht; reflexivity|]. simpl in K. lia.
Qed.

Lemma cut_adjacent : forall text position matches,
    cut text position matches ->
    (forall a b, adjacent a b matches -> meets text a b) /\
    (forall l a, matches = l ++ [a] ->
                 exists p kind,
                   first_match TOKEN_TYPES text p = Some (kind, position) /\
                   a = token_of text p position kind).
Proof.
  intros text position matches H.
  induction H as [|position matches kind e H [IHa IHl] Hlt Hm].
  - split.
    + intros a b [l1 [l2 E]]. destruct l1; discriminate.
    + intros l a E. destruct l; discriminate.
  - split.
    + intros a b [l1 [l2 E]].
      destruct (exists_last (l := a :: b :: l2)) as [l' [t E']];
        [discriminate|].
      assert (X : matches ++ [token_of text position e kind]
                  = (l1 ++ l') ++ [t]).
      { rewrite E, <- app_assoc. f_equal. simpl. exact E'. }
      apply app_inj_tail in X. destruct X as [X1 X2].
      destruct l' as [|a' l'].
      * discriminate E'.
      * simpl in E'. injection E' as <- E'.
        destruct l' as [|b' l'].
        -- simpl in E'. injection E' as ->.
           destruct (IHl l1 a X1) as [p [k [F A]]].
           exists p, k, position, kind, e. subst. auto.
        -- simpl in E'. injection E' as <- E'.
           apply IHa. exists l1, l'. exact X1.
    + intros l a E. apply app_inj_tail in E. destruct E as [_ <-].
      exists position, kind. auto.
Qed.

(** When no comment was dropped, two tokens that are next to one another
    are the tokens of two matches that are next to one another in the
    text. *)
Lemma tokens_meet : forall text tokens,
    lexer text = Return tokens -> lexemes tokens = text ->
    forall a b, adjacent a b tokens -> meets text a b.
Proof.
  intros text tokens H E. apply lexer_return_scan in H.
  destruct (scan_cut _ _ _ H) as [matches [C K]].
  destruct (cut_lexemes _ _ _ C) as [_ [Hl Hn]].
  rewrite substring_whole in Hl.
  assert (X : kept matches = matches).
  { apply kept_all; [exact Hn|]. rewrite K, E, Hl. reflexivity. }
  rewrite X in K. subst matches.
  apply (cut_adjacent _ _ _ C).
Qed.

(** *** Texts without a comment *)

Lemma token_of_kind : forall text p e kind,
    fst (token_of text p e kind) = kind \/
    (kind = "IDENTIFIER" /\
     In (fst (token_of text p e kind)) (map upper KEYWORDS)).
Proof.
  intros text p e kind. unfold token_of. cbv zeta. cbn [fst].
  destruct (String.eqb kind "IDENTIFIER") eqn:K; [|left; reflexivity].
  destruct (existsb (String.eqb (substring p (e - p) text)) KEYWORDS)
    eqn:E; [|left; reflexivity].
  right. apply String.eqb_eq in K. split; [exact K|].
  apply existsb_exists in E. destruct E as [k [Hin Hv]].
  apply String.eqb_eq in Hv. rewrite Hv. apply in_map. exact Hin.
Qed.

(** No IDENTIFIER token comes next after a CLASS, FUNCTION, IMPORT or IF
    token whose match ends where the match of the next begins. *)
Lemma no_identifier_next : forall text a b,
    meets text a b ->
    In (fst a) ["CLASS"; "FUNCTION"; "IMPORT"; "IF"] ->
    fst b = "IDENTIFIER" ->
    False.
Proof.
  intros text a b [p [k [e [k' [e' [F [F' [-> ->]]]]]]]] Ka Kb.
  assert (K : In k ["CLASS"; "FUNCTION"; "IMPORT"; "IF"; "IDENTIFIER"]).
  { destruct (token_of_kind text p e k) as [E|[-> _]].
    - rewrite E in Ka. cbn [In] in *. tauto.
    - cbn [In]. tauto. }
  assert (K' : k' = "IDENTIFIER").
  { destruct (token_of_kind text e e' k') as [E|[E _]]; [|exact E].
    rewrite <- E. exact Kb. }
  subst k'. exact (identifier_cannot_follow _ _ _ _ _ F K F').
Qed.

Lemma adjacent_head : forall a b l, adjacent a b (a :: b :: l).
Proof. intros a b l. exists [], l. reflexivity. Qed.

Lemma adjacent_inside : forall a b before l after,
    adjacent a b l -> adjacent a b (before ++ l ++ after).
Proof.
  intros a b before l after [l1 [l2 ->]].
  exists (before ++ l1), (l2 ++ after).
  rewrite <- !app_assoc. reflexivity.
Qed.

Lemma adjacent_left : forall a b l after,
    adjacent a b l -> adjacent a b (l ++ after).
Proof. intros a b l after H. exact (adjacent_inside a b [] l after H). Qed.

Lemma adjacent_right : forall a b before l,
    adjacent a b l -> adjacent a b (before ++ l).
Proof.
  intros a b before l H.
  pose proof (adjacent_inside a b before l [] H) as X.
  rewrite app_nil_r in X. exact X.
Qed.

Section Plain.
Variable text : string.

Lemma plain_statements :
  (forall ts n,
      statement_of ts n ->
      (forall a b, adjacent a b ts -> meets text a b) ->
      plain_statement n) /\
  (forall ts ns,
      statements_of ts ns ->
      (forall a b, adjacent a b ts -> meets text a b) ->
      Forall plain_statement ns).
Proof.
  apply statement_mutual_ind.
  - intros y s sc _. apply plain_yeet.
  - intros l first parts sc H. exfalso.
    apply (no_identifier_next text ("IMPORT", l) ("IDENTIFIER", first)).
    + apply H. apply adjacent_head.
    + cbn [In fst]. tauto.
    + reflexivity.
  - intros l [k v] lb body rb nodes Hc _ IH H.
    unfold is_expression_token in Hc. cbn [fst] in Hc.
    apply orb_true_iff in Hc. destruct Hc as [Hc|Hc];
      apply String.eqb_eq in Hc; subst k.
    + exfalso.
      apply (no_identifier_next text ("IF", l) ("IDENTIFIER", v)).
      * apply H. apply adjacent_head.
      * cbn [In fst]. tauto.
      * reflexivity.
    + apply plain_if. apply IH. intros a b A. apply H.
      exact (adjacent_inside a b
               [("IF", l); ("STRING", v); ("LBRACE", lb)] body
               [("RBRACE", rb)] A).
  - intros _. constructor.
  - intros ts n ts' ns _ IH1 _ IH2 H. constructor.
    + apply IH1. intros a b A. apply H. apply adjacent_left. exact A.
    + apply IH2. intros a b A. apply H. apply adjacent_right. exact A.
Qed.

Lemma plain_items : forall ts ns,
    items_of ts ns ->
    (forall a b, adjacent a b ts -> meets text a b) ->
    Forall (fun t => fst t <> "EQUALS") ts ->
    Forall (fun n => plain_statement n /\ node_type n = "IF") ns.
Proof.
  intros ts ns H. induction H as
      [ | l ts ns H IH | l ts ns H IH | l name ts ns H IH
      | l name ts ns H IH | l name annotation e value ts ns Hv H IH
      | ts n ts' ns Hs Hn H IH ]; intros A E.
  - constructor.
  - apply IH.
    + intros a b X. apply A. exact (adjacent_right a b [_] ts X).
    + inversion E; assumption.
  - apply IH.
    + intros a b X. apply A. exact (adjacent_right a b [_] ts X).
    + inversion E; assumption.
  - exfalso.
    apply (no_identifier_next text ("CLASS", l) ("IDENTIFIER", name)).
    + apply A. apply adjacent_head.
    + cbn [In fst]. tauto.
    + reflexivity.
  - exfalso.
    apply (no_identifier_next text ("FUNCTION", l) ("IDENTIFIER", name)).
    + apply A. apply adjacent_head.
    + cbn [In fst]. tauto.
    + reflexivity.
  - exfalso. rewrite Forall_forall in E. apply (E ("EQUALS", e)).
    + right. right. apply in_or_app. right. left. reflexivity.
    + reflexivity.
  - apply Forall_app in E. destruct E as [E1 E2]. constructor.
    + assert (P : plain_statement n).
      { apply (proj1 plain_statements ts n Hs). intros a b X. apply A.
        apply adjacent_left. exact X. }
      split; [exact P|]. destruct P; [|reflexivity].
      exfalso. apply Hn. reflexivity.
    + apply IH; [|exact E2]. intros a b X. apply A.
      apply adjacent_right. exact X.
Qed.

End Plain.

(** X20. Without a comment, a program is made of if statements on
    strings only.  When the lexemes of the tokens that [lexer] returns
    make up the whole text, so that no comment was dropped, and [parse]
    returns on these tokens, then every node is an IF node whose
    condition is a STRING and whose body holds yeet statements and such
    if statements: no class, no function, no import and no test of an
    identifier is parsed from a text that holds no comment, because the
    name that the parser asks for after each of these words cannot be
    a token of its own right after them. *)
Theorem programs_without_comments : forall text tokens ast,
    lexer text = Return tokens ->
    lexemes tokens = text ->
    parse tokens = Return ast ->
    Forall (fun n => plain_statement n /\ node_type n = "IF") ast.
Proof.
  intros text tokens ast H E P.
  apply (plain_items text tokens ast).
  - apply parse_items. exact P.
  - apply tokens_meet; assumption.
  - apply lexer_return_scan in H. apply scan_kinds in H.
    eapply Forall_impl; [|exact H]. intros t K Q. cbv beta in K.
    rewrite Q in K.
    vm_compute in K. intuition discriminate.
Qed.

Lemma programs_without_comments_witness :
  lexer plain_program = Return plain_tokens /\
  lexemes plain_tokens = plain_program /\
  parse plain_tokens = Return plain_nodes /\
  Forall (fun n => plain_statement n /\ node_type n = "IF") plain_nodes.
Proof.
  assert (H : lexer plain_program = Return plain_tokens)
    by (vm_compute; reflexivity).
  assert (E : lexemes plain_tokens = plain_program)
    by (vm_compute; reflexivity).
  assert (P : parse plain_tokens = Return plain_nodes)
    by (vm_compute; reflexivity).
  split; [exact H|]. split; [exact E|]. split; [exact P|].
  exact (programs_without_comments _ _ _ H E P).
Defined.

(* ================================================================= *)
(** ** The tokenizer: the matches and the tokens *)






(* ================================================================= *)
(** ** Declarations with a logical value *)

(** No statement of a body holds a logical value. *)
Lemma statements_hold_no_logical :
  (forall ts n, statement_of ts n -> ~ holds_logical n) /\
  (forall ts ns, statements_of ts ns ->
                 forall n, In n ns -> ~ holds_logical n).
Proof.
  apply statement_mutual_ind.
  - intros y s sc H. inversion H; subst. contradiction.
  - intros l first parts sc H. inversion H; subst. contradiction.
  - intros l c lb body rb nodes Hc Hs IH H.
    inversion H as [|type children value n Hin Hn]; subst.
    destruct Hin as [<-|[<-|[]]].
    + inversion Hn; subst. contradiction.
    + inversion Hn as [|type children value m Hin Hm]; subst.
      exact (IH m Hin Hm).
  - intros n [].
  - intros ts n ts' ns Hs IH1 Hss IH2 m [<-|Hin]; [exact IH1|].
    apply IH2. exact Hin.
Qed.

(** No item of the grammar holds a logical value: the value of a
    declaration is the lexeme of a STRING or IDENTIFIER token. *)
Lemma items_hold_no_logical : forall ts ns,
    items_of ts ns -> forall n, In n ns -> ~ holds_logical n.
Proof.
  intros ts ns H.
  induction H as [|l ts ns H IH|l ts ns H IH|l name ts ns H IH
                 |l name ts ns H IH|l name annotation e value ts ns V H IH
                 |ts n ts' ns S N H IH];
    intros m Hin; try contradiction; try (apply IH; exact Hin);
    destruct Hin as [<-|Hin]; try (apply IH; exact Hin).
  - intros L. inversion L; subst. contradiction.
  - intros L. inversion L; subst. contradiction.
  - intros L. inversion L; subst. contradiction.
  - exact (proj1 statements_hold_no_logical _ _ S).
Qed.

(** A declaration among the items takes a token of kind EQUALS. *)
Lemma items_without_equals : forall ts ns,
    items_of ts ns ->
    (forall t, In t ts -> fst t <> "EQUALS") ->
    Forall (fun n => node_type n <> "VARIABLE") ns.
Proof.
  intros ts ns H.
  induction H as [|l ts ns H IH|l ts ns H IH|l name ts ns H IH
                 |l name ts ns H IH|l name annotation e value ts ns V H IH
                 |ts n ts' ns S N H IH];
    intros E.
  - constructor.
  - apply IH. intros t Hin. apply E. right. exact Hin.
  - apply IH. intros t Hin. apply E. right. exact Hin.
  - constructor; [discriminate|].
    apply IH. intros t Hin. apply E. right. right. exact Hin.
  - constructor; [discriminate|].
    apply IH. intros t Hin. apply E. right. right. exact Hin.
  - exfalso. apply (E ("EQUALS", e)); [|reflexivity].
    right. right. apply in_or_app. right. left. reflexivity.
  - constructor.
    + destruct S; discriminate.
    + apply IH. intros t Hin. apply E. apply in_or_app. right. exact Hin.
Qed.

(** The IDENTIFIER rule matches at a word boundary before a letter or an
    underscore. *)
Lemma identifier_matches : forall text p c,
    at_boundary text p = true ->
    String.get p text = Some c ->
    is_ident_start c = true ->
    exists e, re_match identifier_re text p = Some e.
Proof.
  intros text p c B G I. unfold re_match.
  change (rmatch text identifier_re p)
    with (flat_map
            (fun m =>
               flat_map
                 (fun m1 =>
                    flat_map
                      (fun m2 =>
                         flat_map (fun m3 => [m3])
                                  (if at_boundary text m2 then [m2]
                                   else []))
                      (star_iter (rmatch text (Cls is_word))
                                 (String.length text) m1))
                 (rmatch text (Cls is_ident_start) m))
            (if at_boundary text p then [p] else [])).
  rewrite B. cbn [flat_map]. rewrite app_nil_r, class_step, G, I.
  cbn [flat_map]. rewrite app_nil_r.
  destruct (star_iter (rmatch text (Cls is_word)) (String.length text)
                      (S p)) as [|x l] eqn:R;
    [exact (False_ind _ (star_iter_some _ _ _ R))|].
  assert (Hin : In x (star_iter (rmatch text (Cls is_word))
                                (String.length text) (S p)))
    by (rewrite R; left; reflexivity).
  pose proof (star_iter_from _ _ _ _ Hin) as L.
  assert (W0 : word_at text x = false).
  { unfold word_at. destruct (String.get x text) as [d|] eqn:Gx;
      [|reflexivity].
    apply (star_head text is_word (String.length text) (S p) x);
      [lia|rewrite R; reflexivity|exact Gx]. }
  assert (W1 : word_at text (x - 1) = true).
  { apply word_at_get.
    destruct (Nat.eq_dec x (S p)) as [->|N].
    - exists c. replace (S p - 1) with p by lia.
      split; [exact G|]. apply ident_start_is_word. exact I.
    - apply (star_last text is_word (String.length text) (S p));
        [exact Hin|lia]. }
  assert (Bx : at_boundary text x = true).
  { destruct x as [|x]; [lia|]. unfold at_boundary.
    replace (S x - 1) with x in W1 by lia. rewrite W1, W0. reflexivity. }
  cbn [flat_map]. rewrite Bx. simpl. eexists. reflexivity.
Qed.

(** The BOOLEAN rule is the first that matches only where no word
    boundary is: at a word boundary the IDENTIFIER rule, which comes
    before it, matches the word. *)
Lemma boolean_not_at_boundary : forall text p e,
    first_match TOKEN_TYPES text p = Some ("BOOLEAN", e) ->
    at_boundary text p = false.
Proof.
  intros text p e H.
  assert (T : TOKEN_TYPES =
              firstn 19 TOKEN_TYPES
              ++ ("BOOLEAN", Alt (lit "true") (lit "false")) :: [])
    by reflexivity.
  rewrite T in H. apply first_match_split in H.
  - destruct H as [Hb Hm]. rewrite Forall_forall in Hb.
    assert (N : re_match identifier_re text p = None).
    { apply (Hb ("IDENTIFIER", identifier_re)). unfold TOKEN_TYPES.
      cbn [firstn In]. do 8 right. left. reflexivity. }
    destruct (at_boundary text p) eqn:B; [|reflexivity]. exfalso.
    assert (G : exists c, String.get p text = Some c /\
                          is_ident_start c = true).
    { destruct (either_value _ _ _ _ _ Hm) as [V|V];
        apply substring_cons in V; destruct V as [G _];
        eexists; (split; [exact G|reflexivity]). }
    destruct G as [c [G I]].
    destruct (identifier_matches _ _ _ B G I) as [e' M]. congruence.
  - unfold TOKEN_TYPES. cbn [firstn map fst In]. intuition discriminate.
  - intros [].
Qed.

(** C9. What the code does with a logical value.  [parse_value] turns a
    BOOLEAN token into a logical value, true for the lexeme [true], but
    leaves the cursor on the token; [parse_variable] builds the VARIABLE
    node with this value and returns with the cursor still on the
    BOOLEAN token, and the loop of [parse] then meets this token, which
    begins no item: on the tokens of a declaration with a BOOLEAN value,
    whatever follows them, [parse] raises.  On no token sequence does
    [parse] return a node that holds a logical value.  The tokenizer
    does not get that far: the BOOLEAN rule is the first that matches
    only where no word boundary is, so that a bare [true] or [false] is
    an IDENTIFIER; a declaration is one VARIABLE token, on which [parse]
    raises; and on no text is a VARIABLE node among the nodes that the
    front end returns. *)
Theorem boolean_value_is_not_consumed :
  (forall before lexeme rest,
      parse_value (before ++ ("BOOLEAN", lexeme) :: rest) (length before) =
      Return (VBool (String.eqb lexeme "true"), length before)) /\
  (forall name annotation lexeme rest,
      let tokens := boolean_declaration name annotation lexeme rest in
      let cursor :=
        length (boolean_declaration name annotation lexeme []) - 1 in
      nth_error tokens cursor = Some ("BOOLEAN", lexeme) /\
      parse_variable tokens 0 =
      Return (mkNode "VARIABLE" []
                (VarValue name annotation
                   (VBool (String.eqb lexeme "true"))), cursor) /\
      parse tokens = Raise (ParserUnexpectedToken ("BOOLEAN", lexeme))) /\
  (forall tokens ast,
      parse tokens = Return ast ->
      forall n, In n ast -> ~ holds_logical n) /\
  (forall text position e,
      first_match TOKEN_TYPES text position = Some ("BOOLEAN", e) ->
      at_boundary text position = false) /\
  (lexer "true" = Return [("IDENTIFIER", "true")] /\
   lexer "false" = Return [("IDENTIFIER", "false")] /\
   lexer "iftrue" = Return [("IF", "if"); ("BOOLEAN", "true")]) /\
  (lexer "variable x = true" =
     Return [("VARIABLE", "variable x = true")] /\
   front_end "variable x = true" =
     Raise (ParserExpected "IDENTIFIER" None) /\
   lexer "variable x = false" =
     Return [("VARIABLE", "variable x = false")] /\
   front_end "variable x = false" =
     Raise (ParserExpected "IDENTIFIER" None)) /\
  (forall text ast,
      front_end text = Return ast ->
      Forall (fun n => node_type n <> "VARIABLE") ast).
Proof.
  split; [|split; [|split; [|split; [|split; [|split]]]]].
  - intros before lexeme rest.
    unfold parse_value, bind, peek. rewrite nth_error_middle.
    reflexivity.
  - intros name annotation lexeme rest.
    assert (P : parse_fuel 2 (boolean_declaration name annotation lexeme
                                rest)
                = Raise (ParserUnexpectedToken ("BOOLEAN", lexeme)))
      by (destruct annotation; vm_compute; reflexivity).
    cbv zeta. split; [destruct annotation; reflexivity|].
    split; [destruct annotation; vm_compute; reflexivity|].
    rewrite <- (parse_fuel_irrelevant _ 2); [exact P|].
    rewrite P. discriminate.
  - intros tokens ast H. apply parse_items in H.
    exact (items_hold_no_logical _ _ H).
  - exact boolean_not_at_boundary.
  - repeat split; vm_compute; reflexivity.
  - repeat split; vm_compute; reflexivity.
  - intros text ast H. unfold front_end in H.
    destruct (lexer text) as [tokens| |] eqn:L; try discriminate.
    apply parse_items in H. apply (items_without_equals _ _ H).
    intros t Hin E. apply lexer_return_scan in L. apply scan_kinds in L.
    rewrite Forall_forall in L. specialize (L t Hin). rewrite E in L.
    vm_compute in L. intuition discriminate.
Qed.
